(** * Poryscript parser: a shallow embedding of [parser/parser.go]

    The recursive-descent parser of [src/parser/parser.go] is embedded with
    explicit state passing: a [Parser] value carries the lexer, the current
    and the peeked token, the error list and the implicit-text list, the
    fields of the Go struct.  Go's [for] loops and the recursion of the
    descent become fixpoints on a fuel argument: a turn of a loop and a
    call of a recursive function take one unit of fuel, and a result of
    [None] means that the fuel ran out before the function returned.  A
    nil pointer is an [option] that is [None] and Go's [int] is [Z]: line
    numbers, lengths and nesting depths stay far from the 64-bit bound.
    The echo of the errors on standard output in [ParseProgram] is left
    out. *)

From Stdlib Require Import String Ascii List ZArith Lia Bool.
From Stdlib Require Import DecimalString DecimalZ.
Import ListNotations.

#[local] Set Warnings "-register-all".

(** Go's [append(s, x)] on slices. *)
Definition append {A : Type} (s : list A) (x : A) : list A := s ++ [x].

(** [fmt.Sprintf("%d", z)]. *)
Definition fmt_d (z : Z) : string := NilZero.string_of_int (Z.to_int z).

(** [strings.Join(parts, " ")]. *)
Definition Join (parts : list string) : string := String.concat " " parts.

(** ** Package [token] *)
Module token.

(** Modelled from the spec: the [token] package is not part of the sources
    at hand.  Section 6 of the specification lists the token kinds
    (identifiers, keywords, punctuation, string and raw-string literals,
    the six relational operators, [&&] and [||]); the parser names the
    kinds it tests as [token.EOF], [token.IDENT] and so on.  [NoType] is
    the zero value of the Go type, which a freshly allocated struct
    holds. *)
Inductive TokenType : Set :=
| NoType | ILLEGAL | EOF
| IDENT | INT | STRING | RAWSTRING
| EQ | NEQ | LT | GT | LTE | GTE
| AND | OR
| COMMA | COLON | LPAREN | RPAREN | LBRACE | RBRACE
| SCRIPT | RAW | RAWGLOBAL | MAPSCRIPTS
| VAR | FLAG | TRUE | FALSE
| IF | ELSE | ELSEIF
| DO | WHILE | BREAK | CONTINUE | SWITCH | CASE | DEFAULT.

Definition TokenType_eq_dec (a b : TokenType) : {a = b} + {a <> b}.
Proof. decide equality. Defined.

(** [a == b] on token types. *)
Definition eqb (a b : TokenType) : bool :=
  if TokenType_eq_dec a b then true else false.

(** Modelled from the spec: the text a token type is printed as by [%s]
    and by the conversion [string(t)]; keywords print as their upper-case
    name and punctuation as itself. *)
Definition typeString (t : TokenType) : string :=
  match t with
  | NoType => EmptyString
  | ILLEGAL => "ILLEGAL" | EOF => "EOF"
  | IDENT => "IDENT" | INT => "INT" | STRING => "STRING"
  | RAWSTRING => "RAWSTRING"
  | EQ => "==" | NEQ => "!=" | LT => "<" | GT => ">"
  | LTE => "<=" | GTE => ">="
  | AND => "&&" | OR => "||"
  | COMMA => "," | COLON => ":" | LPAREN => "(" | RPAREN => ")"
  | LBRACE => "{" | RBRACE => "}"
  | SCRIPT => "SCRIPT" | RAW => "RAW" | RAWGLOBAL => "RAWGLOBAL"
  | MAPSCRIPTS => "MAPSCRIPTS"
  | VAR => "VAR" | FLAG => "FLAG" | TRUE => "TRUE" | FALSE => "FALSE"
  | IF => "IF" | ELSE => "ELSE" | ELSEIF => "ELSEIF"
  | DO => "DO" | WHILE => "WHILE" | BREAK => "BREAK"
  | CONTINUE => "CONTINUE" | SWITCH => "SWITCH" | CASE => "CASE"
  | DEFAULT => "DEFAULT"
  end.

(** Modelled from the spec: a token is [{Type, Literal, LineNumber}]. *)
Record Token : Set := mkToken {
  Type_ : TokenType;
  Literal : string;
  LineNumber : Z
}.

(** The zero value of [Token]. *)
Definition zero : Token := mkToken NoType EmptyString 0.

End token.

(** ** Package [lexer] *)
Module lexer.

(** Modelled from the spec: the lexer is an external collaborator that the
    parser reads only through [NextToken].  It delivers an ordered,
    line-numbered token stream terminated by an end-of-input token; once
    the input is used up every further call delivers the end-of-input
    token again. *)
Record Lexer : Set := mkLexer {
  input : list token.Token;
  eofLine : Z
}.

Definition eofToken (lx : Lexer) : token.Token :=
  token.mkToken token.EOF EmptyString (eofLine lx).

Definition NextToken (lx : Lexer) : token.Token * Lexer :=
  match input lx with
  | [] => (eofToken lx, lx)
  | t :: ts => (t, mkLexer ts (eofLine lx))
  end.

End lexer.

(** ** Package [ast], as the parser builds it

    The nodes are those the parser allocates, with the fields it fills.
    [ast/ast.go] declares the condition of an [if] as a tree of boolean
    expressions; the parser at hand fills the fields [Type], [Operand],
    [Operator], [ComparisonValue] and [Body] of a [ConditionExpression]
    and the fields [IsGlobal] and [Name] of a [RawStatement], and it is
    these records that are modelled.  Fields the parser never sets
    ([Scope], and [StringType] and [IsGlobal] of a text, which keep their
    zero value) are left out or kept at that value. *)
Module ast.

Record Text : Set := mkText {
  Text_Name : string;
  Text_Value : string;
  StringType : string;
  Text_IsGlobal : bool
}.

Record Identifier : Set := mkIdentifier {
  Identifier_Token : token.Token;
  Identifier_Value : string
}.

Record CommandStatement : Set := mkCommandStatement {
  Command_Token : token.Token;
  Command_Name : Identifier;
  Args : list string
}.

Record RawStatement : Set := mkRawStatement {
  Raw_Token : token.Token;
  Raw_IsGlobal : bool;
  Raw_Name : option Identifier;
  Raw_Value : string
}.

(** The recursive nodes.  A [ConditionExpression] is what the parser
    allocates in [parseIfConditionExpression]: one operator with its
    operand, comparison operator and comparison value, and the body. *)
Inductive Statement : Set :=
| Script (s : ScriptStatement)
| Command (c : CommandStatement)
| Raw (r : RawStatement)
| If (i : IfStatement)
with ScriptStatement : Set :=
| mkScriptStatement (Token : token.Token) (Name : Identifier)
    (Body : option BlockStatement)
with BlockStatement : Set :=
| mkBlockStatement (Token : token.Token) (Statements : list Statement)
with IfStatement : Set :=
| mkIfStatement (Token : token.Token) (Consequence : ConditionExpression)
    (ElifConsequences : list ConditionExpression)
    (ElseConsequence : option BlockStatement)
with ConditionExpression : Set :=
| mkConditionExpression (Type_ : token.TokenType) (Operand : string)
    (Operator : token.TokenType) (ComparisonValue : string)
    (Body : option BlockStatement).

Definition Type_ (e : ConditionExpression) : token.TokenType :=
  let 'mkConditionExpression t _ _ _ _ := e in t.
Definition Operand (e : ConditionExpression) : string :=
  let 'mkConditionExpression _ o _ _ _ := e in o.
Definition Operator (e : ConditionExpression) : token.TokenType :=
  let 'mkConditionExpression _ _ o _ _ := e in o.
Definition ComparisonValue (e : ConditionExpression) : string :=
  let 'mkConditionExpression _ _ _ v _ := e in v.
Definition Body (e : ConditionExpression) : option BlockStatement :=
  let 'mkConditionExpression _ _ _ _ b := e in b.

Definition setOperand (v : string) (e : ConditionExpression) :=
  let 'mkConditionExpression t _ o c b := e in
  mkConditionExpression t v o c b.
Definition setOperator (v : token.TokenType) (e : ConditionExpression) :=
  let 'mkConditionExpression t o _ c b := e in
  mkConditionExpression t o v c b.
Definition setComparisonValue (v : string) (e : ConditionExpression) :=
  let 'mkConditionExpression t o p _ b := e in
  mkConditionExpression t o p v b.
Definition setBody (v : option BlockStatement) (e : ConditionExpression) :=
  let 'mkConditionExpression t o p c _ := e in
  mkConditionExpression t o p c v.

Definition Block_Token (b : BlockStatement) : token.Token :=
  let 'mkBlockStatement t _ := b in t.
Definition Statements (b : BlockStatement) : list Statement :=
  let 'mkBlockStatement _ s := b in s.

Record Program : Set := mkProgram {
  TopLevelStatements : list Statement;
  Texts : list Text
}.

End ast.

(** ** Package [parser] *)
Module parser.

Import token.
#[local] Open Scope string_scope.

Record Parser : Set := mkParser {
  l : lexer.Lexer;
  curToken : Token;
  peekToken : Token;
  errors : list string;
  implicitTexts : list string
}.

Definition setErrors (v : list string) (p : Parser) : Parser :=
  mkParser (l p) (curToken p) (peekToken p) v (implicitTexts p).

Definition setImplicitTexts (v : list string) (p : Parser) : Parser :=
  mkParser (l p) (curToken p) (peekToken p) (errors p) v.

(** [p.errors = append(p.errors, msg)]. *)
Definition addError (msg : string) (p : Parser) : Parser :=
  setErrors (append (errors p) msg) p.

Definition nextToken (p : Parser) : Parser :=
  let (t, l') := lexer.NextToken (l p) in
  mkParser l' (peekToken p) t (errors p) (implicitTexts p).

Definition New (lx : lexer.Lexer) : Parser :=
  let p := mkParser lx token.zero token.zero [] [] in
  nextToken (nextToken p).

Definition Errors (p : Parser) : list string := errors p.

Definition curTokenIs (p : Parser) (t : TokenType) : bool :=
  token.eqb (Type_ (curToken p)) t.

Definition peekTokenIs (p : Parser) (expectedType : TokenType) : bool :=
  token.eqb (Type_ (peekToken p)) expectedType.

Definition peekErrorMsg (expectedType got : TokenType) : string :=
  "expected next token to be type " ++ typeString expectedType
    ++ ", got " ++ typeString got ++ " instead".

Definition peekError (expectedType : TokenType) (p : Parser) : Parser :=
  addError (peekErrorMsg expectedType (Type_ (peekToken p))) p.

Definition expectPeek (expectedType : TokenType) (p : Parser) : bool * Parser :=
  if peekTokenIs p expectedType then (true, nextToken p)
  else (false, peekError expectedType p).

Definition getImplicitTextLabel (i : Z) : string := "Text_" ++ fmt_d i.

(** The result of a parsing function: [None] when the fuel ran out,
    otherwise the value returned and the parser afterwards. *)
Definition Result (A : Type) : Type := option (A * Parser).

(** *** Command statements *)

Definition appendArg (arg : string) (c : ast.CommandStatement) :=
  ast.mkCommandStatement (ast.Command_Token c) (ast.Command_Name c)
    (append (ast.Args c) arg).

Definition missingParenMsg (c : ast.CommandStatement) : string :=
  "line " ++ fmt_d (LineNumber (ast.Command_Token c))
    ++ ": missing closing parenthesis for command '"
    ++ Literal (ast.Identifier_Token (ast.Command_Name c)) ++ "'".

(** The [for] loop of [parseCommandStatement]; it returns the command and
    the parts of the argument under construction, or nil at end of
    input. *)
Fixpoint commandArgs (fuel : nat) (command : ast.CommandStatement)
    (argParts : list string) (numOpenParens : Z) (p : Parser)
    : Result (option (ast.CommandStatement * list string)) :=
  if curTokenIs p RPAREN && (numOpenParens =? 0)%Z then
    Some (Some (command, argParts), p)
  else
    match fuel with
    | O => None
    | S fuel' =>
      if curTokenIs p EOF then
        Some (None, addError (missingParenMsg command) p)
      else
        match Type_ (curToken p) with
        | COMMA =>
          let arg := Join argParts in
          commandArgs fuel' (appendArg arg command) [] numOpenParens
            (nextToken p)
        | LPAREN =>
          commandArgs fuel' command
            (append argParts (Literal (curToken p)))
            (numOpenParens + 1)%Z (nextToken p)
        | RPAREN =>
          commandArgs fuel' command
            (append argParts (Literal (curToken p)))
            (numOpenParens - 1)%Z (nextToken p)
        | STRING =>
          let textLabel :=
            getImplicitTextLabel (Z.of_nat (length (implicitTexts p))) in
          let p1 :=
            setImplicitTexts
              (append (implicitTexts p) (Literal (curToken p))) p in
          commandArgs fuel' command (append argParts textLabel)
            numOpenParens (nextToken p1)
        | _ =>
          commandArgs fuel' command
            (append argParts (Literal (curToken p)))
            numOpenParens (nextToken p)
        end
    end.

Definition parseCommandStatement (fuel : nat) (p : Parser)
    : Result (option ast.CommandStatement) :=
  let command :=
    ast.mkCommandStatement (curToken p)
      (ast.mkIdentifier (curToken p) (Literal (curToken p))) [] in
  if peekTokenIs p LPAREN then
    let p1 := nextToken (nextToken p) in
    match commandArgs fuel command [] 0%Z p1 with
    | None => None
    | Some (None, p2) => Some (None, p2)
    | Some (Some (command, argParts), p2) =>
      if (0 <? length argParts)%nat then
        Some (Some (appendArg (Join argParts) command), p2)
      else Some (Some command, p2)
    end
  else Some (Some command, p).

(** *** Raw statements *)

Definition parseRawStatement (p : Parser)
    : option ast.RawStatement * Parser :=
  let tok := curToken p in
  let IsGlobal := token.eqb (Type_ tok) RAWGLOBAL in
  let (ok, p1) := expectPeek IDENT p in
  if negb ok then (None, p1)
  else
    let Name := ast.mkIdentifier (curToken p1) (Literal (curToken p1)) in
    let (ok, p2) := expectPeek RAWSTRING p1 in
    if negb ok then (None, p2)
    else
      (Some (ast.mkRawStatement tok IsGlobal (Some Name)
               (Literal (curToken p2))), p2).

(** *** Conditions *)

(** [for p.curToken.Type != token.RPAREN { parts = append(parts,
    p.curToken.Literal); p.nextToken() }], the loop that collects an
    operand in [parseIfConditionExpression] and a comparison value in
    [parseIfVarOperator]. *)
Fixpoint collectParts (fuel : nat) (parts : list string) (p : Parser)
    : Result (list string) :=
  if negb (curTokenIs p RPAREN) then
    match fuel with
    | O => None
    | S fuel' =>
      collectParts fuel' (append parts (Literal (curToken p)))
        (nextToken p)
    end
  else Some (parts, p).

Definition isRelational (t : TokenType) : bool :=
  match t with
  | GT | GTE | LT | LTE | EQ | NEQ => true
  | _ => false
  end.

Definition parseIfVarOperator (fuel : nat)
    (expression : ast.ConditionExpression) (p : Parser)
    : Result (bool * ast.ConditionExpression) :=
  if negb (isRelational (Type_ (curToken p))) then
    let msg :=
      "line " ++ fmt_d (LineNumber (curToken p))
        ++ ": invalid condition operator '" ++ Literal (curToken p)
        ++ "'" in
    Some ((false, expression), addError msg p)
  else
    let expression := ast.setOperator (Type_ (curToken p)) expression in
    let p1 := nextToken p in
    if curTokenIs p1 RPAREN then
      let msg :=
        "line " ++ fmt_d (LineNumber (curToken p1))
          ++ ": missing comparison value for if statement" in
      Some ((false, expression), addError msg p1)
    else
      match collectParts fuel [] p1 with
      | None => None
      | Some (parts, p2) =>
        let (ok, p3) := expectPeek LBRACE p2 in
        if negb ok then Some ((false, expression), p3)
        else
          let expression :=
            ast.setComparisonValue (Join parts) expression in
          Some ((true, expression), nextToken p3)
      end.

Definition parseIfFlagOperator (expression : ast.ConditionExpression)
    (p : Parser) : (bool * ast.ConditionExpression) * Parser :=
  if negb (curTokenIs p EQ) then
    let msg :=
      "line " ++ fmt_d (LineNumber (curToken p))
        ++ ": invalid condition operator '" ++ Literal (curToken p)
        ++ "'. Only '==' is allowed." in
    ((false, expression), addError msg p)
  else
    let expression := ast.setOperator (Type_ (curToken p)) expression in
    let p1 := nextToken p in
    if curTokenIs p1 RPAREN then
      let msg :=
        "line " ++ fmt_d (LineNumber (curToken p1))
          ++ ": missing comparison value for if statement" in
      ((false, expression), addError msg p1)
    else if negb (curTokenIs p1 TRUE) && negb (curTokenIs p1 FALSE) then
      let msg :=
        "line " ++ fmt_d (LineNumber (curToken p1))
          ++ ": invalid flag comparison value '" ++ Literal (curToken p1)
          ++ "'. Only 'TRUE' and 'FALSE' are allowed." in
      ((false, expression), addError msg p1)
    else
      let expression :=
        ast.setComparisonValue (typeString (Type_ (curToken p1)))
          expression in
      let (ok, p2) := expectPeek RPAREN p1 in
      if negb ok then ((false, expression), p2)
      else
        let (ok, p3) := expectPeek LBRACE p2 in
        if negb ok then ((false, expression), p3)
        else ((true, expression), nextToken p3).

(** *** Blocks, statements and [if] *)

Definition appendStatement (s : ast.Statement) (b : ast.BlockStatement) :=
  ast.mkBlockStatement (ast.Block_Token b) (append (ast.Statements b) s).

Definition nl : string := String "010"%char EmptyString.

(** The mutually recursive functions.  [blockLoop] is the [for] loop of
    [parseBlockStatement] and [elifLoop] the one of [parseIfStatement]. *)
Fixpoint parseBlockStatement (fuel : nat) (p : Parser)
    : Result (option ast.BlockStatement) :=
  match fuel with
  | O => None
  | S fuel' =>
    let block := ast.mkBlockStatement (curToken p) [] in
    blockLoop fuel' block p
  end

with blockLoop (fuel : nat) (block : ast.BlockStatement) (p : Parser)
    : Result (option ast.BlockStatement) :=
  if negb (curTokenIs p RBRACE) then
    match fuel with
    | O => None
    | S fuel' =>
      if curTokenIs p EOF then
        let msg :=
          "line " ++ fmt_d (LineNumber (ast.Block_Token block))
            ++ ": missing closing curly brace for block statement" in
        Some (None, addError msg p)
      else
        match parseStatement fuel' p with
        | None => None
        | Some (None, p1) => Some (None, p1)
        | Some (Some statement, p1) =>
          blockLoop fuel' (appendStatement statement block) (nextToken p1)
        end
    end
  else Some (Some block, p)

with parseStatement (fuel : nat) (p : Parser)
    : Result (option ast.Statement) :=
  match fuel with
  | O => None
  | S fuel' =>
    match Type_ (curToken p) with
    | IDENT =>
      match parseCommandStatement fuel' p with
      | None => None
      | Some (None, p1) => Some (None, p1)
      | Some (Some statement, p1) => Some (Some (ast.Command statement), p1)
      end
    | IF =>
      match parseIfStatement fuel' p with
      | None => None
      | Some (None, p1) => Some (None, p1)
      | Some (Some statement, p1) => Some (Some (ast.If statement), p1)
      end
    | _ =>
      let msg :=
        "line " ++ fmt_d (LineNumber (curToken p))
          ++ ": could not parse statement for '" ++ Literal (curToken p)
          ++ "'" ++ nl in
      Some (None, addError msg p)
    end
  end

with parseIfStatement (fuel : nat) (p : Parser)
    : Result (option ast.IfStatement) :=
  match fuel with
  | O => None
  | S fuel' =>
    let tok := curToken p in
    let (ok, p1) := expectPeek LPAREN p in
    if negb ok then
      let msg :=
        "line " ++ fmt_d (LineNumber tok)
          ++ ": missing opening parenthesis of if statement '"
          ++ Literal (peekToken p1) ++ "'" in
      Some (None, addError msg p1)
    else
      (* First if statement condition *)
      match parseIfConditionExpression fuel' (LineNumber tok) p1 with
      | None => None
      | Some (None, p2) => Some (None, p2)
      | Some (Some consequence, p2) =>
        (* Possibly-many elif conditions *)
        match elifLoop fuel' [] p2 with
        | None => None
        | Some (None, p3) => Some (None, p3)
        | Some (Some elifs, p3) =>
          (* Trailing else block *)
          if peekTokenIs p3 ELSE then
            let p4 := nextToken p3 in
            let (ok, p5) := expectPeek LBRACE p4 in
            if negb ok then
              let msg :=
                "line " ++ fmt_d (LineNumber (peekToken p5))
                  ++ ": missing opening curly brace of else statement '"
                  ++ Literal (peekToken p5) ++ "'" in
              Some (None, addError msg p5)
            else
              match parseBlockStatement fuel' (nextToken p5) with
              | None => None
              | Some (body, p6) =>
                Some (Some (ast.mkIfStatement tok consequence elifs body),
                      p6)
              end
          else
            Some (Some (ast.mkIfStatement tok consequence elifs None), p3)
        end
      end
  end

with elifLoop (fuel : nat) (elifs : list ast.ConditionExpression)
    (p : Parser) : Result (option (list ast.ConditionExpression)) :=
  if peekTokenIs p ELSEIF then
    match fuel with
    | O => None
    | S fuel' =>
      let p1 := nextToken p in
      let (ok, p2) := expectPeek LPAREN p1 in
      if negb ok then
        let msg :=
          "line " ++ fmt_d (LineNumber (curToken p2))
            ++ ": missing opening parenthesis of elif statement '"
            ++ Literal (peekToken p2) ++ "'" in
        Some (None, addError msg p2)
      else
        match
          parseIfConditionExpression fuel' (LineNumber (peekToken p2)) p2
        with
        | None => None
        | Some (None, p3) => Some (None, p3)
        | Some (Some consequence, p3) =>
          elifLoop fuel' (append elifs consequence) p3
        end
    end
  else Some (Some elifs, p)

with parseIfConditionExpression (fuel : nat) (lineNumber : Z) (p : Parser)
    : Result (option ast.ConditionExpression) :=
  match fuel with
  | O => None
  | S fuel' =>
    if negb (peekTokenIs p VAR) && negb (peekTokenIs p FLAG) then
      let msg :=
        "line " ++ fmt_d lineNumber
          ++ ": invalid if statement command '" ++ Literal (peekToken p)
          ++ "'" in
      Some (None, addError msg p)
    else
      let p1 := nextToken p in
      let expression :=
        ast.mkConditionExpression (Type_ (curToken p1)) EmptyString NoType
          EmptyString None in
      let (ok, p2) := expectPeek LPAREN p1 in
      if negb ok then
        let msg :=
          "line " ++ fmt_d lineNumber
            ++ ": missing opening parenthesis for if statement operator '"
            ++ typeString (ast.Type_ expression) ++ "'" in
        Some (None, addError msg p2)
      else if token.eqb (Type_ (peekToken p2)) RPAREN then
        let msg :=
          "line " ++ fmt_d lineNumber
            ++ ": missing value for if statement operator '"
            ++ typeString (ast.Type_ expression) ++ "'" in
        Some (None, addError msg p2)
      else
        let p3 := nextToken p2 in
        match collectParts fuel' [] p3 with
        | None => None
        | Some (parts, p4) =>
          let expression := ast.setOperand (Join parts) expression in
          let p5 := nextToken p4 in
          let operator : Result (bool * ast.ConditionExpression) :=
            if token.eqb (ast.Type_ expression) VAR then
              parseIfVarOperator fuel' expression p5
            else if token.eqb (ast.Type_ expression) FLAG then
              Some (parseIfFlagOperator expression p5)
            else Some ((true, expression), p5) in
          match operator with
          | None => None
          | Some ((false, _), p6) => Some (None, p6)
          | Some ((true, expression), p6) =>
            match parseBlockStatement fuel' p6 with
            | None => None
            | Some (body, p7) =>
              Some (Some (ast.setBody body expression), p7)
            end
          end
        end
  end.

(** *** Top level *)

Definition parseScriptStatement (fuel : nat) (p : Parser)
    : Result (option ast.ScriptStatement) :=
  let tok := curToken p in
  let (ok, p1) := expectPeek IDENT p in
  if negb ok then Some (None, p1)
  else
    let Name := ast.mkIdentifier (curToken p1) (Literal (curToken p1)) in
    let (ok, p2) := expectPeek LBRACE p1 in
    if negb ok then Some (None, p2)
    else
      let p3 := nextToken p2 in
      match parseBlockStatement fuel p3 with
      | None => None
      | Some (body, p4) => Some (Some (ast.mkScriptStatement tok Name body), p4)
      end.

Definition parseTopLevelStatement (fuel : nat) (p : Parser)
    : Result (option ast.Statement) :=
  match Type_ (curToken p) with
  | SCRIPT =>
    match parseScriptStatement fuel p with
    | None => None
    | Some (None, p1) => Some (None, p1)
    | Some (Some statement, p1) => Some (Some (ast.Script statement), p1)
    end
  | RAW | RAWGLOBAL =>
    match parseRawStatement p with
    | (None, p1) => Some (None, p1)
    | (Some statement, p1) => Some (Some (ast.Raw statement), p1)
    end
  | _ =>
    let msg :=
      "line " ++ fmt_d (LineNumber (curToken p))
        ++ ": could not parse top-level statement for '"
        ++ Literal (curToken p) ++ "'" in
    Some (None, addError msg p)
  end.

Definition appendTopLevel (s : ast.Statement) (program : ast.Program) :=
  ast.mkProgram (append (ast.TopLevelStatements program) s)
    (ast.Texts program).

(** [for p.curToken.Type != token.EOF { ... }] of [ParseProgram]; the
    echo of the errors on standard output is not part of the model. *)
Fixpoint programLoop (fuel : nat) (program : ast.Program) (p : Parser)
    : Result (option ast.Program) :=
  if negb (curTokenIs p EOF) then
    match fuel with
    | O => None
    | S fuel' =>
      match parseTopLevelStatement fuel' p with
      | None => None
      | Some (statement, p1) =>
        if (0 <? length (errors p1))%nat then Some (None, p1)
        else
          let program :=
            match statement with
            | Some s => appendTopLevel s program
            | None => program
            end in
          programLoop fuel' program (nextToken p1)
      end
    end
  else Some (Some program, p).

(** [for i, text := range p.implicitTexts { program.Texts = append(...) }],
    started at index [i]. *)
Fixpoint appendImplicitTexts (i : Z) (texts : list string)
    (program : ast.Program) : ast.Program :=
  match texts with
  | [] => program
  | text :: rest =>
    appendImplicitTexts (i + 1)%Z rest
      (ast.mkProgram (ast.TopLevelStatements program)
         (append (ast.Texts program)
            (ast.mkText (getImplicitTextLabel i) text EmptyString false)))
  end.

Definition ParseProgram (fuel : nat) (p : Parser)
    : Result (option ast.Program) :=
  let p := setImplicitTexts [] p in
  let program := ast.mkProgram [] [] in
  match programLoop fuel program p with
  | None => None
  | Some (None, p1) => Some (None, p1)
  | Some (Some program, p1) =>
    Some (Some (appendImplicitTexts 0 (implicitTexts p1) program), p1)
  end.

End parser.

(** ** Token streams

    A parser that [New] has made is always positioned on a token list: the
    current token is the head, the peeked one the second element and the
    lexer holds the rest, the end-of-input token standing for everything
    past the end. *)
Module stream.

Import token parser.

Definition eofTok (e : Z) : Token := mkToken EOF EmptyString e.

Definition stateAt (e : Z) (toks : list Token) (errs txts : list string)
    : Parser :=
  mkParser (lexer.mkLexer (tl (tl toks)) e)
    (hd (eofTok e) toks) (hd (eofTok e) (tl toks)) errs txts.

End stream.

(** ** Specification-level definitions

    What the properties speak of, written without the parser's
    accumulators. *)
Module spec.

Import token parser stream.

(** [closedBody depth body]: read from nesting depth [depth], the tokens
    [body] hold no end of input and no closing parenthesis at depth 0, and
    leave the depth at 0; a closing parenthesis that follows [body] is then
    the one that matches the command's opening parenthesis. *)
Fixpoint closedBody (depth : Z) (body : list Token) : bool :=
  match body with
  | [] => (depth =? 0)%Z
  | t :: ts =>
    match Type_ t with
    | EOF => false
    | LPAREN => closedBody (depth + 1) ts
    | RPAREN => negb (depth =? 0)%Z && closedBody (depth - 1) ts
    | _ => closedBody depth ts
    end
  end.

(** The values of the string-literal tokens of [body], left to right. *)
Definition stringLiterals (body : list Token) : list string :=
  map Literal (filter (fun t => token.eqb (Type_ t) STRING) body).

(** The pieces of an argument list when [n] implicit texts exist already:
    a comma is a separator ([None]) whatever the depth, a string literal
    is replaced by the next label, any other token stands for itself. *)
Fixpoint argPieces (n : nat) (body : list Token) : list (option string) :=
  match body with
  | [] => []
  | t :: ts =>
    match Type_ t with
    | COMMA => None :: argPieces n ts
    | STRING =>
      Some (getImplicitTextLabel (Z.of_nat n)) :: argPieces (S n) ts
    | _ => Some (Literal t) :: argPieces n ts
    end
  end.

(** The same pieces as the specification words them: a comma separates
    only at depth 0 and is an ordinary part of the argument inside nested
    parentheses. *)
Fixpoint argPiecesDepthZero (n : nat) (depth : Z) (body : list Token)
    : list (option string) :=
  match body with
  | [] => []
  | t :: ts =>
    match Type_ t with
    | COMMA =>
      (if (depth =? 0)%Z then None else Some (Literal t))
        :: argPiecesDepthZero n depth ts
    | LPAREN => Some (Literal t) :: argPiecesDepthZero n (depth + 1) ts
    | RPAREN => Some (Literal t) :: argPiecesDepthZero n (depth - 1) ts
    | STRING =>
      Some (getImplicitTextLabel (Z.of_nat n))
        :: argPiecesDepthZero (S n) depth ts
    | _ => Some (Literal t) :: argPiecesDepthZero n depth ts
    end
  end.

(** Cut a list of pieces at its separators: the groups that a separator
    ends, and the group left open at the end. *)
Fixpoint splitPieces (ps : list (option string))
    : list (list string) * list string :=
  match ps with
  | [] => ([], [])
  | None :: rest =>
    let (groups, open) := splitPieces rest in ([] :: groups, open)
  | Some s :: rest =>
    match splitPieces rest with
    | ([], open) => ([], s :: open)
    | (g :: groups, open) => ((s :: g) :: groups, open)
    end
  end.

(** The arguments made of pieces: every group that a separator ends is an
    argument, the open group is one when it is not empty. *)
Definition argsOfPieces (ps : list (option string)) : list string :=
  let (groups, open) := splitPieces ps in
  map Join groups ++ match open with [] => [] | _ :: _ => [Join open] end.

(** The arguments the code builds: split at every comma. *)
Definition argsOf (n : nat) (body : list Token) : list string :=
  argsOfPieces (argPieces n body).

(** The arguments the specification describes: split at depth 0 only. *)
Definition argsAtDepthZero (n : nat) (body : list Token) : list string :=
  argsOfPieces (argPiecesDepthZero n 0 body).

(** The text entries of the implicit texts [texts], numbered from [i]. *)
Fixpoint labelled (i : nat) (texts : list string) : list ast.Text :=
  match texts with
  | [] => []
  | text :: rest =>
    ast.mkText (getImplicitTextLabel (Z.of_nat i)) text EmptyString false
      :: labelled (S i) rest
  end.

(** The tokens of a command: a bare name, or a name with an argument
    list. *)
Inductive CommandTokens : Set :=
| Bare (name : Token)
| Call (name lp : Token) (body : list Token) (rp : Token).

Definition commandTokens (c : CommandTokens) : list Token :=
  match c with
  | Bare name => [name]
  | Call name lp body rp => name :: lp :: body ++ [rp]
  end.

Definition commandName (c : CommandTokens) : Token :=
  match c with
  | Bare name => name
  | Call name _ _ _ => name
  end.

Definition commandBody (c : CommandTokens) : list Token :=
  match c with
  | Bare _ => []
  | Call _ _ body _ => body
  end.

(** The name is an identifier and the argument list, when there is one, is
    closed. *)
Definition closedCommand (c : CommandTokens) : bool :=
  match c with
  | Bare name => token.eqb (Type_ name) IDENT
  | Call name lp body rp =>
    token.eqb (Type_ name) IDENT && token.eqb (Type_ lp) LPAREN
    && token.eqb (Type_ rp) RPAREN && closedBody 0 body
  end.

(** The string literals of a sequence of commands, in the order of the
    source. *)
Definition commandLiterals (cs : list CommandTokens) : list string :=
  flat_map (fun c => stringLiterals (commandBody c)) cs.

(** The statements a sequence of commands stands for when [n] implicit
    texts exist before the first of them. *)
Fixpoint commandStatements (n : nat) (cs : list CommandTokens)
    : list ast.Statement :=
  match cs with
  | [] => []
  | c :: rest =>
    ast.Command
      (ast.mkCommandStatement (commandName c)
         (ast.mkIdentifier (commandName c) (Literal (commandName c)))
         (argsOf n (commandBody c)))
      :: commandStatements (n + length (stringLiterals (commandBody c))) rest
  end.

(** A script whose body is a sequence of commands. *)
Definition straightLineScript (script name lb : Token)
    (cs : list CommandTokens) (rb : Token) : list Token :=
  script :: name :: lb :: flat_map commandTokens cs ++ [rb].

(** The state of the argument loop after the pieces [ps], entered with the
    command [command] and the open parts [argParts]. *)
Definition extendArgs (command : ast.CommandStatement)
    (argParts : list string) (ps : list (option string))
    : ast.CommandStatement * list string :=
  match splitPieces ps with
  | ([], open) => (command, argParts ++ open)
  | (g :: groups, open) =>
    (ast.mkCommandStatement (ast.Command_Token command)
       (ast.Command_Name command)
       (ast.Args command ++ map Join ((argParts ++ g) :: groups)), open)
  end.

(** A message is line-numbered when it has the form [line <n>: ...]. *)
Definition lineNumbered (n : Z) (msg : string) : Prop :=
  exists rest : string,
    msg = ("line " ++ fmt_d n ++ ": " ++ rest)%string.

(** A message of [peekError]. *)
Definition peekMessage (msg : string) : Prop :=
  exists expected got : TokenType, msg = peekErrorMsg expected got.

(** What the parser may report: a line-numbered message or a message of
    [peekError]. *)
Definition diagnostic (msg : string) : Prop :=
  (exists n, lineNumbered n msg) \/ peekMessage msg.

(** [p'] is [p] with diagnostics added at the end of the error list and
    texts added at the end of the implicit-text list. *)
Definition extends (p p' : Parser) : Prop :=
  (exists errs, errors p' = errors p ++ errs /\ Forall diagnostic errs) /\
  (exists txts, implicitTexts p' = implicitTexts p ++ txts).

(** A parsing function only ever extends the parser in that way. *)
Definition frames {A : Type} (f : Parser -> Result A) : Prop :=
  forall p r p', f p = Some (r, p') -> extends p p'.

(** [s] occurs in [msg]. *)
Fixpoint occursIn (s msg : string) : bool :=
  String.prefix s msg ||
  match msg with
  | EmptyString => false
  | String _ rest => occursIn s rest
  end.

(** No token of [toks] is a closing parenthesis. *)
Definition noRParen (toks : list Token) : bool :=
  forallb (fun t => negb (token.eqb (Type_ t) RPAREN)) toks.

(** The expression [parseIfConditionExpression] allocates for the operator
    token [k] and fills with the operand. *)
Definition operandExpression (k : Token) (operand : list Token)
    : ast.ConditionExpression :=
  ast.mkConditionExpression (Type_ k) (Join (map Literal operand)) NoType
    EmptyString None.

(** The messages of the operator functions, for the token they name. *)
Definition invalidOperatorMsg (t : Token) : string :=
  ("line " ++ fmt_d (LineNumber t) ++ ": invalid condition operator '"
     ++ Literal t ++ "'")%string.

Definition onlyEqMsg (t : Token) : string :=
  ("line " ++ fmt_d (LineNumber t) ++ ": invalid condition operator '"
     ++ Literal t ++ "'. Only '==' is allowed.")%string.

Definition onlyTrueFalseMsg (t : Token) : string :=
  ("line " ++ fmt_d (LineNumber t) ++ ": invalid flag comparison value '"
     ++ Literal t ++ "'. Only 'TRUE' and 'FALSE' are allowed.")%string.

Definition missingValueMsg (t : Token) : string :=
  ("line " ++ fmt_d (LineNumber t)
     ++ ": missing comparison value for if statement")%string.

End spec.

(** ** Sample inputs *)
Module examples.

Import token.
#[local] Open Scope string_scope.
#[local] Open Scope Z_scope.

Definition lparen (line : Z) : Token := mkToken LPAREN "(" line.
Definition rparen (line : Z) : Token := mkToken RPAREN ")" line.
Definition lbrace (line : Z) : Token := mkToken LBRACE "{" line.
Definition rbrace (line : Z) : Token := mkToken RBRACE "}" line.
Definition comma (line : Z) : Token := mkToken COMMA "," line.
Definition ident (name : string) (line : Z) : Token :=
  mkToken IDENT name line.

(** The opening of a script, [script Main {] on line 1. *)
Definition scriptMain : list Token :=
  [mkToken SCRIPT "script" 1; ident "Main" 1; lbrace 1].

(** [foo(bar(1, 2), 3)] on line 2: the tokens between the outer
    parentheses, and the whole command. *)
Definition nestedBody : list Token :=
  [ident "bar" 2; lparen 2; mkToken INT "1" 2; comma 2; mkToken INT "2" 2;
   rparen 2; comma 2; mkToken INT "3" 2].

Definition nestedCall : list Token :=
  ident "foo" 2 :: lparen 2 :: nestedBody ++ [rparen 2].

(** [msgbox("Hello", "World")] on line 3: two string literals in one
    command. *)
Definition twoLiteralsBody : list Token :=
  [mkToken STRING "Hello" 3; comma 3; mkToken STRING "World" 3].

(** [script Main {] / [lock] / [msgbox("Hello", "World")] / [}]. *)
Definition twoLiterals : lexer.Lexer :=
  lexer.mkLexer
    (scriptMain ++ [ident "lock" 2]
       ++ ident "msgbox" 3 :: lparen 3 :: twoLiteralsBody
       ++ [rparen 3; rbrace 4])
    5.

(** [script Main {] and nothing more: the input ends on line 3. *)
Definition unclosedBlock : lexer.Lexer := lexer.mkLexer scriptMain 3.

(** [script {]: the name of the script is missing. *)
Definition missingName : lexer.Lexer :=
  lexer.mkLexer [mkToken SCRIPT "script" 1; lbrace 1] 2.

(** [flag(A) == TRUE], the tokens of a flag test on line 2 up to its
    comparison value. *)
Definition flagA : list Token :=
  [mkToken FLAG "flag" 2; lparen 2; ident "A" 2; rparen 2;
   mkToken EQ "==" 2; mkToken TRUE "TRUE" 2].

(** [script Main {] / [if (flag(A) == TRUE && flag(B) == TRUE) { }] / [}]. *)
Definition andCondition : lexer.Lexer :=
  lexer.mkLexer
    (scriptMain ++ mkToken IF "if" 2 :: lparen 2 :: flagA
       ++ [mkToken AND "&&" 2; mkToken FLAG "flag" 2; lparen 2; ident "B" 2;
           rparen 2; mkToken EQ "==" 2; mkToken TRUE "TRUE" 2; rparen 2;
           lbrace 2; rbrace 2; rbrace 3])
    4.

(** [script Main {] / [if (flag(A) == ) { }] / [}]: no comparison value. *)
Definition flagWithoutValue : lexer.Lexer :=
  lexer.mkLexer
    (scriptMain
       ++ [mkToken IF "if" 2; lparen 2; mkToken FLAG "flag" 2; lparen 2;
           ident "A" 2; rparen 2; mkToken EQ "==" 2; rparen 2; lbrace 2;
           rbrace 2; rbrace 3])
    4.

(** [script Main {] / [if (var(A]: the operand is never closed. *)
Definition unclosedOperand : lexer.Lexer :=
  lexer.mkLexer
    (scriptMain
       ++ [mkToken IF "if" 2; lparen 2; mkToken VAR "var" 2; lparen 2;
           ident "A" 2])
    3.

(** [script Main {] / [if (var(A) == 1]: the comparison value is never
    closed. *)
Definition unclosedValue : lexer.Lexer :=
  lexer.mkLexer
    (scriptMain
       ++ [mkToken IF "if" 2; lparen 2; mkToken VAR "var" 2; lparen 2;
           ident "A" 2; rparen 2; mkToken EQ "==" 2; mkToken INT "1" 2])
    3.

(** [script Main {] / [if foo]: no parenthesis after [if]. *)
Definition ifWithoutParenthesis : lexer.Lexer :=
  lexer.mkLexer (scriptMain ++ [mkToken IF "if" 2; ident "foo" 2]) 3.

(** [script Main {] / [foo(1,]: the argument list is never closed; the
    input ends on line 4. *)
Definition unclosedArguments : lexer.Lexer :=
  lexer.mkLexer
    (scriptMain ++ [ident "foo" 2; lparen 2; mkToken INT "1" 2; comma 2])
    4.

End examples.

(** ** Source trees

    The inputs the parser accepts, as trees that carry their tokens: a
    program is a sequence of raw statements and scripts, a block a
    sequence of commands and [if] statements.  A tree is flattened to the
    token sequence it is written as, and mapped to the syntax tree and to
    the implicit texts it stands for. *)
Module source.

Import token parser stream spec.

Inductive Stmt : Set :=
| SCommand (c : CommandTokens)
| SIf (kw : Token) (first : Cond) (elifs : Elifs) (els : Else)
with Stmts : Set :=
| SNil
| SCons (s : Stmt) (rest : Stmts)
with Cond : Set :=
| mkCond (lp kind lp2 : Token) (operand : list Token) (rp op : Token)
    (value : list Token) (rp2 lb : Token) (body : Stmts) (rb : Token)
with Elifs : Set :=
| ENil
| ECons (kw : Token) (c : Cond) (rest : Elifs)
with Else : Set :=
| NoElse
| SomeElse (kw lb : Token) (body : Stmts) (rb : Token).

Scheme Stmt_ind' := Induction for Stmt Sort Prop
with Stmts_ind' := Induction for Stmts Sort Prop
with Cond_ind' := Induction for Cond Sort Prop
with Elifs_ind' := Induction for Elifs Sort Prop
with Else_ind' := Induction for Else Sort Prop.

Combined Scheme source_ind
  from Stmt_ind', Stmts_ind', Cond_ind', Elifs_ind', Else_ind'.

(** The tokens a tree is written as. *)
Fixpoint stmtTokens (s : Stmt) : list Token :=
  match s with
  | SCommand c => commandTokens c
  | SIf kw first elifs els =>
    kw :: condTokens first ++ elifsTokens elifs ++ elseTokens els
  end
with stmtsTokens (ss : Stmts) : list Token :=
  match ss with
  | SNil => []
  | SCons s rest => stmtTokens s ++ stmtsTokens rest
  end
with condTokens (c : Cond) : list Token :=
  match c with
  | mkCond lp kind lp2 operand rp op value rp2 lb body rb =>
    lp :: kind :: lp2 :: operand ++ rp :: op :: value
      ++ rp2 :: lb :: stmtsTokens body ++ [rb]
  end
with elifsTokens (es : Elifs) : list Token :=
  match es with
  | ENil => []
  | ECons kw c rest => kw :: condTokens c ++ elifsTokens rest
  end
with elseTokens (el : Else) : list Token :=
  match el with
  | NoElse => []
  | SomeElse kw lb body rb => kw :: lb :: stmtsTokens body ++ [rb]
  end.

(** The string literals that are arguments of commands, in the order of
    the source.  A string in the operand or in the comparison value of a
    condition is not among them. *)
Fixpoint stmtLiterals (s : Stmt) : list string :=
  match s with
  | SCommand c => stringLiterals (commandBody c)
  | SIf kw first elifs els =>
    condLiterals first ++ elifsLiterals elifs ++ elseLiterals els
  end
with stmtsLiterals (ss : Stmts) : list string :=
  match ss with
  | SNil => []
  | SCons s rest => stmtLiterals s ++ stmtsLiterals rest
  end
with condLiterals (c : Cond) : list string :=
  match c with
  | mkCond _ _ _ _ _ _ _ _ _ body _ => stmtsLiterals body
  end
with elifsLiterals (es : Elifs) : list string :=
  match es with
  | ENil => []
  | ECons _ c rest => condLiterals c ++ elifsLiterals rest
  end
with elseLiterals (el : Else) : list string :=
  match el with
  | NoElse => []
  | SomeElse _ _ body _ => stmtsLiterals body
  end.

(** The comparison value of a condition: the type of the value token for
    a flag, the joined literals of the value tokens for a var. *)
Definition comparisonValue (kind : Token) (value : list Token) : string :=
  if token.eqb (Type_ kind) FLAG then typeString (Type_ (hd kind value))
  else Join (map Literal value).

(** The syntax tree of a source tree when [n] implicit texts exist before
    it.  The token of a block is the first token after its opening brace,
    which is the closing brace when the block is empty. *)
Fixpoint stmtAst (n : nat) (s : Stmt) {struct s} : ast.Statement :=
  match s with
  | SCommand c =>
    ast.Command
      (ast.mkCommandStatement (commandName c)
         (ast.mkIdentifier (commandName c) (Literal (commandName c)))
         (argsOf n (commandBody c)))
  | SIf kw first elifs els =>
    ast.If
      (ast.mkIfStatement kw (condAst n first)
         (elifsAst (n + length (condLiterals first)) elifs)
         (elseAst
            (n + length (condLiterals first)
               + length (elifsLiterals elifs)) els))
  end
with stmtsAst (n : nat) (ss : Stmts) {struct ss} : list ast.Statement :=
  match ss with
  | SNil => []
  | SCons s rest =>
    stmtAst n s :: stmtsAst (n + length (stmtLiterals s)) rest
  end
with condAst (n : nat) (c : Cond) {struct c} : ast.ConditionExpression :=
  match c with
  | mkCond lp kind lp2 operand rp op value rp2 lb body rb =>
    ast.mkConditionExpression (Type_ kind) (Join (map Literal operand))
      (Type_ op) (comparisonValue kind value)
      (Some (ast.mkBlockStatement (hd rb (stmtsTokens body))
               (stmtsAst n body)))
  end
with elifsAst (n : nat) (es : Elifs) {struct es}
    : list ast.ConditionExpression :=
  match es with
  | ENil => []
  | ECons _ c rest =>
    condAst n c :: elifsAst (n + length (condLiterals c)) rest
  end
with elseAst (n : nat) (el : Else) {struct el} : option ast.BlockStatement :=
  match el with
  | NoElse => None
  | SomeElse _ _ body rb =>
    Some (ast.mkBlockStatement (hd rb (stmtsTokens body)) (stmtsAst n body))
  end.

(** The comparison the parser accepts for a kind of test. *)
Definition validComparison (kind op : Token) (value : list Token) : bool :=
  if token.eqb (Type_ kind) FLAG then
    token.eqb (Type_ op) EQ &&
    match value with
    | [v] => token.eqb (Type_ v) TRUE || token.eqb (Type_ v) FALSE
    | _ => false
    end
  else
    isRelational (Type_ op) && (0 <? length value)%nat && noRParen value.

(** Every token of the tree has the type its place asks for. *)
Fixpoint wfStmt (s : Stmt) : bool :=
  match s with
  | SCommand c => closedCommand c
  | SIf kw first elifs els =>
    token.eqb (Type_ kw) IF && wfCond first && wfElifs elifs && wfElse els
  end
with wfStmts (ss : Stmts) : bool :=
  match ss with
  | SNil => true
  | SCons s rest => wfStmt s && wfStmts rest
  end
with wfCond (c : Cond) : bool :=
  match c with
  | mkCond lp kind lp2 operand rp op value rp2 lb body rb =>
    token.eqb (Type_ lp) LPAREN
    && (token.eqb (Type_ kind) VAR || token.eqb (Type_ kind) FLAG)
    && token.eqb (Type_ lp2) LPAREN
    && (0 <? length operand)%nat && noRParen operand
    && token.eqb (Type_ rp) RPAREN
    && validComparison kind op value
    && token.eqb (Type_ rp2) RPAREN && token.eqb (Type_ lb) LBRACE
    && wfStmts body && token.eqb (Type_ rb) RBRACE
  end
with wfElifs (es : Elifs) : bool :=
  match es with
  | ENil => true
  | ECons kw c rest =>
    token.eqb (Type_ kw) ELSEIF && wfCond c && wfElifs rest
  end
with wfElse (el : Else) : bool :=
  match el with
  | NoElse => true
  | SomeElse kw lb body rb =>
    token.eqb (Type_ kw) ELSE && token.eqb (Type_ lb) LBRACE
    && wfStmts body && token.eqb (Type_ rb) RBRACE
  end.

(** The last token of a tree: the parser stands on it when it has read
    the tree. *)
Definition condLast (c : Cond) : Token :=
  match c with
  | mkCond _ _ _ _ _ _ _ _ _ _ rb => rb
  end.

Fixpoint elifsLast (cur : Token) (es : Elifs) : Token :=
  match es with
  | ENil => cur
  | ECons _ c rest => elifsLast (condLast c) rest
  end.

Definition stmtLast (s : Stmt) : Token :=
  match s with
  | SCommand (Bare name) => name
  | SCommand (Call _ _ _ rp) => rp
  | SIf _ first elifs els =>
    match els with
    | NoElse => elifsLast (condLast first) elifs
    | SomeElse _ _ _ rb => rb
    end
  end.

(** The number of statements of a block. *)
Fixpoint stmtsCount (ss : Stmts) : nat :=
  match ss with
  | SNil => 0
  | SCons _ rest => S (stmtsCount rest)
  end.

(** What may follow a statement in a block: a token that continues
    neither a command (an opening parenthesis) nor an [if] statement
    ([elif], [else]). *)
Definition follows (t : Token) : bool :=
  negb (token.eqb (Type_ t) LPAREN) && negb (token.eqb (Type_ t) ELSEIF)
  && negb (token.eqb (Type_ t) ELSE).

(** Top-level statements. *)
Inductive Item : Set :=
| IRaw (kw name value : Token)
| IScript (kw name lb : Token) (body : Stmts) (rb : Token).

Definition itemTokens (i : Item) : list Token :=
  match i with
  | IRaw kw name value => [kw; name; value]
  | IScript kw name lb body rb => kw :: name :: lb :: stmtsTokens body ++ [rb]
  end.

Definition itemLiterals (i : Item) : list string :=
  match i with
  | IRaw _ _ _ => []
  | IScript _ _ _ body _ => stmtsLiterals body
  end.

Definition itemAst (n : nat) (i : Item) : ast.Statement :=
  match i with
  | IRaw kw name value =>
    ast.Raw
      (ast.mkRawStatement kw (token.eqb (Type_ kw) RAWGLOBAL)
         (Some (ast.mkIdentifier name (Literal name))) (Literal value))
  | IScript kw name lb body rb =>
    ast.Script
      (ast.mkScriptStatement kw (ast.mkIdentifier name (Literal name))
         (Some (ast.mkBlockStatement (hd rb (stmtsTokens body))
                  (stmtsAst n body))))
  end.

Definition wfItem (i : Item) : bool :=
  match i with
  | IRaw kw name value =>
    (token.eqb (Type_ kw) RAW || token.eqb (Type_ kw) RAWGLOBAL)
    && token.eqb (Type_ name) IDENT && token.eqb (Type_ value) RAWSTRING
  | IScript kw name lb body rb =>
    token.eqb (Type_ kw) SCRIPT && token.eqb (Type_ name) IDENT
    && token.eqb (Type_ lb) LBRACE && wfStmts body
    && token.eqb (Type_ rb) RBRACE
  end.

Definition itemsTokens (items : list Item) : list Token :=
  flat_map itemTokens items.

Definition itemsLiterals (items : list Item) : list string :=
  flat_map itemLiterals items.

Fixpoint itemsAst (n : nat) (items : list Item) : list ast.Statement :=
  match items with
  | [] => []
  | i :: rest => itemAst n i :: itemsAst (n + length (itemLiterals i)) rest
  end.

End source.

(** ** Where a message comes from

    The tokens a parser has held as current or peeked token on its way
    through a token list, and the messages that carry the line number of
    one of them. *)
Module origin.

Import token parser stream spec.

(** The current and the peeked token of a parser positioned on [ts]. *)
Definition peeked (e : Z) (ts : list Token) : list Token :=
  [hd (eofTok e) ts; hd (eofTok e) (tl ts)].

(** A message of [peekError], or a message [line <n>: ...] whose [n] is
    the line number of a token of [window]. *)
Definition located (window : list Token) (msg : string) : Prop :=
  peekMessage msg \/
  exists t, In t window /\ lineNumbered (LineNumber t) msg.

(** The tokens held by a parser that has gone from the start of [ts0] to
    its position [k]: the [k] tokens passed, the current and the peeked
    one. *)
Definition seen (e : Z) (ts0 : list Token) (k : nat) : list Token :=
  firstn k ts0 ++ peeked e (skipn k ts0).

(** [p'] stands on [ts0] at a position not before [k], and the errors it
    holds beyond [errs] are located in what it has seen. *)
Definition reaches (e : Z) (ts0 : list Token) (k : nat) (errs : list string)
    (p' : Parser) : Prop :=
  exists k' new txts',
    (k <= k')%nat /\
    p' = stateAt e (skipn k' ts0) (errs ++ new) txts' /\
    Forall (located (seen e ts0 k')) new.

End origin.

(** ** Complete syntax trees

    What a consumer of the syntax tree relies on: the top-level statements
    are scripts and raw statements, a block holds commands and [if]
    statements, every script and every condition has its body, and every
    condition holds an operator that its kind admits. *)
Module complete.

Import token parser.
#[local] Open Scope string_scope.

Definition validOperator (kind op : TokenType) (value : string) : bool :=
  match kind with
  | VAR => isRelational op
  | FLAG =>
    token.eqb op EQ && (String.eqb value "TRUE" || String.eqb value "FALSE")
  | _ => false
  end.

Fixpoint statementOk (s : ast.Statement) : bool :=
  match s with
  | ast.Command _ => true
  | ast.If i => ifOk i
  | ast.Script _ | ast.Raw _ => false
  end
with blockOk (b : ast.BlockStatement) : bool :=
  match b with
  | ast.mkBlockStatement _ statements => forallb statementOk statements
  end
with ifOk (i : ast.IfStatement) : bool :=
  match i with
  | ast.mkIfStatement _ consequence elifs els =>
    conditionOk consequence && forallb conditionOk elifs
    && match els with
       | Some b => blockOk b
       | None => true
       end
  end
with conditionOk (c : ast.ConditionExpression) : bool :=
  match c with
  | ast.mkConditionExpression kind _ op value body =>
    validOperator kind op value
    && match body with
       | Some b => blockOk b
       | None => false
       end
  end.

Definition topLevelOk (s : ast.Statement) : bool :=
  match s with
  | ast.Script (ast.mkScriptStatement _ _ (Some b)) => blockOk b
  | ast.Raw r =>
    match ast.Raw_Name r with
    | Some _ => true
    | None => false
    end
  | _ => false
  end.

End complete.

(** ** The methods of [ast/ast.go]

    [TokenLiteral] of the nodes the parser builds, and of the program.  The
    method of the interface [Statement] is dispatched on the type of the
    node. *)
Module node.

Import token.

Definition Identifier_TokenLiteral (i : ast.Identifier) : string :=
  Literal (ast.Identifier_Token i).

Definition ScriptStatement_TokenLiteral (ss : ast.ScriptStatement) : string :=
  let 'ast.mkScriptStatement tok _ _ := ss in Literal tok.

Definition BlockStatement_TokenLiteral (bs : ast.BlockStatement) : string :=
  Literal (ast.Block_Token bs).

Definition CommandStatement_TokenLiteral (cs : ast.CommandStatement)
    : string :=
  Literal (ast.Command_Token cs).

Definition RawStatement_TokenLiteral (rs : ast.RawStatement) : string :=
  Literal (ast.Raw_Token rs).

Definition IfStatement_TokenLiteral (i : ast.IfStatement) : string :=
  let 'ast.mkIfStatement tok _ _ _ := i in Literal tok.

Definition Statement_TokenLiteral (s : ast.Statement) : string :=
  match s with
  | ast.Script ss => ScriptStatement_TokenLiteral ss
  | ast.Command cs => CommandStatement_TokenLiteral cs
  | ast.Raw rs => RawStatement_TokenLiteral rs
  | ast.If i => IfStatement_TokenLiteral i
  end.

Definition Program_TokenLiteral (p : ast.Program) : string :=
  match ast.TopLevelStatements p with
  | s :: _ => Statement_TokenLiteral s
  | [] => EmptyString
  end.

End node.

(** ** Sample sources *)
Module samples.

Import token spec source examples.
#[local] Open Scope string_scope.
#[local] Open Scope Z_scope.

(** [if (flag(A) == TRUE) { msgbox("Yes") } elif (var(B) >= 2) {
    msgbox("Two") } else { end }] on lines 3 to 9. *)
Definition branches : Stmt :=
  SIf (mkToken IF "if" 3)
    (mkCond (lparen 3) (mkToken FLAG "flag" 3) (lparen 3) [ident "A" 3]
       (rparen 3) (mkToken EQ "==" 3) [mkToken TRUE "TRUE" 3] (rparen 3)
       (lbrace 3)
       (SCons
          (SCommand
             (Call (ident "msgbox" 4) (lparen 4) [mkToken STRING "Yes" 4]
                (rparen 4)))
          SNil)
       (rbrace 5))
    (ECons (mkToken ELSEIF "elif" 5)
       (mkCond (lparen 5) (mkToken VAR "var" 5) (lparen 5) [ident "B" 5]
          (rparen 5) (mkToken GTE ">=" 5) [mkToken INT "2" 5] (rparen 5)
          (lbrace 5)
          (SCons
             (SCommand
                (Call (ident "msgbox" 6) (lparen 6) [mkToken STRING "Two" 6]
                   (rparen 6)))
             SNil)
          (rbrace 7))
       ENil)
    (SomeElse (mkToken ELSE "else" 7) (lbrace 7)
       (SCons (SCommand (Bare (ident "end" 8))) SNil) (rbrace 9)).

(** [lock], the [if] statement above and [release]. *)
Definition mainBody : Stmts :=
  SCons (SCommand (Bare (ident "lock" 2)))
    (SCons branches (SCons (SCommand (Bare (ident "release" 10))) SNil)).

(** [script Main { ... }] on lines 1 to 11. *)
Definition mainScript : Item :=
  IScript (mkToken SCRIPT "script" 1) (ident "Main" 1) (lbrace 1) mainBody
    (rbrace 11).

(** [raw Tail `step_end`] on line 12. *)
Definition rawTail : Item :=
  IRaw (mkToken RAW "raw" 12) (ident "Tail" 12)
    (mkToken RAWSTRING "step_end" 12).

(** [script Other { msgbox("Bye") }] on lines 13 to 15. *)
Definition otherScript : Item :=
  IScript (mkToken SCRIPT "script" 13) (ident "Other" 13) (lbrace 13)
    (SCons
       (SCommand
          (Call (ident "msgbox" 14) (lparen 14) [mkToken STRING "Bye" 14]
             (rparen 14)))
       SNil)
    (rbrace 15).

Definition sampleItems : list Item := [mainScript; rawTail; otherScript].

(** The input of the sample, which ends on line 16. *)
Definition sampleLexer : lexer.Lexer :=
  lexer.mkLexer (itemsTokens sampleItems) 16.

(** A command without arguments and a call of [msgbox] with one
    argument. *)
Definition bare (name : string) (line : Z) : ast.Statement :=
  ast.Command
    (ast.mkCommandStatement (ident name line)
       (ast.mkIdentifier (ident name line) name) []).

Definition msgbox (arg : string) (line : Z) : ast.Statement :=
  ast.Command
    (ast.mkCommandStatement (ident "msgbox" line)
       (ast.mkIdentifier (ident "msgbox" line) "msgbox") [arg]).

(** The program the sample stands for. *)
Definition sampleProgram : ast.Program :=
  ast.mkProgram
    [ast.Script
       (ast.mkScriptStatement (mkToken SCRIPT "script" 1)
          (ast.mkIdentifier (ident "Main" 1) "Main")
          (Some
             (ast.mkBlockStatement (ident "lock" 2)
                [bare "lock" 2;
                 ast.If
                   (ast.mkIfStatement (mkToken IF "if" 3)
                      (ast.mkConditionExpression FLAG "A" EQ "TRUE"
                         (Some (ast.mkBlockStatement (ident "msgbox" 4)
                                  [msgbox "Text_0" 4])))
                      [ast.mkConditionExpression VAR "B" GTE "2"
                         (Some (ast.mkBlockStatement (ident "msgbox" 6)
                                  [msgbox "Text_1" 6]))]
                      (Some (ast.mkBlockStatement (ident "end" 8)
                               [bare "end" 8])));
                 bare "release" 10])));
     ast.Raw
       (ast.mkRawStatement (mkToken RAW "raw" 12) false
          (Some (ast.mkIdentifier (ident "Tail" 12) "Tail")) "step_end");
     ast.Script
       (ast.mkScriptStatement (mkToken SCRIPT "script" 13)
          (ast.mkIdentifier (ident "Other" 13) "Other")
          (Some (ast.mkBlockStatement (ident "msgbox" 14)
                   [msgbox "Text_2" 14])))]
    [ast.mkText "Text_0" "Yes" EmptyString false;
     ast.mkText "Text_1" "Two" EmptyString false;
     ast.mkText "Text_2" "Bye" EmptyString false].

End samples.

(** * Properties *)

(** ** Basic facts on the parser state *)
Module facts.

Import token parser stream.

Lemma eqb_eq a b : token.eqb a b = true <-> a = b.
Proof.
  unfold token.eqb. destruct (TokenType_eq_dec a b); split; congruence.
Qed.

Lemma eqb_neq a b : token.eqb a b = false <-> a <> b.
Proof.
  unfold token.eqb. destruct (TokenType_eq_dec a b); split; congruence.
Qed.

Lemma eqb_refl a : token.eqb a a = true.
Proof. apply eqb_eq; reflexivity. Qed.

(** [nextToken] touches neither list and makes the peeked token
    current. *)
Lemma nextToken_errors p : errors (nextToken p) = errors p.
Proof. unfold nextToken. destruct (lexer.NextToken (l p)); reflexivity. Qed.

Lemma nextToken_implicitTexts p :
  implicitTexts (nextToken p) = implicitTexts p.
Proof. unfold nextToken. destruct (lexer.NextToken (l p)); reflexivity. Qed.

Lemma nextToken_curToken p : curToken (nextToken p) = peekToken p.
Proof. unfold nextToken. destruct (lexer.NextToken (l p)); reflexivity. Qed.

(** On a token list [nextToken] drops the head, and stays at the end of
    the input once it is there. *)
Lemma nextToken_cons e t ts errs txts :
  nextToken (stateAt e (t :: ts) errs txts) = stateAt e ts errs txts.
Proof. destruct ts as [|t1 [|t2 ts]]; reflexivity. Qed.

Lemma nextToken_nil e errs txts :
  nextToken (stateAt e [] errs txts) = stateAt e [] errs txts.
Proof. reflexivity. Qed.

Lemma nextToken_set_cons e t ts errs txts v :
  nextToken (setImplicitTexts v (stateAt e (t :: ts) errs txts)) =
  stateAt e ts errs v.
Proof. destruct ts as [|t1 [|t2 ts]]; reflexivity. Qed.

(** [New] positions the parser on the input of the lexer. *)
Lemma New_stateAt lx :
  New lx = stateAt (lexer.eofLine lx) (lexer.input lx) [] [].
Proof. destruct lx as [[|t1 [|t2 ts]] e]; reflexivity. Qed.

Lemma peekTokenIs_at e a b r errs txts t :
  peekTokenIs (stateAt e (a :: b :: r) errs txts) t = token.eqb (Type_ b) t.
Proof. reflexivity. Qed.

Lemma curTokenIs_at e a r errs txts t :
  curTokenIs (stateAt e (a :: r) errs txts) t = token.eqb (Type_ a) t.
Proof. reflexivity. Qed.

Lemma curToken_at e a r errs txts :
  curToken (stateAt e (a :: r) errs txts) = a.
Proof. reflexivity. Qed.

Lemma peekToken_at e a b r errs txts :
  peekToken (stateAt e (a :: b :: r) errs txts) = b.
Proof. reflexivity. Qed.

Lemma addError_at msg e toks errs txts :
  addError msg (stateAt e toks errs txts) =
  stateAt e toks (errs ++ [msg]) txts.
Proof. reflexivity. Qed.

Lemma expectPeek_ok t e a b r errs txts :
  Type_ b = t ->
  expectPeek t (stateAt e (a :: b :: r) errs txts) =
  (true, stateAt e (b :: r) errs txts).
Proof.
  intros H. unfold expectPeek. rewrite peekTokenIs_at, H, eqb_refl.
  rewrite nextToken_cons. reflexivity.
Qed.

Lemma expectPeek_fail t e a b r errs txts :
  Type_ b <> t ->
  expectPeek t (stateAt e (a :: b :: r) errs txts) =
  (false,
   stateAt e (a :: b :: r) (errs ++ [peekErrorMsg t (Type_ b)]) txts).
Proof.
  intros H. unfold expectPeek. rewrite peekTokenIs_at.
  apply eqb_neq in H. rewrite H. reflexivity.
Qed.

(** Read the current and the peeked token off a token list and advance. *)
Ltac at_step :=
  repeat first
    [ rewrite nextToken_cons | rewrite peekTokenIs_at | rewrite curTokenIs_at
    | rewrite curToken_at | rewrite peekToken_at | rewrite addError_at ].

(** Decide the comparisons of two known token types. *)
Ltac eqb_compute :=
  repeat match goal with
  | |- context [token.eqb ?a ?b] =>
    is_constructor a; is_constructor b;
    let v := eval vm_compute in (token.eqb a b) in
    change (token.eqb a b) with v
  end;
  cbn [negb andb orb]; cbv iota.

(** Split the run [H : f p = Some _] of a parsing function along the tests
    and the calls of its body. *)
Ltac crunch H :=
  repeat (
    match type of H with
    | Some _ = Some _ => inversion H; subst; clear H
    | None = Some _ => discriminate H
    | (_, _) = (_, _) => inversion H; subst; clear H
    | context [let (_, _) := ?x in _] => destruct x eqn:?
    | context [match ?x with _ => _ end] => destruct x eqn:?
    | context [if ?x then _ else _] => destruct x eqn:?
    end).

End facts.

(** ** Command statements *)
Module command.

Import token parser stream spec facts.

Lemma extendArgs_sep command argParts ps :
  extendArgs command argParts (None :: ps) =
  extendArgs (appendArg (Join argParts) command) [] ps.
Proof.
  unfold extendArgs, appendArg, append; simpl.
  destruct (splitPieces ps) as [[|g groups] open]; simpl.
  - rewrite app_nil_r. reflexivity.
  - rewrite app_nil_r, <- app_assoc. reflexivity.
Qed.

Lemma extendArgs_part command argParts s ps :
  extendArgs command argParts (Some s :: ps) =
  extendArgs command (append argParts s) ps.
Proof.
  unfold extendArgs, append; simpl.
  destruct (splitPieces ps) as [[|g groups] open]; simpl;
    rewrite <- app_assoc; reflexivity.
Qed.

Lemma stringLiterals_cons_string t ts :
  Type_ t = STRING ->
  stringLiterals (t :: ts) = Literal t :: stringLiterals ts.
Proof. intros H. unfold stringLiterals. simpl. rewrite H. reflexivity. Qed.

Lemma stringLiterals_cons_other t ts :
  Type_ t <> STRING -> stringLiterals (t :: ts) = stringLiterals ts.
Proof.
  intros H. unfold stringLiterals. simpl.
  apply eqb_neq in H. rewrite H. reflexivity.
Qed.

Lemma stringLiterals_app pre post :
  stringLiterals (pre ++ post) = stringLiterals pre ++ stringLiterals post.
Proof. unfold stringLiterals. rewrite filter_app, map_app. reflexivity. Qed.

(** One turn of the loop on a token that is neither the closing
    parenthesis at depth 0 nor the end of input. *)
Ltac loop_turn Hd :=
  cbn [commandArgs]; unfold curTokenIs;
  cbn [curToken stateAt hd Type_ Literal implicitTexts argPieces];
  simpl token.eqb; cbn [andb]; try rewrite Hd;
  rewrite ?nextToken_cons, ?extendArgs_sep, ?extendArgs_part.

(** The loop of [parseCommandStatement] on a closed body: it stops on the
    closing parenthesis that follows the body, having cut the pieces at
    every comma and recorded every string literal. *)
Lemma commandArgs_body body :
  forall e rp rest errs txts command argParts depth fuel,
    Type_ rp = RPAREN ->
    closedBody depth body = true ->
    (length body <= fuel)%nat ->
    commandArgs fuel command argParts depth
      (stateAt e (body ++ rp :: rest) errs txts) =
    Some (Some (extendArgs command argParts (argPieces (length txts) body)),
          stateAt e (rp :: rest) errs (txts ++ stringLiterals body)).
Proof.
  induction body as [|t ts IH]; intros e rp rest errs txts command argParts
    depth fuel Hrp Hbody Hfuel.
  - simpl in Hbody. apply Z.eqb_eq in Hbody. subst depth.
    destruct fuel; simpl; unfold curTokenIs; simpl; rewrite Hrp; simpl;
      unfold extendArgs; simpl; rewrite !app_nil_r; reflexivity.
  - destruct fuel as [|fuel]; [simpl in Hfuel; lia|].
    simpl in Hfuel. apply le_S_n in Hfuel.
    destruct t as [ty lit ln].
    change ((mkToken ty lit ln :: ts) ++ rp :: rest)
      with (mkToken ty lit ln :: (ts ++ rp :: rest)).
    destruct ty; simpl in Hbody; try discriminate;
      try (apply andb_true_iff in Hbody; destruct Hbody as [Hd Hbody];
           apply negb_true_iff in Hd);
      loop_turn Hd;
      try (erewrite IH by eassumption;
           rewrite stringLiterals_cons_other by discriminate; reflexivity).
    (* a string literal *)
    rewrite nextToken_set_cons, (IH e rp rest errs (append txts lit))
      by assumption.
    rewrite stringLiterals_cons_string by reflexivity.
    unfold append at 2 3. rewrite length_app, Nat.add_1_r, <- app_assoc.
    reflexivity.
Qed.

(** [parseCommandStatement] on a command with a closed argument list. *)
Lemma parseCommandStatement_closed name lp body rp rest e errs txts fuel :
  Type_ lp = LPAREN ->
  Type_ rp = RPAREN ->
  closedBody 0 body = true ->
  (length body <= fuel)%nat ->
  parseCommandStatement fuel
    (stateAt e (name :: lp :: body ++ rp :: rest) errs txts) =
  Some (Some (ast.mkCommandStatement name
                (ast.mkIdentifier name (Literal name))
                (argsOf (length txts) body)),
        stateAt e (rp :: rest) errs (txts ++ stringLiterals body)).
Proof.
  intros Hlp Hrp Hbody Hfuel. unfold parseCommandStatement, peekTokenIs.
  cbn [peekToken curToken stateAt hd tl]. rewrite Hlp. simpl token.eqb.
  cbv iota. rewrite !nextToken_cons.
  rewrite commandArgs_body by assumption.
  unfold extendArgs, argsOf, argsOfPieces, appendArg, append.
  destruct (splitPieces (argPieces (length txts) body))
    as [[|g groups] [|s open]]; cbn; rewrite ?app_nil_r; reflexivity.
Qed.

(** [parseCommandStatement] on a name that no parenthesis follows. *)
Lemma parseCommandStatement_bare fuel p :
  Type_ (peekToken p) <> LPAREN ->
  parseCommandStatement fuel p =
  Some (Some (ast.mkCommandStatement (curToken p)
                (ast.mkIdentifier (curToken p) (Literal (curToken p))) []),
        p).
Proof.
  intros H. unfold parseCommandStatement, peekTokenIs.
  apply eqb_neq in H. rewrite H. reflexivity.
Qed.

(** A comma is a separator wherever it stands. *)
Lemma argPieces_comma pre c post :
  Type_ c = COMMA ->
  forall n, nth_error (argPieces n (pre ++ c :: post)) (length pre) = Some None.
Proof.
  intros Hc. induction pre as [|t pre IH]; intros n; simpl.
  - rewrite Hc. reflexivity.
  - destruct (Type_ t); simpl; apply IH.
Qed.

(** The label a string literal gets is the index its value has in the
    implicit-text list. *)
Lemma argPieces_label pre s post n :
  Type_ s = STRING ->
  nth_error (argPieces n (pre ++ s :: post)) (length pre) =
  Some (Some (getImplicitTextLabel
                (Z.of_nat (n + length (stringLiterals pre))))).
Proof.
  intros Hs. revert n.
  induction pre as [|t pre IH]; intros n.
  - simpl. rewrite Hs. rewrite Nat.add_0_r. reflexivity.
  - destruct (TokenType_eq_dec (Type_ t) STRING) as [E|E].
    + rewrite stringLiterals_cons_string by assumption.
      simpl. rewrite E. simpl. rewrite IH. do 4 f_equal. lia.
    + rewrite stringLiterals_cons_other by assumption.
      simpl. destruct (Type_ t); try contradiction; simpl; apply IH.
Qed.

Lemma stringLiterals_position txts pre s post :
  Type_ s = STRING ->
  nth_error (txts ++ stringLiterals (pre ++ s :: post))
    (length txts + length (stringLiterals pre)) = Some (Literal s).
Proof.
  intros Hs.
  rewrite stringLiterals_app, stringLiterals_cons_string by assumption.
  rewrite app_assoc, nth_error_app2; rewrite length_app; [|lia].
  rewrite Nat.sub_diag. reflexivity.
Qed.

(** Labels are told apart by their index. *)
Lemma fmt_d_inj i j : fmt_d i = fmt_d j -> i = j.
Proof.
  assert (G : forall d,
    option_map Z.of_int (NilZero.int_of_string (NilZero.string_of_int d))
    = Some (Z.of_int d)).
  { intros d.
    destruct (Decimal.signed_int_eq_dec d (Decimal.Pos Decimal.Nil))
      as [->|H1]; [reflexivity|].
    destruct (Decimal.signed_int_eq_dec d (Decimal.Neg Decimal.Nil))
      as [->|H2]; [reflexivity|].
    rewrite NilZero.isi by assumption. reflexivity. }
  unfold fmt_d. intros H.
  pose proof (G (Z.to_int i)) as Gi. pose proof (G (Z.to_int j)) as Gj.
  rewrite H, Gj in Gi. rewrite !DecimalZ.of_to in Gi. congruence.
Qed.

Lemma getImplicitTextLabel_inj i j :
  getImplicitTextLabel i = getImplicitTextLabel j -> i = j.
Proof.
  unfold getImplicitTextLabel. intros H. simpl in H. inversion H.
  apply fmt_d_inj. assumption.
Qed.

End command.

(** ** The parser only appends to its two lists *)
Module frame.

Import token parser stream spec facts.

Lemma extends_refl p : extends p p.
Proof.
  split; [exists []|exists []]; rewrite app_nil_r; auto.
Qed.

Lemma extends_trans p q r : extends p q -> extends q r -> extends p r.
Proof.
  intros [[e1 [He1 Hd1]] [t1 Ht1]] [[e2 [He2 Hd2]] [t2 Ht2]]. split.
  - exists (e1 ++ e2). rewrite He2, He1, app_assoc. split; auto.
    apply Forall_app; auto.
  - exists (t1 ++ t2). rewrite Ht2, Ht1, app_assoc. reflexivity.
Qed.

Lemma extends_nextToken p q : extends p q -> extends p (nextToken q).
Proof.
  intros H. apply (extends_trans p q); [exact H|].
  split; [exists []|exists []];
    rewrite ?nextToken_errors, ?nextToken_implicitTexts, app_nil_r; auto.
Qed.

Lemma extends_addError msg p q :
  diagnostic msg -> extends p q -> extends p (addError msg q).
Proof.
  intros Hm H. apply (extends_trans p q); [exact H|].
  split; [exists [msg]|exists []]; simpl; rewrite ?app_nil_r; auto.
Qed.

Lemma extends_text v p q :
  extends p q -> extends p (setImplicitTexts (append (implicitTexts q) v) q).
Proof.
  intros H. apply (extends_trans p q); [exact H|].
  split; [exists []|exists [v]]; simpl; rewrite ?app_nil_r; auto.
Qed.

Lemma extends_expectPeek t p ok p' :
  expectPeek t p = (ok, p') -> extends p p'.
Proof.
  unfold expectPeek. destruct (peekTokenIs p t); intros H; inversion H; subst.
  - apply extends_nextToken, extends_refl.
  - apply extends_addError; [|apply extends_refl].
    right. eexists _, _. reflexivity.
Qed.

(** Follow the steps that lead from a parser to a later one. *)
Ltac frame :=
  lazymatch goal with
  | |- extends ?p ?p => apply extends_refl
  | |- extends _ (nextToken _) => apply extends_nextToken; frame
  | |- extends _ (addError _ _) =>
    apply extends_addError; [left; eexists _, _; reflexivity|frame]
  | |- extends _ (setImplicitTexts _ _) => apply extends_text; frame
  | H : extends ?q ?p' |- extends _ ?p' =>
    apply (extends_trans _ q _); [frame|exact H]
  | H : expectPeek _ ?q = (_, ?p') |- extends _ ?p' =>
    apply (extends_trans _ q _); [frame|eapply extends_expectPeek; exact H]
  end.

Lemma frames_commandArgs fuel :
  forall command argParts depth,
    frames (commandArgs fuel command argParts depth).
Proof.
  induction fuel as [|fuel IH]; intros command argParts depth p r p' H;
    simpl in H.
  - destruct (curTokenIs p RPAREN && (depth =? 0)%Z); inversion H; subst.
    frame.
  - destruct (curTokenIs p RPAREN && (depth =? 0)%Z);
      [inversion H; subst; frame|].
    destruct (curTokenIs p EOF).
    + inversion H; subst. frame.
    + destruct (Type_ (curToken p)); apply IH in H; frame.
Qed.

Lemma frames_parseCommandStatement fuel : frames (parseCommandStatement fuel).
Proof.
  intros p r p' H. unfold parseCommandStatement in H.
  destruct (peekTokenIs p LPAREN); [|inversion H; subst; frame].
  destruct (commandArgs _ _ _ _ _) as [[[[c parts]|] p2]|] eqn:E;
    try discriminate; apply frames_commandArgs in E.
  - destruct (0 <? length parts)%nat; inversion H; subst; frame.
  - inversion H; subst; frame.
Qed.

Lemma frames_collectParts fuel : forall parts, frames (collectParts fuel parts).
Proof.
  induction fuel as [|fuel IH]; intros parts p r p' H; simpl in H; crunch H;
    try frame.
  apply IH in H. frame.
Qed.

Lemma frames_parseIfVarOperator fuel e : frames (parseIfVarOperator fuel e).
Proof.
  intros p r p' H. unfold parseIfVarOperator in H. crunch H;
    repeat match goal with
    | E : collectParts _ _ _ = Some _ |- _ => apply frames_collectParts in E
    end; frame.
Qed.

Lemma frames_parseIfFlagOperator e p r p' :
  parseIfFlagOperator e p = (r, p') -> extends p p'.
Proof.
  intros H. unfold parseIfFlagOperator in H. crunch H; frame.
Qed.

Lemma frames_parseRawStatement p r p' :
  parseRawStatement p = (r, p') -> extends p p'.
Proof.
  intros H. unfold parseRawStatement in H. crunch H; frame.
Qed.

(** Turn the calls met in a run into steps. *)
Ltac use_frames :=
  repeat match goal with
  | IH : frames ?f, E : ?f ?q = Some (_, ?q') |- _ => apply IH in E
  | IH : forall x, frames (?f x), E : ?f ?a ?q = Some (_, ?q') |- _ =>
    apply IH in E
  | E : parseCommandStatement _ _ = Some _ |- _ =>
    apply frames_parseCommandStatement in E
  | E : collectParts _ _ _ = Some _ |- _ => apply frames_collectParts in E
  | E : parseIfVarOperator _ _ _ = Some _ |- _ =>
    apply frames_parseIfVarOperator in E
  | E : parseIfFlagOperator _ _ = _ |- _ =>
    apply frames_parseIfFlagOperator in E
  | E : parseRawStatement _ = _ |- _ => apply frames_parseRawStatement in E
  end.

(** The mutually recursive functions, by induction on the fuel. *)
Lemma frames_mutual fuel :
  frames (parseBlockStatement fuel) /\
  (forall block, frames (blockLoop fuel block)) /\
  frames (parseStatement fuel) /\
  frames (parseIfStatement fuel) /\
  (forall elifs, frames (elifLoop fuel elifs)) /\
  (forall lineNumber, frames (parseIfConditionExpression fuel lineNumber)).
Proof.
  induction fuel
    as [|fuel (IHblock & IHloop & IHstmt & IHif & IHelif & IHcond)].
  - refine (conj _ (conj _ (conj _ (conj _ (conj _ _))))); unfold frames;
      intros;
      match goal with H : _ = Some _ |- _ => cbn in H; crunch H end; frame.
  - refine (conj _ (conj _ (conj _ (conj _ (conj _ _))))); unfold frames;
      intros;
      match goal with H : _ = Some _ |- _ => cbn in H; crunch H end;
      repeat match goal with
      | E : (if _ then _ else _) = Some _ |- _ => crunch E
      end;
      use_frames; frame.
Qed.

Lemma frames_parseBlockStatement fuel : frames (parseBlockStatement fuel).
Proof. apply frames_mutual. Qed.

Lemma frames_parseStatement fuel : frames (parseStatement fuel).
Proof. apply frames_mutual. Qed.

Lemma frames_parseScriptStatement fuel : frames (parseScriptStatement fuel).
Proof.
  intros p r p' H. unfold parseScriptStatement in H. crunch H;
    try match goal with
    | E : parseBlockStatement _ _ = Some _ |- _ =>
      apply frames_parseBlockStatement in E
    end; frame.
Qed.

Lemma frames_parseTopLevelStatement fuel :
  frames (parseTopLevelStatement fuel).
Proof.
  intros p r p' H. unfold parseTopLevelStatement in H. crunch H;
    try match goal with
    | E : parseScriptStatement _ _ = Some _ |- _ =>
      apply frames_parseScriptStatement in E
    end; use_frames; frame.
Qed.

Lemma frames_programLoop fuel :
  forall program, frames (programLoop fuel program).
Proof.
  induction fuel as [|fuel IH]; intros program p r p' H; simpl in H.
  - crunch H. frame.
  - crunch H; try frame.
    all: match goal with
    | E : parseTopLevelStatement _ _ = Some _ |- _ =>
      apply frames_parseTopLevelStatement in E
    end; try apply IH in H; frame.
Qed.

(** An entry of the implicit-text list keeps its index and its value. *)
Lemma keeps_entry p p' n (v : string) :
  extends p p' ->
  nth_error (implicitTexts p) n = Some v ->
  nth_error (implicitTexts p') n = Some v.
Proof.
  intros [_ [txts ->]] H. rewrite nth_error_app1; [exact H|].
  apply nth_error_Some. congruence.
Qed.

Lemma lineNumbered_head n msg :
  lineNumbered n msg -> String.prefix "line " msg = true.
Proof.
  intros [rest ->]. cbn.
  destruct (fmt_d n ++ String ":" (String " " rest))%string; reflexivity.
Qed.

End frame.

(** ** The top-level driver *)
Module program.

Import token parser stream spec facts frame command.

Lemma appendImplicitTexts_labelled texts :
  forall i program,
    appendImplicitTexts (Z.of_nat i) texts program =
    ast.mkProgram (ast.TopLevelStatements program)
      (ast.Texts program ++ labelled i texts).
Proof.
  induction texts as [|text rest IH]; intros i program; simpl.
  - rewrite app_nil_r. destruct program; reflexivity.
  - replace (Z.of_nat i + 1)%Z with (Z.of_nat (S i)) by lia.
    rewrite IH. unfold append. simpl. rewrite <- app_assoc. reflexivity.
Qed.

Lemma labelled_nth texts :
  forall i k,
    nth_error (labelled i texts) k =
    option_map
      (fun v => ast.mkText (getImplicitTextLabel (Z.of_nat (i + k))) v
                  EmptyString false)
      (nth_error texts k).
Proof.
  induction texts as [|text rest IH]; intros i [|k]; simpl; try reflexivity.
  - rewrite Nat.add_0_r. reflexivity.
  - rewrite IH. replace (S i + k)%nat with (i + S k)%nat by lia. reflexivity.
Qed.

(** The loop of [ParseProgram] leaves the texts of the program alone. *)
Lemma programLoop_Texts fuel :
  forall program p r p',
    programLoop fuel program p = Some (Some r, p') ->
    ast.Texts r = ast.Texts program.
Proof.
  induction fuel as [|fuel IH]; intros program p r p' H; simpl in H.
  - crunch H. reflexivity.
  - destruct (negb (curTokenIs p EOF)); [|crunch H; reflexivity].
    destruct (parseTopLevelStatement fuel p) as [[statement p1]|];
      [|discriminate].
    destruct (0 <? length (errors p1))%nat; [discriminate|].
    apply IH in H. destruct statement; exact H.
Qed.

Lemma ParseProgram_Texts fuel p program p' :
  ParseProgram fuel p = Some (Some program, p') ->
  ast.Texts program = labelled 0 (implicitTexts p').
Proof.
  unfold ParseProgram. intros H.
  destruct (programLoop fuel _ _) as [[[r|] p1]|] eqn:E; try discriminate.
  inversion H; subst. apply programLoop_Texts in E.
  rewrite (appendImplicitTexts_labelled _ 0). simpl. rewrite E. reflexivity.
Qed.

(** Entered without errors, the loop returns nil exactly when it leaves
    errors. *)
Lemma programLoop_errors fuel :
  forall program p r p',
    errors p = [] ->
    programLoop fuel program p = Some (r, p') ->
    (r = None <-> errors p' <> []).
Proof.
  induction fuel as [|fuel IH]; intros program p r p' Hp H; simpl in H.
  - crunch H. rewrite Hp. split; [discriminate|congruence].
  - destruct (negb (curTokenIs p EOF));
      [|crunch H; rewrite Hp; split; [discriminate|congruence]].
    destruct (parseTopLevelStatement fuel p) as [[statement p1]|];
      [|discriminate].
    destruct (errors p1) as [|m ms] eqn:E; simpl in H.
    + apply IH in H; [exact H|]. rewrite nextToken_errors. exact E.
    + inversion H; subst. rewrite E. split; [discriminate|reflexivity].
Qed.

Lemma ParseProgram_errors fuel p r p' :
  errors p = [] ->
  ParseProgram fuel p = Some (r, p') ->
  (r = None <-> errors p' <> []).
Proof.
  unfold ParseProgram. intros Hp H.
  destruct (programLoop fuel _ _) as [[[program|] p1]|] eqn:E;
    try discriminate; inversion H; subst;
    apply programLoop_errors in E; try exact Hp.
  - destruct E as [E1 E2]. split; [discriminate|].
    intros E. apply E2 in E. discriminate.
  - exact E.
Qed.

Lemma ParseProgram_diagnostics fuel p r p' :
  ParseProgram fuel p = Some (r, p') ->
  exists errs, errors p' = errors p ++ errs /\ Forall diagnostic errs.
Proof.
  unfold ParseProgram. intros H.
  destruct (programLoop fuel _ _) as [[[program|] p1]|] eqn:E;
    try discriminate; inversion H; subst;
    apply frames_programLoop in E; destruct E as [E _]; exact E.
Qed.

(** *** Scripts made of commands *)

Lemma blockLoop_turn fuel block p :
  curTokenIs p RBRACE = false ->
  curTokenIs p EOF = false ->
  blockLoop (S fuel) block p =
  match parseStatement fuel p with
  | None => None
  | Some (None, p1) => Some (None, p1)
  | Some (Some statement, p1) =>
    blockLoop fuel (appendStatement statement block) (nextToken p1)
  end.
Proof. intros H1 H2. cbn [blockLoop]. rewrite H1, H2. reflexivity. Qed.

Lemma blockLoop_exit fuel block p :
  curTokenIs p RBRACE = true -> blockLoop fuel block p = Some (Some block, p).
Proof. intros H. destruct fuel; cbn [blockLoop]; rewrite H; reflexivity. Qed.

Lemma parseStatement_command fuel p :
  Type_ (curToken p) = IDENT ->
  parseStatement (S fuel) p =
  match parseCommandStatement fuel p with
  | None => None
  | Some (None, p1) => Some (None, p1)
  | Some (Some statement, p1) => Some (Some (ast.Command statement), p1)
  end.
Proof. intros H. cbn [parseStatement]. rewrite H. reflexivity. Qed.

(** What follows a command in a block of commands is a name or the closing
    brace, never an opening parenthesis. *)
Lemma next_not_LPAREN cs rb rest e :
  forallb closedCommand cs = true -> Type_ rb = RBRACE ->
  Type_ (hd (eofTok e) (flat_map commandTokens cs ++ rb :: rest)) <> LPAREN.
Proof.
  intros Hcs Hrb. destruct cs as [|[name|name lp body rp] cs]; simpl in *.
  - rewrite Hrb. discriminate.
  - apply andb_true_iff in Hcs. destruct Hcs as [Hn _].
    apply eqb_eq in Hn. rewrite Hn. discriminate.
  - rewrite !andb_true_iff in Hcs. destruct Hcs as [[[[Hn _] _] _] _].
    apply eqb_eq in Hn. rewrite Hn. discriminate.
Qed.

Lemma blockLoop_commands cs :
  forall fuel block rb rest e errs txts,
    forallb closedCommand cs = true ->
    Type_ rb = RBRACE ->
    (length (flat_map commandTokens cs) + 1 <= fuel)%nat ->
    blockLoop fuel block
      (stateAt e (flat_map commandTokens cs ++ rb :: rest) errs txts) =
    Some (Some (ast.mkBlockStatement (ast.Block_Token block)
                  (ast.Statements block
                     ++ commandStatements (length txts) cs)),
          stateAt e (rb :: rest) errs (txts ++ commandLiterals cs)).
Proof.
  induction cs as [|c cs IH]; intros fuel block rb rest e errs txts Hcs Hrb
    Hfuel.
  - simpl. rewrite blockLoop_exit by (rewrite curTokenIs_at, Hrb; reflexivity).
    rewrite !app_nil_r. destruct block; reflexivity.
  - simpl in Hcs. apply andb_true_iff in Hcs. destruct Hcs as [Hc Hcs].
    cbn [flat_map] in *. rewrite length_app in Hfuel.
    rewrite <- app_assoc.
    destruct c as [name|name lp body rp]; cbn [commandTokens app length] in *.
    + apply eqb_eq in Hc.
      destruct fuel as [|[|fuel]]; try lia.
      rewrite blockLoop_turn by (rewrite curTokenIs_at, Hc; reflexivity).
      rewrite parseStatement_command by (rewrite curToken_at; exact Hc).
      rewrite parseCommandStatement_bare.
      * rewrite nextToken_cons, curToken_at.
        rewrite IH by (try assumption; lia).
        unfold appendStatement, append.
        cbn [ast.Block_Token ast.Statements commandStatements commandLiterals
             flat_map commandName commandBody stringLiterals filter map
             length app].
        rewrite <- !app_assoc, Nat.add_0_r. reflexivity.
      * cbn [peekToken stateAt tl]. apply next_not_LPAREN; assumption.
    + cbn [closedCommand] in Hc. rewrite !andb_true_iff, !eqb_eq in Hc.
      destruct Hc as [[[Hn Hlp] Hrp] Hbody].
      rewrite length_app in Hfuel. cbn [length] in Hfuel.
      destruct fuel as [|[|fuel]]; try lia.
      rewrite <- app_assoc. cbn [app].
      rewrite blockLoop_turn by (rewrite curTokenIs_at, Hn; reflexivity).
      rewrite parseStatement_command by (rewrite curToken_at; exact Hn).
      rewrite parseCommandStatement_closed by (try assumption; lia).
      rewrite nextToken_cons.
      rewrite IH by (try assumption; lia).
      unfold appendStatement, append.
      cbn [ast.Block_Token ast.Statements commandStatements commandLiterals
           flat_map commandName commandBody].
      rewrite <- !app_assoc, length_app. reflexivity.
Qed.

Lemma programLoop_turn fuel program p :
  curTokenIs p EOF = false ->
  programLoop (S fuel) program p =
  match parseTopLevelStatement fuel p with
  | None => None
  | Some (statement, p1) =>
    if (0 <? length (errors p1))%nat then Some (None, p1)
    else
      programLoop fuel
        match statement with
        | Some s => appendTopLevel s program
        | None => program
        end (nextToken p1)
  end.
Proof. intros H. cbn [programLoop]. rewrite H. reflexivity. Qed.

Lemma programLoop_exit fuel program p :
  curTokenIs p EOF = true ->
  programLoop fuel program p = Some (Some program, p).
Proof. intros H. destruct fuel; cbn [programLoop]; rewrite H; reflexivity. Qed.

Lemma parseScriptStatement_at fuel script name lb rest e errs txts :
  Type_ name = IDENT -> Type_ lb = LBRACE ->
  parseScriptStatement fuel (stateAt e (script :: name :: lb :: rest) errs txts) =
  match parseBlockStatement fuel (stateAt e rest errs txts) with
  | None => None
  | Some (body, p4) =>
    Some (Some (ast.mkScriptStatement script
                  (ast.mkIdentifier name (Literal name)) body), p4)
  end.
Proof.
  intros Hn Hlb. unfold parseScriptStatement.
  rewrite expectPeek_ok by assumption. cbn [negb]. cbv iota.
  rewrite expectPeek_ok by assumption. cbn [negb]. cbv iota.
  at_step. reflexivity.
Qed.

Lemma ParseProgram_straight_line script name lb cs rb e fuel :
  Type_ script = SCRIPT -> Type_ name = IDENT -> Type_ lb = LBRACE ->
  Type_ rb = RBRACE ->
  forallb closedCommand cs = true ->
  (length (flat_map commandTokens cs) + 3 <= fuel)%nat ->
  ParseProgram fuel
    (New (lexer.mkLexer (straightLineScript script name lb cs rb) e)) =
  Some (Some (ast.mkProgram
                [ast.Script
                   (ast.mkScriptStatement script
                      (ast.mkIdentifier name (Literal name))
                      (Some (ast.mkBlockStatement
                               (hd rb (flat_map commandTokens cs))
                               (commandStatements 0 cs))))]
                (labelled 0 (commandLiterals cs))),
        stateAt e [] [] (commandLiterals cs)).
Proof.
  intros Hs Hn Hlb Hrb Hcs Hfuel.
  destruct fuel as [|[|fuel]]; try lia.
  rewrite New_stateAt. unfold ParseProgram, straightLineScript.
  cbn [lexer.eofLine lexer.input].
  match goal with
  | |- context [setImplicitTexts [] (stateAt e ?x [] [])] =>
    change (setImplicitTexts [] (stateAt e x [] [])) with (stateAt e x [] [])
  end.
  rewrite programLoop_turn by (rewrite curTokenIs_at, Hs; reflexivity).
  unfold parseTopLevelStatement. rewrite curToken_at, Hs.
  rewrite parseScriptStatement_at by assumption.
  cbn [parseBlockStatement].
  replace (curToken (stateAt e (flat_map commandTokens cs ++ [rb]) [] []))
    with (hd rb (flat_map commandTokens cs))
    by (destruct (flat_map commandTokens cs); reflexivity).
  rewrite blockLoop_commands by (try assumption; lia).
  cbn [ast.Block_Token ast.Statements app length errors stateAt Nat.ltb
       Nat.leb].
  rewrite nextToken_cons, programLoop_exit by reflexivity.
  cbn [implicitTexts stateAt].
  rewrite (appendImplicitTexts_labelled _ 0%nat). reflexivity.
Qed.

End program.

(** ** Conditions of [if] and [elif] *)
Module condition.

Import token parser stream spec facts frame examples.
#[local] Open Scope string_scope.

(** *** The loop that reads up to a closing parenthesis *)

Lemma noRParen_head o os :
  noRParen (o :: os) = true -> token.eqb (Type_ o) RPAREN = false.
Proof.
  simpl. intros H. apply andb_true_iff in H. destruct H as [H _].
  apply negb_true_iff in H. exact H.
Qed.

Lemma noRParen_tail o os : noRParen (o :: os) = true -> noRParen os = true.
Proof. simpl. intros H. apply andb_true_iff in H. apply H. Qed.

(** With a closing parenthesis ahead and fuel for the tokens before it,
    the loop collects these tokens and stops on the parenthesis. *)
Lemma collectParts_until toks :
  forall e rp rest errs txts parts fuel,
    Type_ rp = RPAREN ->
    noRParen toks = true ->
    (length toks <= fuel)%nat ->
    collectParts fuel parts (stateAt e (toks ++ rp :: rest) errs txts) =
    Some ((parts ++ map Literal toks)%list, stateAt e (rp :: rest) errs txts).
Proof.
  induction toks as [|t ts IH]; intros e rp rest errs txts parts fuel Hrp Hno
    Hfuel.
  - destruct fuel; simpl; rewrite curTokenIs_at, Hrp; simpl;
      rewrite app_nil_r; reflexivity.
  - destruct fuel as [|fuel]; [simpl in Hfuel; lia|].
    simpl in Hfuel. apply le_S_n in Hfuel.
    change ((t :: ts) ++ rp :: rest)%list with (t :: (ts ++ rp :: rest))%list.
    cbn [collectParts]. at_step. rewrite (noRParen_head _ _ Hno).
    rewrite IH by eauto using noRParen_tail.
    unfold append. rewrite <- app_assoc. reflexivity.
Qed.

(** With no closing parenthesis left in the input, the loop does not end:
    at the end of the input [nextToken] delivers the end-of-input token
    again and again. *)
Lemma collectParts_eof fuel :
  forall e errs txts parts,
    collectParts fuel parts (stateAt e [] errs txts) = None.
Proof.
  induction fuel as [|fuel IH]; intros e errs txts parts; simpl.
  - reflexivity.
  - rewrite nextToken_nil. apply IH.
Qed.

Lemma collectParts_open fuel :
  forall toks e errs txts parts,
    noRParen toks = true ->
    collectParts fuel parts (stateAt e toks errs txts) = None.
Proof.
  induction fuel as [|fuel IH]; intros toks e errs txts parts Hno.
  - destruct toks as [|t ts]; [reflexivity|].
    simpl. rewrite curTokenIs_at, (noRParen_head _ _ Hno). reflexivity.
  - destruct toks as [|t ts]; [apply collectParts_eof|].
    cbn [collectParts]. at_step. rewrite (noRParen_head _ _ Hno).
    apply IH. eauto using noRParen_tail.
Qed.

(** *** The operator functions *)

Lemma var_bad_operator fuel expression p :
  isRelational (Type_ (curToken p)) = false ->
  parseIfVarOperator fuel expression p =
  Some ((false, expression), addError (invalidOperatorMsg (curToken p)) p).
Proof. intros H. unfold parseIfVarOperator. rewrite H. reflexivity. Qed.

Lemma var_success fuel expression p expression' p' :
  parseIfVarOperator fuel expression p = Some ((true, expression'), p') ->
  isRelational (Type_ (curToken p)) = true /\
  ast.Operator expression' = Type_ (curToken p) /\
  ast.Type_ expression' = ast.Type_ expression.
Proof.
  unfold parseIfVarOperator. intros H.
  destruct (isRelational (Type_ (curToken p))); [|discriminate].
  crunch H. destruct expression; auto.
Qed.

(** The operator of a var test on a token list: the value runs up to the
    next closing parenthesis, and an opening brace must follow it. *)
Lemma var_operator_at fuel expression op v vs rp2 x rest e errs txts :
  isRelational (Type_ op) = true -> noRParen (v :: vs) = true ->
  Type_ rp2 = RPAREN -> (length (v :: vs) <= fuel)%nat ->
  parseIfVarOperator fuel expression
    (stateAt e (op :: (v :: vs) ++ rp2 :: x :: rest) errs txts) =
  if token.eqb (Type_ x) LBRACE then
    Some ((true,
           ast.setComparisonValue (Join (map Literal (v :: vs)))
             (ast.setOperator (Type_ op) expression)),
          stateAt e rest errs txts)
  else
    Some ((false, ast.setOperator (Type_ op) expression),
          stateAt e (rp2 :: x :: rest)
            (errs ++ [peekErrorMsg LBRACE (Type_ x)]) txts).
Proof.
  intros Hop Hno Hrp2 Hfuel. unfold parseIfVarOperator. at_step.
  rewrite Hop. cbn [negb]. cbv iota.
  change ((v :: vs) ++ rp2 :: x :: rest)%list
    with (v :: (vs ++ rp2 :: x :: rest))%list.
  at_step. rewrite (noRParen_head _ _ Hno).
  change (v :: (vs ++ rp2 :: x :: rest))%list
    with ((v :: vs) ++ rp2 :: x :: rest)%list.
  rewrite collectParts_until by assumption. cbn [app].
  destruct (token.eqb (Type_ x) LBRACE) eqn:E.
  - apply eqb_eq in E. rewrite expectPeek_ok by assumption.
    at_step. reflexivity.
  - apply eqb_neq in E. rewrite expectPeek_fail by assumption. reflexivity.
Qed.

Lemma var_operator_open fuel expression op t ts e errs txts :
  isRelational (Type_ op) = true ->
  noRParen (t :: ts) = true ->
  parseIfVarOperator fuel expression (stateAt e (op :: t :: ts) errs txts) =
  None.
Proof.
  intros Hop Hno. unfold parseIfVarOperator. at_step. rewrite Hop.
  cbn [negb]. cbv iota. at_step. rewrite (noRParen_head _ _ Hno).
  rewrite collectParts_open by assumption. reflexivity.
Qed.

Lemma flag_bad_operator expression p :
  Type_ (curToken p) <> EQ ->
  parseIfFlagOperator expression p =
  ((false, expression), addError (onlyEqMsg (curToken p)) p).
Proof.
  intros H. unfold parseIfFlagOperator, curTokenIs.
  apply eqb_neq in H. rewrite H. reflexivity.
Qed.

Lemma flag_missing_value expression p :
  Type_ (curToken p) = EQ ->
  Type_ (peekToken p) = RPAREN ->
  parseIfFlagOperator expression p =
  ((false, ast.setOperator EQ expression),
   addError (missingValueMsg (peekToken p)) (nextToken p)).
Proof.
  intros H1 H2. unfold parseIfFlagOperator, curTokenIs.
  rewrite nextToken_curToken, H1, H2. reflexivity.
Qed.

Lemma flag_bad_value expression p :
  Type_ (curToken p) = EQ ->
  Type_ (peekToken p) <> RPAREN ->
  Type_ (peekToken p) <> TRUE ->
  Type_ (peekToken p) <> FALSE ->
  parseIfFlagOperator expression p =
  ((false, ast.setOperator EQ expression),
   addError (onlyTrueFalseMsg (peekToken p)) (nextToken p)).
Proof.
  intros H1 H2 H3 H4. unfold parseIfFlagOperator, curTokenIs.
  rewrite nextToken_curToken, H1.
  apply eqb_neq in H2, H3, H4. rewrite H2, H3, H4. reflexivity.
Qed.

Lemma flag_success expression p expression' p' :
  parseIfFlagOperator expression p = ((true, expression'), p') ->
  Type_ (curToken p) = EQ /\
  (Type_ (peekToken p) = TRUE \/ Type_ (peekToken p) = FALSE) /\
  expression' =
    ast.setComparisonValue (typeString (Type_ (peekToken p)))
      (ast.setOperator EQ expression).
Proof.
  unfold parseIfFlagOperator, curTokenIs. rewrite nextToken_curToken.
  intros H.
  destruct (token.eqb (Type_ (curToken p)) EQ) eqn:E1; [|discriminate].
  apply eqb_eq in E1. rewrite E1 in H. simpl negb in H. cbv iota in H.
  destruct (token.eqb (Type_ (peekToken p)) RPAREN); [discriminate|].
  destruct (token.eqb (Type_ (peekToken p)) TRUE) eqn:E2;
    destruct (token.eqb (Type_ (peekToken p)) FALSE) eqn:E3;
    simpl in H; try discriminate;
    crunch H; apply eqb_eq in E2 || apply eqb_eq in E3; auto.
Qed.

(** The operator of a flag test on a token list: [== TRUE|FALSE] and then
    a closing parenthesis and an opening brace. *)
Lemma flag_operator_at expression eq v x y rest e errs txts :
  Type_ eq = EQ -> Type_ v = TRUE \/ Type_ v = FALSE ->
  parseIfFlagOperator expression
    (stateAt e (eq :: v :: x :: y :: rest) errs txts) =
  if token.eqb (Type_ x) RPAREN then
    if token.eqb (Type_ y) LBRACE then
      ((true,
        ast.setComparisonValue (typeString (Type_ v))
          (ast.setOperator EQ expression)),
       stateAt e rest errs txts)
    else
      ((false,
        ast.setComparisonValue (typeString (Type_ v))
          (ast.setOperator EQ expression)),
       stateAt e (x :: y :: rest)
         (errs ++ [peekErrorMsg LBRACE (Type_ y)]) txts)
  else
    ((false,
      ast.setComparisonValue (typeString (Type_ v))
        (ast.setOperator EQ expression)),
     stateAt e (v :: x :: y :: rest)
       (errs ++ [peekErrorMsg RPAREN (Type_ x)]) txts).
Proof.
  intros Heq Hv. unfold parseIfFlagOperator. at_step. rewrite Heq.
  eqb_compute. at_step.
  assert (Hv1 : token.eqb (Type_ v) RPAREN = false)
    by (destruct Hv as [-> | ->]; reflexivity).
  assert (Hv2 : negb (token.eqb (Type_ v) TRUE)
                && negb (token.eqb (Type_ v) FALSE) = false)
    by (destruct Hv as [-> | ->]; reflexivity).
  rewrite Hv1, Hv2.
  destruct (token.eqb (Type_ x) RPAREN) eqn:Ex.
  - apply eqb_eq in Ex. rewrite expectPeek_ok by assumption.
    cbn [negb]. cbv iota.
    destruct (token.eqb (Type_ y) LBRACE) eqn:Ey.
    + apply eqb_eq in Ey. rewrite expectPeek_ok by assumption.
      at_step. reflexivity.
    + apply eqb_neq in Ey. rewrite expectPeek_fail by assumption.
      reflexivity.
  - apply eqb_neq in Ex. rewrite expectPeek_fail by assumption. reflexivity.
Qed.

(** *** One operator-expression *)

Section Operand.

(** The tokens [( kind ( operand )] at the start of a condition, the
    operand [o :: os] not empty and free of closing parentheses, in a
    parser that has the fuel to read it. *)
Variables (fuel : nat) (lineNumber : Z).
Variables (lp0 k lp o : Token) (os : list Token) (rp : Token).
Variables (e : Z) (errs txts : list string).

Hypothesis lp_type : Type_ lp = LPAREN.
Hypothesis operand_open : noRParen (o :: os) = true.
Hypothesis rp_type : Type_ rp = RPAREN.
Hypothesis enough_fuel : (length (o :: os) <= fuel)%nat.

(** After the operand the operator function of the kind runs on what
    follows, and its verdict decides between nil and the body. *)
Lemma cond_operand rest :
  Type_ k = VAR \/ Type_ k = FLAG ->
  parseIfConditionExpression (S fuel) lineNumber
    (stateAt e (lp0 :: k :: lp :: (o :: os) ++ rp :: rest) errs txts) =
  match
    (if token.eqb (Type_ k) VAR then
       parseIfVarOperator fuel (operandExpression k (o :: os))
         (stateAt e rest errs txts)
     else
       Some (parseIfFlagOperator (operandExpression k (o :: os))
               (stateAt e rest errs txts)))
  with
  | None => None
  | Some ((false, _), p6) => Some (None, p6)
  | Some ((true, expression), p6) =>
    match parseBlockStatement fuel p6 with
    | None => None
    | Some (body, p7) => Some (Some (ast.setBody body expression), p7)
    end
  end.
Proof.
  intros Hk. cbn [parseIfConditionExpression]. at_step.
  assert (Hk' : negb (token.eqb (Type_ k) VAR)
                && negb (token.eqb (Type_ k) FLAG) = false)
    by (destruct Hk as [-> | ->]; reflexivity).
  rewrite Hk'. rewrite expectPeek_ok by assumption. cbn [negb]. cbv iota.
  change ((o :: os) ++ rp :: rest)%list with (o :: (os ++ rp :: rest))%list.
  at_step. rewrite (noRParen_head _ _ operand_open).
  change (o :: (os ++ rp :: rest))%list with ((o :: os) ++ rp :: rest)%list.
  rewrite collectParts_until by assumption.
  at_step. cbn [ast.Type_ ast.setOperand app]. unfold operandExpression.
  destruct Hk as [-> | ->]; reflexivity.
Qed.

Lemma cond_flag_accept eq v rp2 lb rest :
  Type_ k = FLAG -> Type_ eq = EQ -> Type_ v = TRUE \/ Type_ v = FALSE ->
  Type_ rp2 = RPAREN -> Type_ lb = LBRACE ->
  parseIfConditionExpression (S fuel) lineNumber
    (stateAt e
       (lp0 :: k :: lp :: (o :: os) ++ rp :: eq :: v :: rp2 :: lb :: rest)
       errs txts) =
  match parseBlockStatement fuel (stateAt e rest errs txts) with
  | None => None
  | Some (body, p') =>
    Some (Some (ast.mkConditionExpression FLAG (Join (map Literal (o :: os)))
                  EQ (typeString (Type_ v)) body), p')
  end.
Proof.
  intros Hk Heq Hv Hrp2 Hlb. rewrite cond_operand by auto.
  rewrite flag_operator_at by assumption.
  rewrite Hk, Hrp2, Hlb. eqb_compute. unfold operandExpression. rewrite Hk.
  destruct (parseBlockStatement fuel (stateAt e rest errs txts))
    as [[body p']|]; reflexivity.
Qed.

Lemma cond_flag_reject eq v x rest :
  Type_ k = FLAG -> Type_ eq = EQ -> Type_ v = TRUE \/ Type_ v = FALSE ->
  Type_ x <> RPAREN ->
  parseIfConditionExpression (S fuel) lineNumber
    (stateAt e (lp0 :: k :: lp :: (o :: os) ++ rp :: eq :: v :: x :: rest)
       errs txts) =
  Some (None,
        stateAt e (v :: x :: rest)
          (errs ++ [peekErrorMsg RPAREN (Type_ x)]) txts).
Proof.
  intros Hk Heq Hv Hx. rewrite cond_operand by auto. rewrite Hk. eqb_compute.
  unfold parseIfFlagOperator. at_step. rewrite Heq. eqb_compute. at_step.
  assert (Hv1 : token.eqb (Type_ v) RPAREN = false)
    by (destruct Hv as [-> | ->]; reflexivity).
  assert (Hv2 : negb (token.eqb (Type_ v) TRUE)
                && negb (token.eqb (Type_ v) FALSE) = false)
    by (destruct Hv as [-> | ->]; reflexivity).
  rewrite Hv1, Hv2. rewrite expectPeek_fail by assumption. reflexivity.
Qed.

Lemma cond_var_accept op v vs rp2 lb rest :
  Type_ k = VAR -> isRelational (Type_ op) = true ->
  noRParen (v :: vs) = true -> Type_ rp2 = RPAREN -> Type_ lb = LBRACE ->
  (length (v :: vs) <= fuel)%nat ->
  parseIfConditionExpression (S fuel) lineNumber
    (stateAt e
       (lp0 :: k :: lp :: (o :: os) ++ rp :: op :: (v :: vs)
          ++ rp2 :: lb :: rest)
       errs txts) =
  match parseBlockStatement fuel (stateAt e rest errs txts) with
  | None => None
  | Some (body, p') =>
    Some (Some (ast.mkConditionExpression VAR (Join (map Literal (o :: os)))
                  (Type_ op) (Join (map Literal (v :: vs))) body), p')
  end.
Proof.
  intros Hk Hop Hnov Hrp2 Hlb Hfuelv.
  rewrite cond_operand by auto. rewrite Hk. eqb_compute.
  rewrite var_operator_at by assumption. rewrite Hlb. eqb_compute.
  unfold operandExpression. rewrite Hk.
  destruct (parseBlockStatement fuel (stateAt e rest errs txts))
    as [[body p']|]; reflexivity.
Qed.

Lemma cond_var_reject op v vs rp2 x rest :
  Type_ k = VAR -> isRelational (Type_ op) = true ->
  noRParen (v :: vs) = true -> Type_ rp2 = RPAREN -> Type_ x <> LBRACE ->
  (length (v :: vs) <= fuel)%nat ->
  parseIfConditionExpression (S fuel) lineNumber
    (stateAt e
       (lp0 :: k :: lp :: (o :: os) ++ rp :: op :: (v :: vs)
          ++ rp2 :: x :: rest)
       errs txts) =
  Some (None,
        stateAt e (rp2 :: x :: rest)
          (errs ++ [peekErrorMsg LBRACE (Type_ x)]) txts).
Proof.
  intros Hk Hop Hnov Hrp2 Hx Hfuelv.
  rewrite cond_operand by auto. rewrite Hk. eqb_compute.
  rewrite var_operator_at by assumption.
  apply eqb_neq in Hx. rewrite Hx. reflexivity.
Qed.

Lemma cond_var_bad_operator op rest :
  Type_ k = VAR -> isRelational (Type_ op) = false ->
  parseIfConditionExpression (S fuel) lineNumber
    (stateAt e (lp0 :: k :: lp :: (o :: os) ++ rp :: op :: rest) errs txts) =
  Some (None, stateAt e (op :: rest) (errs ++ [invalidOperatorMsg op]) txts).
Proof.
  intros Hk Hop. rewrite cond_operand by auto. rewrite Hk. eqb_compute.
  rewrite var_bad_operator by exact Hop. at_step. reflexivity.
Qed.

Lemma cond_flag_bad_operator op rest :
  Type_ k = FLAG -> Type_ op <> EQ ->
  parseIfConditionExpression (S fuel) lineNumber
    (stateAt e (lp0 :: k :: lp :: (o :: os) ++ rp :: op :: rest) errs txts) =
  Some (None, stateAt e (op :: rest) (errs ++ [onlyEqMsg op]) txts).
Proof.
  intros Hk Hop. rewrite cond_operand by auto. rewrite Hk. eqb_compute.
  rewrite flag_bad_operator by exact Hop. at_step. reflexivity.
Qed.

Lemma cond_flag_bad_value eq x rest :
  Type_ k = FLAG -> Type_ eq = EQ ->
  Type_ x <> TRUE -> Type_ x <> FALSE -> Type_ x <> RPAREN ->
  parseIfConditionExpression (S fuel) lineNumber
    (stateAt e (lp0 :: k :: lp :: (o :: os) ++ rp :: eq :: x :: rest)
       errs txts) =
  Some (None, stateAt e (x :: rest) (errs ++ [onlyTrueFalseMsg x]) txts).
Proof.
  intros Hk Heq H1 H2 H3. rewrite cond_operand by auto. rewrite Hk.
  eqb_compute. rewrite flag_bad_value by assumption. at_step. reflexivity.
Qed.

Lemma cond_flag_missing_value eq x rest :
  Type_ k = FLAG -> Type_ eq = EQ -> Type_ x = RPAREN ->
  parseIfConditionExpression (S fuel) lineNumber
    (stateAt e (lp0 :: k :: lp :: (o :: os) ++ rp :: eq :: x :: rest)
       errs txts) =
  Some (None, stateAt e (x :: rest) (errs ++ [missingValueMsg x]) txts).
Proof.
  intros Hk Heq Hx. rewrite cond_operand by auto. rewrite Hk.
  eqb_compute. rewrite flag_missing_value by assumption. at_step.
  reflexivity.
Qed.

End Operand.

(** A condition that the parser returns holds a valid operator. *)
Lemma cond_valid fuel lineNumber p c p' :
  parseIfConditionExpression fuel lineNumber p = Some (Some c, p') ->
  (ast.Type_ c = VAR /\ isRelational (ast.Operator c) = true) \/
  (ast.Type_ c = FLAG /\ ast.Operator c = EQ /\
   (ast.ComparisonValue c = "TRUE" \/ ast.ComparisonValue c = "FALSE")).
Proof.
  destruct fuel as [|fuel]; [discriminate|]. cbn [parseIfConditionExpression].
  intros H.
  destruct (negb (peekTokenIs p VAR) && negb (peekTokenIs p FLAG)) eqn:Ek;
    [discriminate|].
  destruct (expectPeek LPAREN (nextToken p)) as [ok p2].
  destruct (negb ok); [discriminate|].
  destruct (token.eqb (Type_ (peekToken p2)) RPAREN); [discriminate|].
  destruct (collectParts fuel [] (nextToken p2)) as [[parts p4]|];
    [|discriminate].
  cbn [ast.Type_ ast.setOperand] in H. rewrite nextToken_curToken in H.
  unfold peekTokenIs in Ek.
  destruct (token.eqb (Type_ (peekToken p)) VAR) eqn:Ev.
  - apply eqb_eq in Ev. rewrite Ev in H.
    destruct (parseIfVarOperator _ _ _) as [[[[|] c'] p6]|] eqn:Eo;
      try discriminate.
    apply var_success in Eo. destruct Eo as (Hrel & Hop & Hty).
    destruct (parseBlockStatement fuel p6) as [[body p7]|]; [|discriminate].
    inversion H; subst. left. destruct c'; simpl in *. rewrite Hop. auto.
  - destruct (token.eqb (Type_ (peekToken p)) FLAG) eqn:Ef; [|discriminate].
    apply eqb_eq in Ef. rewrite Ef in H. simpl in H.
    destruct (parseIfFlagOperator _ _) as [[[|] c'] p6] eqn:Eo;
      try discriminate.
    apply flag_success in Eo. destruct Eo as (_ & Hv & ->).
    destruct (parseBlockStatement fuel p6) as [[body p7]|]; [|discriminate].
    inversion H; subst. right. simpl.
    destruct Hv as [-> | ->]; auto.
Qed.

(** *** Conditions that the input leaves open *)

(** The operand is never closed: whatever the fuel, the condition does not
    return. *)
Lemma cond_open_operand fuel lineNumber lp0 k lp toks e errs txts :
  Type_ k = VAR \/ Type_ k = FLAG ->
  Type_ lp = LPAREN -> noRParen toks = true ->
  parseIfConditionExpression fuel lineNumber
    (stateAt e (lp0 :: k :: lp :: toks) errs txts) = None.
Proof.
  intros Hk Hlp Hno. destruct fuel as [|fuel]; [reflexivity|].
  cbn [parseIfConditionExpression]. at_step.
  assert (Hk' : negb (token.eqb (Type_ k) VAR)
                && negb (token.eqb (Type_ k) FLAG) = false)
    by (destruct Hk as [-> | ->]; reflexivity).
  rewrite Hk'. rewrite expectPeek_ok by assumption. cbn [negb]. cbv iota.
  destruct toks as [|t ts].
  - cbn [peekToken stateAt hd tl]. unfold eofTok. cbn [Type_].
    eqb_compute. rewrite nextToken_cons, collectParts_eof. reflexivity.
  - at_step. rewrite (noRParen_head _ _ Hno).
    rewrite collectParts_open by assumption. reflexivity.
Qed.

(** The comparison value of a var test is never closed. *)
Lemma cond_open_value fuel lineNumber lp0 k lp o rp op v vs e errs txts :
  Type_ k = VAR -> Type_ lp = LPAREN -> noRParen [o] = true ->
  Type_ rp = RPAREN -> isRelational (Type_ op) = true ->
  noRParen (v :: vs) = true ->
  parseIfConditionExpression fuel lineNumber
    (stateAt e (lp0 :: k :: lp :: o :: rp :: op :: v :: vs) errs txts) = None.
Proof.
  intros Hk Hlp Hno Hrp Hop Hnov.
  destruct fuel as [|[|fuel]]; [reflexivity| |].
  - cbn [parseIfConditionExpression]. at_step. rewrite Hk. eqb_compute.
    rewrite expectPeek_ok by assumption. cbn [negb]. cbv iota. at_step.
    rewrite (noRParen_head _ _ Hno). cbn [collectParts]. at_step.
    rewrite (noRParen_head _ _ Hno). reflexivity.
  - change (lp0 :: k :: lp :: o :: rp :: op :: v :: vs)%list
      with (lp0 :: k :: lp :: [o] ++ rp :: op :: v :: vs)%list.
    rewrite cond_operand; auto; [|simpl; lia].
    rewrite Hk. eqb_compute. rewrite var_operator_open by assumption.
    reflexivity.
Qed.

End condition.

(** ** Well-formed sources are accepted *)
Module accept.

Import token parser stream spec facts frame command program condition.
Import source.

Lemma parseStatement_if fuel p :
  Type_ (curToken p) = IF ->
  parseStatement (S fuel) p =
  match parseIfStatement fuel p with
  | None => None
  | Some (None, p1) => Some (None, p1)
  | Some (Some statement, p1) => Some (Some (ast.If statement), p1)
  end.
Proof. intros H. cbn [parseStatement]. rewrite H. reflexivity. Qed.

Lemma parseIfStatement_at fuel kw lp rest e errs txts :
  Type_ lp = LPAREN ->
  parseIfStatement (S fuel) (stateAt e (kw :: lp :: rest) errs txts) =
  match
    parseIfConditionExpression fuel (LineNumber kw)
      (stateAt e (lp :: rest) errs txts)
  with
  | None => None
  | Some (None, p2) => Some (None, p2)
  | Some (Some consequence, p2) =>
    match elifLoop fuel [] p2 with
    | None => None
    | Some (None, p3) => Some (None, p3)
    | Some (Some elifs, p3) =>
      if peekTokenIs p3 ELSE then
        let (ok, p5) := expectPeek LBRACE (nextToken p3) in
        if negb ok then
          Some (None,
                addError
                  ("line " ++ fmt_d (LineNumber (peekToken p5))
                     ++ ": missing opening curly brace of else statement '"
                     ++ Literal (peekToken p5) ++ "'")%string p5)
        else
          match parseBlockStatement fuel (nextToken p5) with
          | None => None
          | Some (body, p6) =>
            Some (Some (ast.mkIfStatement kw consequence elifs body), p6)
          end
      else Some (Some (ast.mkIfStatement kw consequence elifs None), p3)
    end
  end.
Proof.
  intros Hlp. cbn [parseIfStatement].
  rewrite expectPeek_ok by assumption. cbn [negb]. cbv iota.
  rewrite curToken_at. reflexivity.
Qed.

Lemma elifLoop_exit fuel elifs p :
  peekTokenIs p ELSEIF = false -> elifLoop fuel elifs p = Some (Some elifs, p).
Proof. intros H. destruct fuel; cbn [elifLoop]; rewrite H; reflexivity. Qed.

Lemma elifLoop_at fuel elifs cur kw lp rest e errs txts :
  Type_ kw = ELSEIF -> Type_ lp = LPAREN ->
  elifLoop (S fuel) elifs (stateAt e (cur :: kw :: lp :: rest) errs txts) =
  match
    parseIfConditionExpression fuel (LineNumber (hd (eofTok e) rest))
      (stateAt e (lp :: rest) errs txts)
  with
  | None => None
  | Some (None, p3) => Some (None, p3)
  | Some (Some consequence, p3) => elifLoop fuel (append elifs consequence) p3
  end.
Proof.
  intros Hkw Hlp. cbn [elifLoop]. rewrite peekTokenIs_at, Hkw.
  eqb_compute. rewrite nextToken_cons.
  rewrite expectPeek_ok by assumption. cbn [negb]. cbv iota. reflexivity.
Qed.


(** *** Shapes of the token sequences *)

Lemma cond_shape c :
  wfCond c = true ->
  exists lp rest, condTokens c = lp :: rest /\ Type_ lp = LPAREN.
Proof.
  destruct c. cbn [wfCond condTokens]. rewrite !andb_true_iff.
  intros H. decompose [and] H. eexists _, _. split; [reflexivity|].
  apply eqb_eq. assumption.
Qed.

Lemma stmt_shape s :
  wfStmt s = true ->
  exists t rest,
    stmtTokens s = t :: rest /\ (Type_ t = IDENT \/ Type_ t = IF).
Proof.
  destruct s as [[name|name lp body rp]|kw first elifs els];
    cbn [wfStmt closedCommand stmtTokens commandTokens];
    rewrite ?andb_true_iff; intros H; decompose [and] H;
    eexists _, _; (split; [reflexivity|]);
    [left|left|right]; apply eqb_eq; assumption.
Qed.

(** What follows a statement inside a block is the next statement or what
    follows the block. *)
Lemma follows_stmts body rest e :
  wfStmts body = true ->
  follows (hd (eofTok e) rest) = true ->
  follows (hd (eofTok e) (stmtsTokens body ++ rest)) = true.
Proof.
  destruct body as [|s body]; [intros _ H; exact H|].
  cbn [wfStmts stmtsTokens]. rewrite andb_true_iff. intros [Hs _] _.
  destruct (stmt_shape s Hs) as (t & ts & -> & [Ht | Ht]);
    cbn [app hd]; unfold follows; rewrite Ht; reflexivity.
Qed.

Lemma follows_LPAREN t : follows t = true -> Type_ t <> LPAREN.
Proof.
  unfold follows. intros H E. rewrite E in H. discriminate.
Qed.

Lemma follows_ELSEIF t : follows t = true -> token.eqb (Type_ t) ELSEIF = false.
Proof.
  unfold follows. destruct (token.eqb (Type_ t) ELSEIF); [|reflexivity].
  rewrite andb_false_r. discriminate.
Qed.

Lemma follows_ELSE t : follows t = true -> token.eqb (Type_ t) ELSE = false.
Proof.
  unfold follows. destruct (token.eqb (Type_ t) ELSE); [|reflexivity].
  rewrite andb_false_r. discriminate.
Qed.

Lemma follows_RBRACE t : Type_ t = RBRACE -> follows t = true.
Proof. unfold follows. intros ->. reflexivity. Qed.

Lemma hd_stmts body rb rest e :
  hd (eofTok e) (stmtsTokens body ++ rb :: rest) = hd rb (stmtsTokens body).
Proof. destruct (stmtsTokens body); reflexivity. Qed.

(** *** The parsing functions on the tokens of a tree *)

(** The loop of a block reads the statements [body] and goes on with what
    comes after them. *)
Definition blockRuns (body : Stmts) : Prop :=
  wfStmts body = true ->
  forall fuel block rest e errs txts,
    follows (hd (eofTok e) rest) = true ->
    (length (stmtsTokens body) + 4 <= fuel)%nat ->
    blockLoop fuel block (stateAt e (stmtsTokens body ++ rest) errs txts) =
    blockLoop (fuel - stmtsCount body)
      (ast.mkBlockStatement (ast.Block_Token block)
         (ast.Statements block ++ stmtsAst (length txts) body))
      (stateAt e rest errs (txts ++ stmtsLiterals body)).

Definition statementRuns (s : Stmt) : Prop :=
  wfStmt s = true ->
  forall fuel rest e errs txts,
    follows (hd (eofTok e) rest) = true ->
    (length (stmtTokens s) + 3 <= fuel)%nat ->
    parseStatement fuel (stateAt e (stmtTokens s ++ rest) errs txts) =
    Some (Some (stmtAst (length txts) s),
          stateAt e (stmtLast s :: rest) errs (txts ++ stmtLiterals s)).

Definition conditionRuns (c : Cond) : Prop :=
  wfCond c = true ->
  forall fuel lineNumber rest e errs txts,
    (length (condTokens c) + 2 <= fuel)%nat ->
    parseIfConditionExpression fuel lineNumber
      (stateAt e (condTokens c ++ rest) errs txts) =
    Some (Some (condAst (length txts) c),
          stateAt e (condLast c :: rest) errs (txts ++ condLiterals c)).

Definition elifsRun (es : Elifs) : Prop :=
  wfElifs es = true ->
  forall fuel elifs cur rest e errs txts,
    token.eqb (Type_ (hd (eofTok e) rest)) ELSEIF = false ->
    (length (elifsTokens es) + 2 <= fuel)%nat ->
    elifLoop fuel elifs (stateAt e (cur :: elifsTokens es ++ rest) errs txts) =
    Some (Some (elifs ++ elifsAst (length txts) es),
          stateAt e (elifsLast cur es :: rest) errs
            (txts ++ elifsLiterals es)).

(** A block that its closing brace follows. *)
Definition closedBlockRuns (body : Stmts) : Prop :=
  wfStmts body = true ->
  forall fuel rb rest e errs txts,
    Type_ rb = RBRACE ->
    (length (stmtsTokens body) + 5 <= fuel)%nat ->
    parseBlockStatement fuel
      (stateAt e (stmtsTokens body ++ rb :: rest) errs txts) =
    Some (Some (ast.mkBlockStatement (hd rb (stmtsTokens body))
                  (stmtsAst (length txts) body)),
          stateAt e (rb :: rest) errs (txts ++ stmtsLiterals body)).

Definition elseRuns (el : Else) : Prop :=
  match el with
  | NoElse => True
  | SomeElse _ _ body _ => closedBlockRuns body
  end.

Lemma closed_of_loop body : blockRuns body -> closedBlockRuns body.
Proof.
  intros IH Hwf fuel rb rest e errs txts Hrb Hfuel.
  destruct fuel as [|fuel]; [lia|]. cbn [parseBlockStatement].
  unfold curToken at 1. cbn [stateAt]. rewrite hd_stmts.
  rewrite IH; try assumption; try lia;
    [|cbn [hd]; apply follows_RBRACE; assumption].
  rewrite blockLoop_exit by (rewrite curTokenIs_at, Hrb; reflexivity).
  reflexivity.
Qed.


Lemma command_runs c : statementRuns (SCommand c).
Proof.
  intros Hwf fuel rest e errs txts Hf Hfuel. cbn [wfStmt] in Hwf.
  destruct fuel as [|fuel]; [lia|].
  destruct c as [name|name lp body rp];
    cbn [stmtTokens commandTokens closedCommand app length] in *.
  - apply eqb_eq in Hwf.
    rewrite parseStatement_command by (rewrite curToken_at; exact Hwf).
    rewrite parseCommandStatement_bare
      by (cbn [peekToken stateAt hd tl]; apply follows_LPAREN; exact Hf).
    rewrite curToken_at.
    cbn [stmtAst stmtLast stmtLiterals commandName commandBody].
    unfold stringLiterals. cbn [filter map]. rewrite app_nil_r. reflexivity.
  - rewrite !andb_true_iff, !eqb_eq in Hwf.
    destruct Hwf as [[[Hn Hlp] Hrp] Hbody].
    rewrite length_app in Hfuel. cbn [length] in Hfuel.
    rewrite <- app_assoc. cbn [app].
    rewrite parseStatement_command by (rewrite curToken_at; exact Hn).
    rewrite parseCommandStatement_closed by (try assumption; lia).
    reflexivity.
Qed.

Lemma nil_runs : blockRuns SNil.
Proof.
  intros _ fuel block rest e errs txts _ _.
  cbn [stmtsTokens stmtsCount stmtsAst stmtsLiterals app].
  rewrite Nat.sub_0_r, !app_nil_r. destruct block; reflexivity.
Qed.

Lemma cons_runs s rest :
  statementRuns s -> blockRuns rest -> blockRuns (SCons s rest).
Proof.
  intros IHs IHr Hwf fuel block rest0 e errs txts Hf Hfuel.
  cbn [wfStmts] in Hwf. apply andb_true_iff in Hwf. destruct Hwf as [Hs Hr].
  cbn [stmtsTokens stmtsCount stmtsAst stmtsLiterals] in *.
  rewrite length_app in Hfuel. rewrite <- app_assoc.
  destruct fuel as [|fuel]; [lia|].
  destruct (stmt_shape s Hs) as (t & ts & Es & Ht).
  assert (Hlen : (1 <= length (stmtTokens s))%nat)
    by (rewrite Es; cbn [length]; lia).
  rewrite blockLoop_turn;
    try (rewrite Es; cbn [app]; rewrite curTokenIs_at;
         destruct Ht as [-> | ->]; reflexivity).
  rewrite IHs; try assumption; try lia;
    [|apply follows_stmts; assumption].
  rewrite nextToken_cons.
  rewrite IHr; try assumption; try lia.
  unfold appendStatement, append. cbn [ast.Block_Token ast.Statements].
  rewrite length_app, <- !app_assoc. cbn [app Nat.sub]. reflexivity.
Qed.

Lemma cond_runs lp kind lp2 operand rp op value rp2 lb body rb :
  blockRuns body ->
  conditionRuns (mkCond lp kind lp2 operand rp op value rp2 lb body rb).
Proof.
  intros IH Hwf fuel lineNumber rest e errs txts Hfuel.
  apply closed_of_loop in IH.
  cbn [wfCond] in Hwf. rewrite !andb_true_iff in Hwf.
  destruct Hwf as
    [[[[[[[[[[Hlp Hkind] Hlp2] Hsome] Hno] Hrp] Hcmp] Hrp2] Hlb] Hbody] Hrb].
  apply eqb_eq in Hlp, Hlp2, Hrp, Hrp2, Hlb, Hrb.
  destruct operand as [|o os]; [discriminate|].
  cbn [condTokens] in *.
  repeat (cbn [length] in Hfuel; rewrite length_app in Hfuel).
  cbn [length] in Hfuel.
  destruct fuel as [|fuel]; [lia|].
  cbn [condAst condLast condLiterals].
  unfold validComparison, comparisonValue in *.
  destruct (token.eqb (Type_ kind) FLAG) eqn:Ek.
  - apply eqb_eq in Ek. apply andb_true_iff in Hcmp.
    destruct Hcmp as [Hop Hv]. apply eqb_eq in Hop.
    destruct value as [|v [|v' vs]]; try discriminate.
    apply orb_true_iff in Hv. rewrite !eqb_eq in Hv.
    etransitivity.
    { repeat (cbn [app]; rewrite <- app_assoc). cbn [app].
      apply (cond_flag_accept fuel lineNumber lp kind lp2 o os rp e errs txts
               Hlp2 Hno Hrp ltac:(cbn [length]; lia) op v rp2 lb
               (stmtsTokens body ++ rb :: rest));
        assumption. }
    rewrite IH by (try assumption; lia).
    rewrite Ek, Hop. reflexivity.
  - rewrite orb_false_r in Hkind. apply eqb_eq in Hkind.
    rewrite !andb_true_iff in Hcmp. destruct Hcmp as [[Hop Hsomev] Hnov].
    destruct value as [|v vs]; [discriminate|].
    etransitivity.
    { repeat (cbn [app]; rewrite <- app_assoc). cbn [app].
      apply (cond_var_accept fuel lineNumber lp kind lp2 o os rp e errs txts
               Hlp2 Hno Hrp ltac:(cbn [length]; lia) op v vs rp2 lb
               (stmtsTokens body ++ rb :: rest));
        try assumption. cbn [length] in *. lia. }
    rewrite IH by (try assumption; lia).
    rewrite Hkind. reflexivity.
Qed.

Lemma enil_runs : elifsRun ENil.
Proof.
  intros _ fuel elifs cur rest e errs txts Hnext _.
  cbn [elifsTokens elifsAst elifsLast elifsLiterals app].
  rewrite elifLoop_exit by exact Hnext. rewrite !app_nil_r. reflexivity.
Qed.

Lemma econs_runs kw c rest :
  conditionRuns c -> elifsRun rest -> elifsRun (ECons kw c rest).
Proof.
  intros IHc IHr Hwf fuel elifs cur rest0 e errs txts Hnext Hfuel.
  cbn [wfElifs] in Hwf. rewrite !andb_true_iff in Hwf.
  destruct Hwf as [[Hkw Hc] Hr]. apply eqb_eq in Hkw.
  cbn [elifsTokens elifsAst elifsLast elifsLiterals length] in *.
  rewrite length_app in Hfuel.
  destruct fuel as [|fuel]; [lia|].
  destruct (cond_shape c Hc) as (lp & ts & Ec & Hlp).
  cbn [app]. rewrite <- app_assoc.
  assert (Hlen : (1 <= length (condTokens c))%nat)
    by (rewrite Ec; cbn [length]; lia).
  pose proof (IHc Hc fuel
                (LineNumber (hd (eofTok e) (ts ++ elifsTokens rest ++ rest0)))
                (elifsTokens rest ++ rest0) e errs txts
                ltac:(lia)) as Hrun.
  rewrite Ec in Hrun |- *. cbn [app] in Hrun |- *.
  rewrite elifLoop_at by assumption. rewrite Hrun.
  rewrite IHr; try assumption; try lia.
  unfold append. rewrite length_app, <- !app_assoc. reflexivity.
Qed.

Lemma if_runs kw first elifs els :
  conditionRuns first -> elifsRun elifs -> elseRuns els ->
  statementRuns (SIf kw first elifs els).
Proof.
  intros IHc IHe IHl Hwf fuel rest e errs txts Hf Hfuel.
  cbn [wfStmt] in Hwf. rewrite !andb_true_iff in Hwf.
  destruct Hwf as [[[Hkw Hc] He] Hl]. apply eqb_eq in Hkw.
  cbn [stmtTokens stmtAst stmtLast stmtLiterals length] in *.
  rewrite !length_app in Hfuel.
  destruct fuel as [|[|fuel]]; try lia.
  destruct (cond_shape first Hc) as (lp & ts & Ec & Hlp).
  assert (Hlen : (1 <= length (condTokens first))%nat)
    by (rewrite Ec; cbn [length]; lia).
  cbn [app]. rewrite <- !app_assoc.
  rewrite parseStatement_if by (rewrite curToken_at; exact Hkw).
  pose proof (IHc Hc fuel (LineNumber kw)
                (elifsTokens elifs ++ elseTokens els ++ rest) e errs txts
                ltac:(lia)) as Hrun.
  rewrite Ec in Hrun |- *. cbn [app] in Hrun |- *.
  rewrite parseIfStatement_at by assumption. rewrite Hrun.
  destruct els as [|kw' lb body rb].
  - cbn [elseTokens app elseAst elseLiterals].
    rewrite IHe; try assumption; try lia;
      [|apply follows_ELSEIF; exact Hf].
    cbn [peekTokenIs peekToken stateAt hd tl].
    unfold peekTokenIs. cbn [peekToken stateAt hd tl].
    rewrite (follows_ELSE _ Hf). rewrite length_app, app_nil_r, <- app_assoc.
    reflexivity.
  - cbn [wfElse] in Hl. rewrite !andb_true_iff, !eqb_eq in Hl.
    destruct Hl as [[[Hkw' Hlb] Hbody] Hrb].
    cbn [elseTokens app elseAst elseLiterals length] in *.
    rewrite length_app in Hfuel.
    rewrite IHe; try assumption; try lia;
      [|cbn [hd]; rewrite Hkw'; reflexivity].
    rewrite peekTokenIs_at, Hkw'. eqb_compute. rewrite nextToken_cons.
    rewrite expectPeek_ok by assumption. cbn [negb]. cbv iota.
    rewrite nextToken_cons, <- app_assoc. cbn [app].
    rewrite (IHl Hbody) by (try assumption; lia).
    rewrite !length_app, <- !app_assoc. reflexivity.
Qed.

(** Every well-formed tree is read as the syntax tree it stands for. *)
Lemma sources_run :
  (forall s, statementRuns s) /\ (forall ss, blockRuns ss) /\
  (forall c, conditionRuns c) /\ (forall es, elifsRun es) /\
  (forall el, elseRuns el).
Proof.
  apply source_ind.
  - apply command_runs.
  - intros; apply if_runs; assumption.
  - apply nil_runs.
  - intros; apply cons_runs; assumption.
  - intros; apply cond_runs; assumption.
  - apply enil_runs.
  - intros; apply econs_runs; assumption.
  - exact I.
  - intros kw lb body IH rb. apply closed_of_loop. exact IH.
Qed.


Lemma stmts_run body : blockRuns body.
Proof. apply sources_run. Qed.

Lemma closed_block_runs body : closedBlockRuns body.
Proof. apply closed_of_loop, stmts_run. Qed.

(** *** Top-level statements *)

Lemma parseRawStatement_at kw name value rest e errs txts :
  Type_ name = IDENT -> Type_ value = RAWSTRING ->
  parseRawStatement (stateAt e (kw :: name :: value :: rest) errs txts) =
  (Some (ast.mkRawStatement kw (token.eqb (Type_ kw) RAWGLOBAL)
           (Some (ast.mkIdentifier name (Literal name))) (Literal value)),
   stateAt e (value :: rest) errs txts).
Proof.
  intros Hn Hv. unfold parseRawStatement.
  rewrite expectPeek_ok by assumption. cbn [negb]. cbv iota.
  rewrite expectPeek_ok by assumption. cbn [negb]. cbv iota.
  rewrite !curToken_at. reflexivity.
Qed.

Definition itemLast (i : Item) : Token :=
  match i with
  | IRaw _ _ value => value
  | IScript _ _ _ _ rb => rb
  end.

Lemma item_runs i :
  wfItem i = true ->
  forall fuel rest e errs txts,
    (length (itemTokens i) + 1 <= fuel)%nat ->
    parseTopLevelStatement fuel (stateAt e (itemTokens i ++ rest) errs txts) =
    Some (Some (itemAst (length txts) i),
          stateAt e (itemLast i :: rest) errs (txts ++ itemLiterals i)).
Proof.
  intros Hwf fuel rest e errs txts Hfuel.
  destruct i as [kw name value|kw name lb body rb];
    cbn [wfItem itemTokens itemAst itemLast itemLiterals app length] in *;
    rewrite !andb_true_iff in Hwf.
  - destruct Hwf as [[Hkw Hn] Hv]. apply eqb_eq in Hn, Hv.
    unfold parseTopLevelStatement. rewrite curToken_at.
    rewrite parseRawStatement_at by assumption. rewrite app_nil_r.
    apply orb_true_iff in Hkw. rewrite !eqb_eq in Hkw.
    destruct Hkw as [-> | ->]; reflexivity.
  - destruct Hwf as [[[[Hkw Hn] Hlb] Hbody] Hrb].
    apply eqb_eq in Hkw, Hn, Hlb, Hrb.
    rewrite length_app in Hfuel. cbn [length] in Hfuel.
    unfold parseTopLevelStatement. rewrite curToken_at, Hkw.
    rewrite parseScriptStatement_at by assumption.
    rewrite <- app_assoc. cbn [app].
    rewrite closed_block_runs by (try assumption; lia). reflexivity.
Qed.

Lemma item_shape i :
  wfItem i = true ->
  exists t rest, itemTokens i = t :: rest /\ Type_ t <> EOF.
Proof.
  destruct i; cbn [wfItem itemTokens]; rewrite !andb_true_iff;
    intros H; decompose [and] H; eexists _, _; (split; [reflexivity|]).
  - match goal with H : _ || _ = true |- _ =>
      apply orb_true_iff in H; rewrite !eqb_eq in H;
      destruct H as [-> | ->]; discriminate
    end.
  - match goal with H : token.eqb _ SCRIPT = true |- _ =>
      apply eqb_eq in H; rewrite H; discriminate
    end.
Qed.

(** The loop of [ParseProgram] reads the items and goes on with what
    comes after them. *)
Lemma programLoop_items items :
  forallb wfItem items = true ->
  forall fuel program rest e txts,
    (length (itemsTokens items) + 2 <= fuel)%nat ->
    programLoop fuel program (stateAt e (itemsTokens items ++ rest) [] txts) =
    programLoop (fuel - length items)
      (ast.mkProgram
         (ast.TopLevelStatements program ++ itemsAst (length txts) items)
         (ast.Texts program))
      (stateAt e rest [] (txts ++ itemsLiterals items)).
Proof.
  induction items as [|i items IH]; intros Hwf fuel program rest e txts Hfuel.
  - cbn [itemsTokens flat_map itemsAst itemsLiterals app length].
    rewrite Nat.sub_0_r, !app_nil_r. destruct program; reflexivity.
  - cbn [forallb] in Hwf. apply andb_true_iff in Hwf. destruct Hwf as [Hi Hr].
    unfold itemsTokens, itemsLiterals in *.
    cbn [flat_map itemsAst length] in *.
    rewrite length_app in Hfuel. rewrite <- app_assoc.
    destruct fuel as [|fuel]; [lia|].
    destruct (item_shape i Hi) as (t & ts & Ei & Ht).
    assert (Hlen : (1 <= length (itemTokens i))%nat)
      by (rewrite Ei; cbn [length]; lia).
    rewrite programLoop_turn
      by (rewrite Ei; cbn [app]; rewrite curTokenIs_at; apply eqb_neq;
          exact Ht).
    rewrite item_runs by (try assumption; lia).
    cbn [errors stateAt length Nat.ltb Nat.leb]. rewrite nextToken_cons.
    rewrite IH by (try assumption; lia).
    unfold appendTopLevel, append.
    cbn [ast.TopLevelStatements ast.Texts Nat.sub].
    rewrite length_app, <- !app_assoc. reflexivity.
Qed.

Lemma items_length items :
  forallb wfItem items = true ->
  (length items <= length (itemsTokens items))%nat.
Proof.
  induction items as [|i items IH]; [reflexivity|]. cbn [forallb].
  rewrite andb_true_iff. intros [Hi Hr]. unfold itemsTokens in *.
  cbn [flat_map length]. rewrite length_app.
  destruct (item_shape i Hi) as (t & ts & -> & _). cbn [length].
  specialize (IH Hr). lia.
Qed.

(** [ParseProgram] on a fresh parser whose input starts with items. *)
Lemma ParseProgram_items items rest e fuel :
  forallb wfItem items = true ->
  (length (itemsTokens items) + 2 <= fuel)%nat ->
  ParseProgram fuel (New (lexer.mkLexer (itemsTokens items ++ rest) e)) =
  match
    programLoop (fuel - length items)
      (ast.mkProgram (itemsAst 0 items) [])
      (stateAt e rest [] (itemsLiterals items))
  with
  | None => None
  | Some (None, p1) => Some (None, p1)
  | Some (Some program, p1) =>
    Some (Some (appendImplicitTexts 0 (implicitTexts p1) program), p1)
  end.
Proof.
  intros Hwf Hfuel. rewrite New_stateAt. unfold ParseProgram.
  cbn [lexer.eofLine lexer.input].
  match goal with
  | |- context [setImplicitTexts [] (stateAt e ?x [] [])] =>
    change (setImplicitTexts [] (stateAt e x [] [])) with (stateAt e x [] [])
  end.
  rewrite programLoop_items by assumption. reflexivity.
Qed.

(** [ParseProgram] on the tokens of a well-formed source. *)
Lemma ParseProgram_source items e fuel :
  forallb wfItem items = true ->
  (length (itemsTokens items) + 2 <= fuel)%nat ->
  ParseProgram fuel (New (lexer.mkLexer (itemsTokens items) e)) =
  Some (Some (ast.mkProgram (itemsAst 0 items)
                (labelled 0 (itemsLiterals items))),
        stateAt e [] [] (itemsLiterals items)).
Proof.
  intros Hwf Hfuel.
  pose proof (ParseProgram_items items [] e fuel Hwf Hfuel) as H.
  rewrite app_nil_r in H. rewrite H.
  rewrite programLoop_exit by reflexivity. cbn [implicitTexts stateAt].
  rewrite (appendImplicitTexts_labelled _ 0%nat). reflexivity.
Qed.

End accept.

(** ** The line numbers of the messages *)
Module trace.

Import token parser stream spec facts frame origin.

Lemma nextToken_at e toks errs txts :
  nextToken (stateAt e toks errs txts) = stateAt e (tl toks) errs txts.
Proof. destruct toks; [apply nextToken_nil|apply nextToken_cons]. Qed.

Lemma nextToken_set_at e toks errs txts v :
  nextToken (setImplicitTexts v (stateAt e toks errs txts)) =
  stateAt e (tl toks) errs v.
Proof. destruct toks; [reflexivity|apply nextToken_set_cons]. Qed.

Lemma expectPeek_at t e toks errs txts :
  expectPeek t (stateAt e toks errs txts) =
  if token.eqb (Type_ (hd (eofTok e) (tl toks))) t then
    (true, stateAt e (tl toks) errs txts)
  else
    (false,
     stateAt e toks
       (errs ++ [peekErrorMsg t (Type_ (hd (eofTok e) (tl toks)))]) txts).
Proof.
  unfold expectPeek, peekTokenIs. cbn [peekToken stateAt].
  destruct (token.eqb _ t); [rewrite nextToken_at|]; reflexivity.
Qed.

Lemma some_eq {A : Type} (a b : A) : Some a = Some b -> a = b.
Proof. congruence. Qed.

Lemma skipn_tl {A : Type} k (xs : list A) : tl (skipn k xs) = skipn (S k) xs.
Proof. rewrite <- (skipn_skipn 1 k). destruct (skipn k xs); reflexivity. Qed.

Section Trace.

Variables (e : Z) (ts0 : list Token).

Lemma hd_firstn j :
  forall k (ts : list Token),
    (j < k)%nat -> (j < length ts)%nat ->
    In (hd (eofTok e) (skipn j ts)) (firstn k ts).
Proof.
  induction j as [|j IH]; intros [|k] [|t ts] Hk Hlen; cbn [length] in *;
    try lia.
  - left. reflexivity.
  - right. apply IH; lia.
Qed.

Lemma firstn_more (t : Token) :
  forall k k' (ts : list Token),
    (k <= k')%nat -> In t (firstn k ts) -> In t (firstn k' ts).
Proof.
  induction k as [|k IH]; intros [|k'] [|x ts] Hk H; cbn [firstn] in *;
    try contradiction; try lia.
  destruct H as [H|H]; [left; exact H|right]. apply (IH k'); [lia|exact H].
Qed.

(** The token at position [j] has been seen at position [k] when [j] is at
    most the position of the peeked token. *)
Lemma seen_hd j k :
  (j <= S k)%nat -> In (hd (eofTok e) (skipn j ts0)) (seen e ts0 k).
Proof.
  intros Hj. unfold seen, peeked. apply in_or_app.
  destruct (Nat.eq_dec j k) as [->|Hne]; [right; left; reflexivity|].
  destruct (Nat.eq_dec j (S k)) as [->|Hne'].
  { right. right. left. rewrite skipn_tl. reflexivity. }
  destruct (Nat.lt_ge_cases j (length ts0)) as [Hlen|Hlen].
  - left. apply hd_firstn; lia.
  - right. left. rewrite !skipn_all2 by lia. reflexivity.
Qed.

Lemma seen_mono k k' t :
  (k <= k')%nat -> In t (seen e ts0 k) -> In t (seen e ts0 k').
Proof.
  intros Hk H. unfold seen at 1 in H. apply in_app_or in H.
  destruct H as [H|[H|[H|[]]]].
  - unfold seen. apply in_or_app. left. apply (firstn_more t k); assumption.
  - subst t. apply seen_hd. lia.
  - subst t. rewrite skipn_tl. apply seen_hd. lia.
Qed.

Lemma located_mono k k' msg :
  (k <= k')%nat -> located (seen e ts0 k) msg -> located (seen e ts0 k') msg.
Proof.
  intros Hk [H|(t & Ht & H)]; [left; exact H|].
  right. exists t. split; [eapply seen_mono; eassumption|exact H].
Qed.

Lemma reaches_here k errs txts :
  reaches e ts0 k errs (stateAt e (skipn k ts0) errs txts).
Proof.
  exists k, [], txts. rewrite app_nil_r. auto.
Qed.

Lemma reaches_at k k' errs new txts :
  (k <= k')%nat -> Forall (located (seen e ts0 k')) new ->
  reaches e ts0 k errs (stateAt e (skipn k' ts0) (errs ++ new) txts).
Proof. intros Hk H. exists k', new, txts. auto. Qed.

(** From [k] to [k1] with the errors [new1], and on from there. *)
Lemma reaches_chain k k1 errs new1 p' :
  (k <= k1)%nat -> Forall (located (seen e ts0 k1)) new1 ->
  reaches e ts0 k1 (errs ++ new1) p' -> reaches e ts0 k errs p'.
Proof.
  intros Hk H1 (k' & new & txts' & Hk' & -> & H).
  exists k', (new1 ++ new), txts'. rewrite app_assoc.
  split; [lia|]. split; [reflexivity|].
  apply Forall_app. split; [|exact H].
  eapply Forall_impl; [|exact H1]. intros msg. apply located_mono. exact Hk'.
Qed.

Lemma reaches_later k k1 errs p' :
  (k <= k1)%nat -> reaches e ts0 k1 errs p' -> reaches e ts0 k errs p'.
Proof.
  intros Hk H. apply (reaches_chain k k1 errs []); auto.
  rewrite app_nil_r. exact H.
Qed.

(** A message with the line of a token that has been seen. *)
Lemma located_line k t rest :
  In t (seen e ts0 k) ->
  located (seen e ts0 k)
    ("line " ++ fmt_d (LineNumber t) ++ ": " ++ rest)%string.
Proof. intros H. right. exists t. split; [exact H|]. exists rest. reflexivity. Qed.

Lemma located_peek k expected got :
  located (seen e ts0 k) (peekErrorMsg expected got).
Proof. left. exists expected, got. reflexivity. Qed.


Lemma reaches_error k k' errs msg txts :
  (k <= k')%nat -> located (seen e ts0 k') msg ->
  reaches e ts0 k errs (stateAt e (skipn k' ts0) (errs ++ [msg]) txts).
Proof.
  intros Hk H. apply reaches_at; [exact Hk|].
  apply Forall_cons; [exact H|apply Forall_nil].
Qed.

Lemma reaches_errors k k' errs msg1 msg2 txts :
  (k <= k')%nat ->
  located (seen e ts0 k') msg1 -> located (seen e ts0 k') msg2 ->
  reaches e ts0 k errs
    (stateAt e (skipn k' ts0) ((errs ++ [msg1]) ++ [msg2]) txts).
Proof.
  intros Hk H1 H2. rewrite <- app_assoc. apply reaches_at; [exact Hk|].
  apply Forall_cons; [exact H1|].
  apply Forall_cons; [exact H2|apply Forall_nil].
Qed.

Lemma reaches_moved k k' errs txts :
  (k <= k')%nat -> reaches e ts0 k errs (stateAt e (skipn k' ts0) errs txts).
Proof. intros Hk. apply (reaches_later k k'); [exact Hk|apply reaches_here]. Qed.

(** The token named by a message has been seen. *)
Ltac token_seen :=
  cbn [curToken peekToken stateAt]; rewrite ?skipn_tl;
  first
    [ apply seen_hd; lia
    | match goal with
      | H : In ?t (seen _ _ ?k) |- In ?t (seen _ _ _) =>
        apply (seen_mono k); [lia|exact H]
      end ].

(** The message of an error is located. *)
Ltac site :=
  first
    [ apply located_peek
    | refine (or_intror (ex_intro _ _ (conj _ (ex_intro _ _ eq_refl))));
      token_seen ].

(** The parser has stopped at a position that is known. *)
Ltac stopped :=
  rewrite ?addError_at, ?nextToken_at, ?skipn_tl;
  first
    [ apply reaches_here
    | apply reaches_moved; lia
    | apply reaches_error; [lia|site]
    | apply reaches_errors; [lia|site|site] ].

Lemma ret_some {A : Type} k errs (a r : A) (b p' : Parser) :
  Some (a, b) = Some (r, p') ->
  reaches e ts0 k errs b -> reaches e ts0 k errs p'.
Proof. intros H. inversion H. auto. Qed.

Lemma ret_pair {A : Type} k errs (a r : A) (b p' : Parser) :
  (a, b) = (r, p') -> reaches e ts0 k errs b -> reaches e ts0 k errs p'.
Proof. intros H. inversion H. auto. Qed.

Ltac returned H :=
  first [apply (ret_some _ _ _ _ _ _ H)|apply (ret_pair _ _ _ _ _ _ H)];
  stopped.

Lemma track_commandArgs fuel :
  forall command argParts depth k errs txts r p',
    In (ast.Command_Token command) (seen e ts0 k) ->
    commandArgs fuel command argParts depth
      (stateAt e (skipn k ts0) errs txts) = Some (r, p') ->
    reaches e ts0 k errs p'.
Proof.
  induction fuel as [|fuel IH];
    intros command argParts depth k errs txts r p' Hc H;
    cbn [commandArgs] in H.
  - destruct (curTokenIs _ RPAREN && (depth =? 0)%Z); [returned H|].
    discriminate.
  - destruct (curTokenIs _ RPAREN && (depth =? 0)%Z); [returned H|].
    destruct (curTokenIs _ EOF).
    { unfold missingParenMsg in H. returned H. }
    destruct (Type_ (curToken _));
      rewrite ?nextToken_set_at, ?nextToken_at, skipn_tl in H;
      apply IH in H;
      try (apply (reaches_later k (S k)); [lia|exact H]);
      cbn [appendArg ast.Command_Token]; token_seen.
Qed.


(** Go on from the parser that the call [E] has returned. *)
Ltac after E :=
  let k2 := fresh "k" in
  let new := fresh "new" in
  let txts2 := fresh "txts" in
  let Hk := fresh "Hk" in
  let Hnew := fresh "Hnew" in
  destruct E as (k2 & new & txts2 & Hk & -> & Hnew);
  match goal with
  | |- reaches _ _ ?k ?errs _ =>
    apply (reaches_chain k k2 errs new); [lia|exact Hnew|]
  end.

Lemma track_parseCommandStatement fuel k errs txts r p' :
  parseCommandStatement fuel (stateAt e (skipn k ts0) errs txts) =
  Some (r, p') ->
  reaches e ts0 k errs p'.
Proof.
  unfold parseCommandStatement. intros H.
  destruct (peekTokenIs _ LPAREN); [|returned H].
  rewrite !nextToken_at, !skipn_tl in H.
  destruct (commandArgs _ _ _ _ _) as [[res p2]|] eqn:E; [|discriminate].
  apply track_commandArgs in E;
    [|cbn [ast.Command_Token curToken stateAt]; apply seen_hd; lia].
  apply (reaches_later k (S (S k))); [lia|].
  destruct res as [[c parts]|]; [destruct (0 <? length parts)%nat|];
    inversion H; subst; exact E.
Qed.

Lemma track_collectParts fuel :
  forall parts k errs txts r p',
    collectParts fuel parts (stateAt e (skipn k ts0) errs txts) =
    Some (r, p') ->
    exists k' txts',
      (k <= k')%nat /\ p' = stateAt e (skipn k' ts0) errs txts'.
Proof.
  induction fuel as [|fuel IH]; intros parts k errs txts r p' H;
    cbn [collectParts] in H.
  - destruct (negb (curTokenIs _ RPAREN)); inversion H; subst. eauto.
  - destruct (negb (curTokenIs _ RPAREN)); [|inversion H; subst; eauto].
    rewrite nextToken_at, skipn_tl in H. apply IH in H.
    destruct H as (k' & txts' & Hk & ->). exists k', txts'. split; [lia|].
    reflexivity.
Qed.

Lemma track_parseIfVarOperator fuel expression k errs txts r p' :
  parseIfVarOperator fuel expression (stateAt e (skipn k ts0) errs txts) =
  Some (r, p') ->
  reaches e ts0 k errs p'.
Proof.
  unfold parseIfVarOperator. intros H.
  destruct (negb (isRelational _)); [returned H|].
  rewrite nextToken_at, skipn_tl in H.
  destruct (curTokenIs _ RPAREN); [returned H|].
  destruct (collectParts _ _ _) as [[parts p2]|] eqn:E; [|discriminate].
  apply track_collectParts in E. destruct E as (k2 & txts2 & Hk2 & ->).
  rewrite expectPeek_at in H.
  destruct (token.eqb _ LBRACE); cbn [negb] in H; returned H.
Qed.

Lemma track_parseIfFlagOperator expression k errs txts r p' :
  parseIfFlagOperator expression (stateAt e (skipn k ts0) errs txts) =
  (r, p') ->
  reaches e ts0 k errs p'.
Proof.
  unfold parseIfFlagOperator. intros H.
  destruct (negb (curTokenIs _ EQ)); [returned H|].
  rewrite nextToken_at, skipn_tl in H.
  destruct (curTokenIs _ RPAREN); [returned H|].
  destruct (negb (curTokenIs _ TRUE) && negb (curTokenIs _ FALSE));
    [returned H|].
  rewrite expectPeek_at in H.
  destruct (token.eqb _ RPAREN); cbn [negb] in H; [|returned H].
  rewrite expectPeek_at in H.
  destruct (token.eqb _ LBRACE); cbn [negb] in H; returned H.
Qed.

Lemma track_parseRawStatement k errs txts r p' :
  parseRawStatement (stateAt e (skipn k ts0) errs txts) = (r, p') ->
  reaches e ts0 k errs p'.
Proof.
  unfold parseRawStatement. intros H. rewrite expectPeek_at in H.
  destruct (token.eqb _ IDENT); cbn [negb] in H; [|returned H].
  rewrite expectPeek_at in H.
  destruct (token.eqb _ RAWSTRING); cbn [negb] in H; returned H.
Qed.

(** *** The mutually recursive functions *)

Definition blockTracked (n : nat) : Prop :=
  forall k errs txts r p',
    parseBlockStatement n (stateAt e (skipn k ts0) errs txts) = Some (r, p') ->
    reaches e ts0 k errs p'.

Definition loopTracked (n : nat) : Prop :=
  forall block k errs txts r p',
    In (ast.Block_Token block) (seen e ts0 k) ->
    blockLoop n block (stateAt e (skipn k ts0) errs txts) = Some (r, p') ->
    reaches e ts0 k errs p'.

Definition statementTracked (n : nat) : Prop :=
  forall k errs txts r p',
    parseStatement n (stateAt e (skipn k ts0) errs txts) = Some (r, p') ->
    reaches e ts0 k errs p'.

Definition ifTracked (n : nat) : Prop :=
  forall k errs txts r p',
    parseIfStatement n (stateAt e (skipn k ts0) errs txts) = Some (r, p') ->
    reaches e ts0 k errs p'.

Definition elifTracked (n : nat) : Prop :=
  forall elifs k errs txts r p',
    elifLoop n elifs (stateAt e (skipn k ts0) errs txts) = Some (r, p') ->
    reaches e ts0 k errs p'.

Definition conditionTracked (n : nat) : Prop :=
  forall t0 k errs txts r p',
    In t0 (seen e ts0 k) ->
    parseIfConditionExpression n (LineNumber t0)
      (stateAt e (skipn k ts0) errs txts) = Some (r, p') ->
    reaches e ts0 k errs p'.

Section Step.

Variable fuel : nat.
Hypothesis IHblock : blockTracked fuel.
Hypothesis IHloop : loopTracked fuel.
Hypothesis IHstmt : statementTracked fuel.
Hypothesis IHif : ifTracked fuel.
Hypothesis IHelif : elifTracked fuel.
Hypothesis IHcond : conditionTracked fuel.

Lemma block_tracked : blockTracked (S fuel).
Proof.
  intros k errs txts r p' H. cbn [parseBlockStatement] in H.
  apply IHloop in H; [exact H|].
  cbn [ast.Block_Token curToken stateAt]. apply seen_hd. lia.
Qed.

Lemma loop_tracked : loopTracked (S fuel).
Proof.
  intros block k errs txts r p' Hb H. cbn [blockLoop] in H.
  destruct (negb (curTokenIs _ RBRACE)); [|returned H].
  destruct (curTokenIs _ EOF); [returned H|].
  destruct (parseStatement fuel _) as [[statement p1]|] eqn:E;
    [|discriminate].
  apply IHstmt in E. after E.
  destruct statement as [s|]; [|returned H].
  rewrite nextToken_at, skipn_tl in H. apply IHloop in H.
  - apply (reaches_later k0 (S k0)); [lia|exact H].
  - cbn [appendStatement ast.Block_Token]. token_seen.
Qed.

Lemma statement_tracked : statementTracked (S fuel).
Proof.
  intros k errs txts r p' H. cbn [parseStatement] in H.
  destruct (Type_ (curToken _)); try (returned H).
  - destruct (parseCommandStatement fuel _) as [[statement p1]|] eqn:E;
      [|discriminate].
    apply track_parseCommandStatement in E.
    destruct statement; inversion H; subst; exact E.
  - destruct (parseIfStatement fuel _) as [[statement p1]|] eqn:E;
      [|discriminate].
    apply IHif in E. destruct statement; inversion H; subst; exact E.
Qed.


Lemma cond_tracked : conditionTracked (S fuel).
Proof.
  intros t0 k errs txts r p' Ht0 H. cbn [parseIfConditionExpression] in H.
  destruct (negb (peekTokenIs _ VAR) && negb (peekTokenIs _ FLAG));
    [returned H|].
  rewrite nextToken_at, skipn_tl, expectPeek_at, skipn_tl in H.
  destruct (token.eqb _ LPAREN); cbn [negb] in H; [|returned H].
  destruct (token.eqb (Type_ (peekToken _)) RPAREN); [returned H|].
  rewrite nextToken_at, skipn_tl in H.
  destruct (collectParts _ _ _) as [[parts p4]|] eqn:E; [|discriminate].
  apply track_collectParts in E. destruct E as (k4 & txts4 & Hk4 & ->).
  rewrite nextToken_at, skipn_tl in H.
  match type of H with
  | match ?o with _ => _ end = _ =>
    destruct o as [[[ok expression'] p6]|] eqn:Eo
  end; [|discriminate].
  assert (E6 : reaches e ts0 (S k4) errs p6).
  { destruct (token.eqb _ VAR).
    - apply track_parseIfVarOperator in Eo. exact Eo.
    - destruct (token.eqb _ FLAG).
      + apply some_eq, track_parseIfFlagOperator in Eo. exact Eo.
      + apply (ret_some _ _ _ _ _ _ Eo). apply reaches_here. }
  apply (reaches_later k (S k4)); [lia|]. after E6.
  destruct ok; [|returned H].
  destruct (parseBlockStatement fuel _) as [[body p7]|] eqn:Eb;
    [|discriminate].
  apply IHblock in Eb. apply (ret_some _ _ _ _ _ _ H). exact Eb.
Qed.

Lemma elif_tracked : elifTracked (S fuel).
Proof.
  intros elifs k errs txts r p' H. cbn [elifLoop] in H.
  destruct (peekTokenIs _ ELSEIF); [|returned H].
  rewrite nextToken_at, skipn_tl, expectPeek_at, skipn_tl in H.
  destruct (token.eqb _ LPAREN); cbn [negb] in H; [|returned H].
  destruct (parseIfConditionExpression fuel _ _) as [[consequence p3]|] eqn:E;
    [|discriminate].
  apply IHcond in E; [|token_seen].
  apply (reaches_later k (S (S k))); [lia|]. after E.
  destruct consequence as [c|]; [|returned H].
  apply IHelif in H. exact H.
Qed.

Lemma if_tracked : ifTracked (S fuel).
Proof.
  intros k errs txts r p' H. cbn [parseIfStatement] in H.
  rewrite expectPeek_at, skipn_tl in H.
  destruct (token.eqb _ LPAREN); cbn [negb] in H; [|returned H].
  destruct (parseIfConditionExpression fuel _ _) as [[consequence p2]|] eqn:E;
    [|discriminate].
  apply IHcond in E; [|token_seen].
  apply (reaches_later k (S k)); [lia|]. after E.
  destruct consequence as [c|]; [|returned H].
  destruct (elifLoop fuel [] _) as [[elifs p3]|] eqn:Ee; [|discriminate].
  apply IHelif in Ee. after Ee.
  destruct elifs as [es|]; [|returned H].
  destruct (peekTokenIs _ ELSE); [|returned H].
  rewrite nextToken_at, skipn_tl, expectPeek_at, skipn_tl in H.
  destruct (token.eqb _ LBRACE); cbn [negb] in H; [|returned H].
  rewrite nextToken_at, skipn_tl in H.
  destruct (parseBlockStatement fuel _) as [[body p6]|] eqn:Eb;
    [|discriminate].
  apply IHblock in Eb. apply (ret_some _ _ _ _ _ _ H).
  apply (reaches_later k1 (S (S (S k1)))); [lia|exact Eb].
Qed.

End Step.

Lemma tracked_mutual fuel :
  blockTracked fuel /\ loopTracked fuel /\ statementTracked fuel /\
  ifTracked fuel /\ elifTracked fuel /\ conditionTracked fuel.
Proof.
  induction fuel
    as [|fuel (IHblock & IHloop & IHstmt & IHif & IHelif & IHcond)].
  - refine (conj _ (conj _ (conj _ (conj _ (conj _ _)))));
      try (intros k errs txts r p' H; discriminate H).
    + intros block k errs txts r p' _ H. cbn [blockLoop] in H.
      destruct (negb (curTokenIs _ RBRACE)); [discriminate|returned H].
    + intros elifs k errs txts r p' H. cbn [elifLoop] in H.
      destruct (peekTokenIs _ ELSEIF); [discriminate|returned H].
    + intros t0 k errs txts r p' _ H. discriminate H.
  - refine (conj _ (conj _ (conj _ (conj _ (conj _ _))))).
    + apply block_tracked; assumption.
    + apply loop_tracked; assumption.
    + apply statement_tracked; assumption.
    + apply if_tracked; assumption.
    + apply elif_tracked; assumption.
    + apply cond_tracked; assumption.
Qed.

Lemma track_parseScriptStatement fuel k errs txts r p' :
  parseScriptStatement fuel (stateAt e (skipn k ts0) errs txts) =
  Some (r, p') ->
  reaches e ts0 k errs p'.
Proof.
  unfold parseScriptStatement. intros H. rewrite expectPeek_at, skipn_tl in H.
  destruct (token.eqb _ IDENT); cbn [negb] in H; [|returned H].
  rewrite expectPeek_at, skipn_tl in H.
  destruct (token.eqb _ LBRACE); cbn [negb] in H; [|returned H].
  rewrite nextToken_at, skipn_tl in H.
  destruct (parseBlockStatement fuel _) as [[body p4]|] eqn:Eb;
    [|discriminate].
  apply (proj1 (tracked_mutual fuel)) in Eb.
  apply (ret_some _ _ _ _ _ _ H).
  apply (reaches_later k (S (S (S k)))); [lia|exact Eb].
Qed.

Lemma track_parseTopLevelStatement fuel k errs txts r p' :
  parseTopLevelStatement fuel (stateAt e (skipn k ts0) errs txts) =
  Some (r, p') ->
  reaches e ts0 k errs p'.
Proof.
  unfold parseTopLevelStatement. intros H.
  assert (Hraw :
    match parseRawStatement (stateAt e (skipn k ts0) errs txts) with
    | (None, p1) => Some (None, p1)
    | (Some statement, p1) => Some (Some (ast.Raw statement), p1)
    end = Some (r, p') ->
    reaches e ts0 k errs p').
  { clear H. intros H.
    destruct (parseRawStatement _) as [raw p1] eqn:E.
    apply track_parseRawStatement in E.
    destruct raw; inversion H; subst; exact E. }
  destruct (Type_ (curToken _)); try (apply Hraw; exact H);
    try (returned H).
  destruct (parseScriptStatement fuel _) as [[statement p1]|] eqn:E;
    [|discriminate].
  apply track_parseScriptStatement in E.
  destruct statement; inversion H; subst; exact E.
Qed.

End Trace.

(** A top-level statement entered on [ts]: the parser it returns stands on
    a suffix [rest] of [ts], and the messages it has added are located in
    the tokens of [ts] up to the token peeked there. *)
Lemma parseTopLevelStatement_located fuel e ts errs txts r p' :
  parseTopLevelStatement fuel (stateAt e ts errs txts) = Some (r, p') ->
  exists more rest new txts',
    ts = more ++ rest /\
    p' = stateAt e rest (errs ++ new) txts' /\
    Forall (located (more ++ peeked e rest)) new.
Proof.
  intros H.
  apply (track_parseTopLevelStatement e ts fuel 0) in H.
  destruct H as (k & new & txts' & _ & -> & Hnew).
  exists (firstn k ts), (skipn k ts), new, txts'.
  rewrite firstn_skipn. auto.
Qed.

(** The loop of [ParseProgram], entered without errors on [ts]: it returns
    without errors, or with the parser that one call of
    [parseTopLevelStatement] has returned, a call entered without errors
    on a suffix of [ts]. *)
Lemma programLoop_last_call fuel :
  forall program e ts txts r p',
    programLoop fuel program (stateAt e ts [] txts) = Some (r, p') ->
    exists before after,
      ts = before ++ after /\
      ((exists txts', p' = stateAt e after [] txts') \/
       (errors p' <> [] /\
        exists f txts0 st,
          parseTopLevelStatement f (stateAt e after [] txts0) =
          Some (st, p'))).
Proof.
  induction fuel as [|fuel IH]; intros program e ts txts r p' H;
    cbn [programLoop] in H.
  - destruct (negb (curTokenIs _ EOF)); inversion H; subst.
    exists [], ts. eauto.
  - destruct (negb (curTokenIs _ EOF));
      [|inversion H; subst; exists [], ts; eauto].
    destruct (parseTopLevelStatement fuel _) as [[statement p1]|] eqn:E;
      [|discriminate].
    destruct (errors p1) as [|m ms] eqn:E1; cbn in H.
    + apply parseTopLevelStatement_located in E.
      destruct E as (more & rest & new & txts' & -> & -> & _).
      cbn [errors stateAt app] in E1. subst new.
      rewrite nextToken_at in H. apply IH in H.
      destruct H as (before & after & Hts & H).
      exists (more ++ firstn 1 rest ++ before), after. split; [|exact H].
      rewrite <- !app_assoc, <- Hts.
      destruct rest; reflexivity.
    + inversion H; subst. exists [], ts. split; [reflexivity|]. right.
      split; [rewrite E1; discriminate|eauto].
Qed.

End trace.

(** ** Nil results are never silent *)
Module quiet.

Import token parser stream spec facts frame command program condition.
Import complete.

Lemma extends_length p p' :
  extends p p' -> (length (errors p) <= length (errors p'))%nat.
Proof. intros [[errs [-> _]] _]. rewrite length_app. lia. Qed.

Lemma addError_length msg p :
  length (errors (addError msg p)) = S (length (errors p)).
Proof.
  unfold addError, setErrors, append. cbn [errors].
  rewrite length_app. cbn [length]. lia.
Qed.

Lemma expectPeek_length t p ok p' :
  expectPeek t p = (ok, p') ->
  length (errors p') =
  (if ok then length (errors p) else S (length (errors p))).
Proof.
  unfold expectPeek. destruct (peekTokenIs p t); intros H; inversion H; subst.
  - rewrite nextToken_errors. reflexivity.
  - apply addError_length.
Qed.

(** The argument loop returns nil only with a new error. *)
Lemma commandArgs_loud fuel :
  forall command argParts depth p p',
    commandArgs fuel command argParts depth p = Some (None, p') ->
    (length (errors p) < length (errors p'))%nat.
Proof.
  induction fuel as [|fuel IH]; intros command argParts depth p p' H;
    simpl in H.
  - destruct (curTokenIs p RPAREN && (depth =? 0)%Z); discriminate.
  - destruct (curTokenIs p RPAREN && (depth =? 0)%Z); [discriminate|].
    destruct (curTokenIs p EOF).
    + inversion H; subst. rewrite addError_length. lia.
    + destruct (Type_ (curToken p)); apply IH in H;
        rewrite nextToken_errors in H; exact H.
Qed.

Lemma parseCommandStatement_loud fuel p p' :
  parseCommandStatement fuel p = Some (None, p') ->
  (length (errors p) < length (errors p'))%nat.
Proof.
  unfold parseCommandStatement. intros H.
  destruct (peekTokenIs p LPAREN); [|discriminate].
  destruct (commandArgs _ _ _ _ _) as [[[[c parts]|] p2]|] eqn:E;
    try discriminate.
  - destruct (0 <? length parts)%nat; discriminate.
  - inversion H; subst. apply commandArgs_loud in E.
    rewrite !nextToken_errors in E. exact E.
Qed.

Lemma parseIfVarOperator_loud fuel expression p expression' p' :
  parseIfVarOperator fuel expression p = Some ((false, expression'), p') ->
  (length (errors p) < length (errors p'))%nat.
Proof.
  unfold parseIfVarOperator. intros H.
  destruct (negb (isRelational (Type_ (curToken p)))).
  { inversion H; subst. rewrite addError_length. lia. }
  destruct (curTokenIs (nextToken p) RPAREN).
  { inversion H; subst. rewrite addError_length, nextToken_errors. lia. }
  destruct (collectParts fuel [] (nextToken p)) as [[parts p2]|] eqn:E;
    [|discriminate].
  apply frames_collectParts, extends_length in E.
  rewrite nextToken_errors in E.
  destruct (expectPeek LBRACE p2) as [ok p3] eqn:Ep.
  apply expectPeek_length in Ep.
  destruct ok; cbn [negb] in H; inversion H; subst. lia.
Qed.

Lemma parseIfFlagOperator_loud expression p expression' p' :
  parseIfFlagOperator expression p = ((false, expression'), p') ->
  (length (errors p) < length (errors p'))%nat.
Proof.
  unfold parseIfFlagOperator. intros H.
  destruct (negb (curTokenIs p EQ)).
  { inversion H; subst. rewrite addError_length. lia. }
  destruct (curTokenIs (nextToken p) RPAREN).
  { inversion H; subst. rewrite addError_length, nextToken_errors. lia. }
  destruct (negb (curTokenIs (nextToken p) TRUE)
            && negb (curTokenIs (nextToken p) FALSE)).
  { inversion H; subst. rewrite addError_length, nextToken_errors. lia. }
  destruct (expectPeek RPAREN (nextToken p)) as [ok p2] eqn:E2.
  apply expectPeek_length in E2. rewrite nextToken_errors in E2.
  destruct ok; cbn [negb] in H; [|inversion H; subst; lia].
  destruct (expectPeek LBRACE p2) as [ok p3] eqn:E3.
  apply expectPeek_length in E3.
  destruct ok; cbn [negb] in H; inversion H; subst. lia.
Qed.

Lemma parseRawStatement_loud p p' :
  parseRawStatement p = (None, p') ->
  (length (errors p) < length (errors p'))%nat.
Proof.
  unfold parseRawStatement. intros H.
  destruct (expectPeek IDENT p) as [ok p1] eqn:E1.
  apply expectPeek_length in E1.
  destruct ok; cbn [negb] in H; [|inversion H; subst; lia].
  destruct (expectPeek RAWSTRING p1) as [ok p2] eqn:E2.
  apply expectPeek_length in E2.
  destruct ok; cbn [negb] in H; inversion H; subst. lia.
Qed.

Lemma parseRawStatement_name p r p' :
  parseRawStatement p = (Some r, p') -> ast.Raw_Name r <> None.
Proof.
  unfold parseRawStatement. intros H.
  destruct (expectPeek IDENT p) as [[|] p1]; cbn [negb] in H;
    [|discriminate].
  destruct (expectPeek RAWSTRING p1) as [[|] p2]; cbn [negb] in H;
    [|discriminate].
  inversion H; subst. discriminate.
Qed.

(** [q] holds no more errors than [p]: nothing was reported on the way
    from [p] to [q]. *)
Definition quietly (p q : Parser) : Prop :=
  (length (errors q) <= length (errors p))%nat.

Section Quiet.

Variable fuel : nat.

Definition blockQuiet (n : nat) : Prop :=
  forall p r p',
    parseBlockStatement n p = Some (r, p') -> quietly p p' ->
    exists b, r = Some b /\ blockOk b = true.

Definition loopQuiet (n : nat) : Prop :=
  forall block p r p',
    blockOk block = true ->
    blockLoop n block p = Some (r, p') -> quietly p p' ->
    exists b, r = Some b /\ blockOk b = true.

Definition statementQuiet (n : nat) : Prop :=
  forall p r p',
    parseStatement n p = Some (r, p') -> quietly p p' ->
    exists s, r = Some s /\ statementOk s = true.

Definition ifQuiet (n : nat) : Prop :=
  forall p r p',
    parseIfStatement n p = Some (r, p') -> quietly p p' ->
    exists i, r = Some i /\ ifOk i = true.

Definition elifQuiet (n : nat) : Prop :=
  forall elifs p r p',
    forallb conditionOk elifs = true ->
    elifLoop n elifs p = Some (r, p') -> quietly p p' ->
    exists es, r = Some es /\ forallb conditionOk es = true.

Definition conditionQuiet (n : nat) : Prop :=
  forall lineNumber p r p',
    parseIfConditionExpression n lineNumber p = Some (r, p') ->
    quietly p p' ->
    exists c, r = Some c /\ conditionOk c = true.

Hypothesis IHblock : blockQuiet fuel.
Hypothesis IHloop : loopQuiet fuel.
Hypothesis IHstmt : statementQuiet fuel.
Hypothesis IHif : ifQuiet fuel.
Hypothesis IHelif : elifQuiet fuel.
Hypothesis IHcond : conditionQuiet fuel.

Lemma block_step : blockQuiet (S fuel).
Proof.
  intros p r p' H Hq. cbn [parseBlockStatement] in H.
  eapply IHloop; [|exact H|exact Hq]. reflexivity.
Qed.

Lemma loop_step : loopQuiet (S fuel).
Proof.
  intros block p r p' Hb H Hq. unfold quietly in *. cbn [blockLoop] in H.
  destruct (negb (curTokenIs p RBRACE));
    [|inversion H; subst; eauto].
  destruct (curTokenIs p EOF).
  { inversion H; subst. rewrite addError_length in Hq. lia. }
  destruct (parseStatement fuel p) as [[statement p1]|] eqn:E;
    [|discriminate].
  pose proof (extends_length _ _ (frames_parseStatement _ _ _ _ E)) as L1.
  destruct statement as [s|].
  - pose proof (extends_length _ _
                  (proj1 (proj2 (frames_mutual fuel)) _ _ _ _ H)) as L2.
    rewrite nextToken_errors in L2.
    destruct (IHstmt _ _ _ E) as (s' & Es & Hs); [unfold quietly; lia|].
    inversion Es; subst s'.
    eapply IHloop; [|exact H|unfold quietly; rewrite nextToken_errors; lia].
    destruct block as [tok ss]. unfold appendStatement, append.
    cbn [blockOk ast.Block_Token ast.Statements] in *.
    rewrite forallb_app, Hb. cbn [forallb]. rewrite Hs. reflexivity.
  - inversion H; subst.
    destruct (IHstmt _ _ _ E Hq) as (s' & Es & _). discriminate.
Qed.

Lemma statement_step : statementQuiet (S fuel).
Proof.
  intros p r p' H Hq. unfold quietly in *. cbn [parseStatement] in H.
  destruct (Type_ (curToken p));
    try (inversion H; subst; rewrite addError_length in Hq; lia).
  - destruct (parseCommandStatement fuel p) as [[[c|] p1]|] eqn:E;
      try discriminate; inversion H; subst.
    + eexists. split; reflexivity.
    + apply parseCommandStatement_loud in E. lia.
  - destruct (parseIfStatement fuel p) as [[statement p1]|] eqn:E;
      [|discriminate].
    assert (Hq1 : quietly p p1)
      by (destruct statement; inversion H; subst; exact Hq).
    destruct (IHif p statement p1 E Hq1) as (i & -> & Hi).
    inversion H; subst. eexists. split; [reflexivity|exact Hi].
Qed.

Lemma elif_step : elifQuiet (S fuel).
Proof.
  intros elifs p r p' Hes H Hq. unfold quietly in *. cbn [elifLoop] in H.
  destruct (peekTokenIs p ELSEIF); [|inversion H; subst; eauto].
  destruct (expectPeek LPAREN (nextToken p)) as [ok p2] eqn:E2.
  apply expectPeek_length in E2. rewrite nextToken_errors in E2.
  destruct ok; cbn [negb] in H.
  2: { inversion H; subst. rewrite addError_length in Hq. lia. }
  destruct (parseIfConditionExpression fuel _ p2) as [[consequence p3]|] eqn:E;
    [|discriminate].
  pose proof (extends_length _ _
                (proj2 (proj2 (proj2 (proj2 (proj2 (frames_mutual fuel)))))
                   _ _ _ _ E)) as L1.
  destruct consequence as [c|].
  - pose proof (extends_length _ _
                  (proj1 (proj2 (proj2 (proj2 (proj2 (frames_mutual fuel)))))
                     _ _ _ _ H)) as L2.
    destruct (IHcond _ _ _ _ E) as (c' & Ec & Hc); [unfold quietly; lia|].
    inversion Ec; subst c'.
    eapply IHelif; [|exact H|unfold quietly; lia].
    unfold append. rewrite forallb_app, Hes. cbn [forallb]. rewrite Hc.
    reflexivity.
  - inversion H; subst.
    destruct (IHcond _ _ _ _ E) as (c' & Ec & _); [unfold quietly; lia|].
    discriminate.
Qed.

Lemma if_step : ifQuiet (S fuel).
Proof.
  intros p r p' H Hq. unfold quietly in *. cbn [parseIfStatement] in H.
  destruct (expectPeek LPAREN p) as [ok p1] eqn:E1.
  apply expectPeek_length in E1.
  destruct ok; cbn [negb] in H.
  2: { inversion H; subst. rewrite addError_length in Hq. lia. }
  destruct (parseIfConditionExpression fuel _ p1) as [[consequence p2]|] eqn:E;
    [|discriminate].
  pose proof (extends_length _ _
                (proj2 (proj2 (proj2 (proj2 (proj2 (frames_mutual fuel)))))
                   _ _ _ _ E)) as L1.
  destruct consequence as [c|].
  2: { inversion H; subst.
       destruct (IHcond _ _ _ _ E) as (c' & Ec & _); [unfold quietly; lia|].
       discriminate. }
  destruct (elifLoop fuel [] p2) as [[elifs p3]|] eqn:Ee; [|discriminate].
  pose proof (extends_length _ _
                (proj1 (proj2 (proj2 (proj2 (proj2 (frames_mutual fuel)))))
                   _ _ _ _ Ee)) as L2.
  destruct elifs as [es|].
  2: { inversion H; subst.
       destruct (IHelif [] _ _ _ eq_refl Ee) as (es' & Ees & _);
         [unfold quietly; lia|].
       discriminate. }
  destruct (peekTokenIs p3 ELSE).
  - destruct (expectPeek LBRACE (nextToken p3)) as [ok p5] eqn:E5.
    apply expectPeek_length in E5. rewrite nextToken_errors in E5.
    destruct ok; cbn [negb] in H.
    2: { inversion H; subst. rewrite addError_length in Hq. lia. }
    destruct (parseBlockStatement fuel (nextToken p5)) as [[body p6]|] eqn:Eb;
      [|discriminate].
    pose proof (extends_length _ _ (frames_parseBlockStatement _ _ _ _ Eb))
      as L3.
    rewrite nextToken_errors in L3.
    inversion H; subst.
    destruct (IHcond _ _ _ _ E) as (c' & Ec & Hc); [unfold quietly; lia|].
    inversion Ec; subst c'.
    destruct (IHelif [] _ _ _ eq_refl Ee) as (es' & Ees & Hes);
      [unfold quietly; lia|].
    inversion Ees; subst es'.
    destruct (IHblock _ _ _ Eb) as (b & -> & Hb);
      [unfold quietly; rewrite nextToken_errors; lia|].
    eexists. split; [reflexivity|]. cbn [ifOk]. rewrite Hc, Hes, Hb.
    reflexivity.
  - inversion H; subst.
    destruct (IHcond _ _ _ _ E) as (c' & Ec & Hc); [unfold quietly; lia|].
    inversion Ec; subst c'.
    destruct (IHelif [] _ _ _ eq_refl Ee) as (es' & Ees & Hes);
      [unfold quietly; lia|].
    inversion Ees; subst es'.
    eexists. split; [reflexivity|]. cbn [ifOk]. rewrite Hc, Hes.
    reflexivity.
Qed.

Lemma conditionOk_intro c b :
  (ast.Type_ c = VAR /\ isRelational (ast.Operator c) = true) \/
  (ast.Type_ c = FLAG /\ ast.Operator c = EQ /\
   (ast.ComparisonValue c = "TRUE"%string
    \/ ast.ComparisonValue c = "FALSE"%string)) ->
  ast.Body c = Some b -> blockOk b = true -> conditionOk c = true.
Proof.
  destruct c as [kind operand op value body].
  cbn [ast.Type_ ast.Operator ast.ComparisonValue ast.Body conditionOk].
  intros Hv -> ->. rewrite andb_true_r.
  destruct Hv as [[-> Hop] | [-> [-> [-> | ->]]]]; [exact Hop| |];
    reflexivity.
Qed.

Lemma cond_step : conditionQuiet (S fuel).
Proof.
  intros lineNumber p r p' H Hq. unfold quietly in *.
  pose proof H as H0. cbn [parseIfConditionExpression] in H.
  destruct (negb (peekTokenIs p VAR) && negb (peekTokenIs p FLAG)).
  { inversion H; subst. rewrite addError_length in Hq. lia. }
  destruct (expectPeek LPAREN (nextToken p)) as [ok p2] eqn:E2.
  apply expectPeek_length in E2. rewrite nextToken_errors in E2.
  destruct ok; cbn [negb] in H.
  2: { inversion H; subst. rewrite addError_length in Hq. lia. }
  destruct (token.eqb (Type_ (peekToken p2)) RPAREN).
  { inversion H; subst. rewrite addError_length in Hq. lia. }
  destruct (collectParts fuel [] (nextToken p2)) as [[parts p4]|] eqn:E4;
    [|discriminate].
  apply frames_collectParts, extends_length in E4.
  rewrite nextToken_errors in E4.
  assert (Hbody :
    forall expression p6 body p7,
      (length (errors p4) <= length (errors p6))%nat ->
      parseBlockStatement fuel p6 = Some (body, p7) ->
      r = Some (ast.setBody body expression) -> p' = p7 ->
      exists c, r = Some c /\ conditionOk c = true).
  { intros expression p6 body p7 L6 Eb -> ->.
    pose proof (extends_length _ _ (frames_parseBlockStatement _ _ _ _ Eb))
      as L7.
    destruct (IHblock _ _ _ Eb) as (b & -> & Hb); [unfold quietly; lia|].
    eexists. split; [reflexivity|].
    apply (conditionOk_intro _ b);
      [eapply cond_valid; exact H0|destruct expression; reflexivity|exact Hb]. }
  match type of H with
  | match ?o with _ => _ end = _ => destruct o as [[[ok e'] p6]|] eqn:Eo
  end; [|discriminate].
  destruct ok.
  - destruct (parseBlockStatement fuel p6) as [[body p7]|] eqn:Eb;
      [|discriminate].
    inversion H; subst r p'.
    apply (Hbody e' p6 body p7); try reflexivity; try assumption.
    destruct (token.eqb _ VAR) in Eo.
    + apply frames_parseIfVarOperator, extends_length in Eo.
      rewrite nextToken_errors in Eo. exact Eo.
    + destruct (token.eqb _ FLAG) in Eo; inversion Eo.
      * match goal with
        | E : parseIfFlagOperator _ _ = _ |- _ =>
          apply frames_parseIfFlagOperator, extends_length in E;
          rewrite nextToken_errors in E; exact E
        end.
      * subst. rewrite nextToken_errors. lia.
  - inversion H; subst r p'. exfalso.
    destruct (token.eqb _ VAR) in Eo.
    + apply parseIfVarOperator_loud in Eo.
      rewrite nextToken_errors in Eo. lia.
    + destruct (token.eqb _ FLAG) in Eo; inversion Eo.
      match goal with
      | E : parseIfFlagOperator _ _ = _ |- _ =>
        apply parseIfFlagOperator_loud in E;
        rewrite nextToken_errors in E; lia
      end.
Qed.

End Quiet.

(** Whatever the fuel, a parsing function that returns without a new
    error returns a complete node. *)
Lemma quiet_mutual fuel :
  blockQuiet fuel /\ loopQuiet fuel /\ statementQuiet fuel /\
  ifQuiet fuel /\ elifQuiet fuel /\ conditionQuiet fuel.
Proof.
  induction fuel
    as [|fuel (IHblock & IHloop & IHstmt & IHif & IHelif & IHcond)].
  - refine (conj _ (conj _ (conj _ (conj _ (conj _ _)))));
      try (intros p r p' H; discriminate H);
      try (intros x p r p' H; discriminate H).
    + intros block p r p' Hb H _. cbn [blockLoop] in H.
      destruct (negb (curTokenIs p RBRACE)); inversion H; subst; eauto.
    + intros elifs p r p' Hes H _. cbn [elifLoop] in H.
      destruct (peekTokenIs p ELSEIF); inversion H; subst; eauto.
  - refine (conj _ (conj _ (conj _ (conj _ (conj _ _))))).
    + apply block_step; assumption.
    + apply loop_step; assumption.
    + apply statement_step; assumption.
    + apply if_step; assumption.
    + apply elif_step; assumption.
    + apply cond_step; assumption.
Qed.


Lemma parseBlockStatement_quiet fuel : blockQuiet fuel.
Proof. apply quiet_mutual. Qed.

Lemma parseScriptStatement_quiet fuel p r p' :
  parseScriptStatement fuel p = Some (r, p') -> quietly p p' ->
  exists tok name b,
    r = Some (ast.mkScriptStatement tok name (Some b)) /\ blockOk b = true.
Proof.
  unfold parseScriptStatement, quietly. intros H Hq.
  destruct (expectPeek IDENT p) as [ok p1] eqn:E1.
  apply expectPeek_length in E1.
  destruct ok; cbn [negb] in H; [|inversion H; subst; lia].
  destruct (expectPeek LBRACE p1) as [ok p2] eqn:E2.
  apply expectPeek_length in E2.
  destruct ok; cbn [negb] in H; [|inversion H; subst; lia].
  destruct (parseBlockStatement fuel (nextToken p2)) as [[body p4]|] eqn:Eb;
    [|discriminate].
  inversion H; subst.
  destruct (parseBlockStatement_quiet _ _ _ _ Eb) as (b & -> & Hb).
  { unfold quietly. rewrite nextToken_errors. lia. }
  eauto.
Qed.

Lemma parseTopLevelStatement_quiet fuel p r p' :
  parseTopLevelStatement fuel p = Some (r, p') -> quietly p p' ->
  exists s, r = Some s /\ topLevelOk s = true.
Proof.
  unfold parseTopLevelStatement. intros H Hq.
  assert (Hraw :
    match parseRawStatement p with
    | (None, p1) => Some (None, p1)
    | (Some statement, p1) => Some (Some (ast.Raw statement), p1)
    end = Some (r, p') ->
    exists s, r = Some s /\ topLevelOk s = true).
  { clear H. intros H.
    destruct (parseRawStatement p) as [[raw|] p1] eqn:E; inversion H; subst.
    - apply parseRawStatement_name in E. eexists. split; [reflexivity|].
      cbn [topLevelOk]. destruct (ast.Raw_Name raw); congruence.
    - apply parseRawStatement_loud in E. unfold quietly in Hq. lia. }
  destruct (Type_ (curToken p)); try (apply Hraw; exact H);
    try (inversion H; subst; unfold quietly in Hq;
         rewrite addError_length in Hq; lia).
  destruct (parseScriptStatement fuel p) as [[statement p1]|] eqn:E;
    [|discriminate].
  assert (Hq1 : quietly p p1)
    by (destruct statement; inversion H; subst; exact Hq).
  destruct (parseScriptStatement_quiet _ _ _ _ E Hq1)
    as (tok & name & b & -> & Hb).
  inversion H; subst. eexists. split; [reflexivity|exact Hb].
Qed.

(** The loop of [ParseProgram] on a parser without errors: the statements
    it adds are complete. *)
Lemma programLoop_complete fuel :
  forall program p r p',
    errors p = [] ->
    forallb topLevelOk (ast.TopLevelStatements program) = true ->
    programLoop fuel program p = Some (Some r, p') ->
    forallb topLevelOk (ast.TopLevelStatements r) = true.
Proof.
  induction fuel as [|fuel IH]; intros program p r p' Hp Hok H;
    cbn [programLoop] in H.
  - destruct (negb (curTokenIs p EOF)); inversion H; subst. exact Hok.
  - destruct (negb (curTokenIs p EOF)); [|inversion H; subst; exact Hok].
    destruct (parseTopLevelStatement fuel p) as [[statement p1]|] eqn:E;
      [|discriminate].
    destruct (errors p1) as [|m ms] eqn:E1; cbn in H; [|discriminate].
    destruct (parseTopLevelStatement_quiet _ _ _ _ E) as (s & -> & Hs).
    { unfold quietly. rewrite E1. cbn [length]. lia. }
    apply IH in H; [exact H|rewrite nextToken_errors; exact E1|].
    unfold appendTopLevel, append. cbn [ast.TopLevelStatements].
    rewrite forallb_app, Hok. cbn [forallb]. rewrite Hs. reflexivity.
Qed.

(** *** Commands *)



End quiet.

(** ** What is accepted is a well-formed source *)
Module sound.

Import token parser stream spec facts frame command program condition.
Import source accept trace quiet.

(** A token of a type other than the end of input is a token of the
    list. *)
Lemma hd_type e ts T :
  token.eqb (Type_ (hd (eofTok e) ts)) T = true -> T <> EOF ->
  exists t rest, ts = t :: rest /\ Type_ t = T.
Proof.
  intros H HT. apply eqb_eq in H. destruct ts as [|t rest].
  - cbn in H. congruence.
  - eauto.
Qed.

Lemma not_longer (errs : list string) msg : errs ++ [msg] <> errs.
Proof.
  intros H. apply (f_equal (@length string)) in H.
  rewrite length_app in H. cbn [length] in H. lia.
Qed.

Lemma not_longer2 (errs : list string) m1 m2 : (errs ++ [m1]) ++ [m2] <> errs.
Proof.
  intros H. apply (f_equal (@length string)) in H.
  rewrite !length_app in H. cbn [length] in H. lia.
Qed.

Lemma some_pair {A B : Type} (a r : A) (b p' : B) :
  Some (a, b) = Some (r, p') -> a = r /\ b = p'.
Proof. intros H. inversion H. auto. Qed.

(** Read the result of a run that has returned. *)
Ltac got H := destruct (some_pair _ _ _ _ H) as [<- <-]; clear H.

(** Errors are only added: a run that ends with the errors it began with
    has added none on the way. *)
Lemma quiet_mid p p1 p' :
  extends p p1 -> (length (errors p1) <= length (errors p'))%nat ->
  errors p' = errors p -> errors p1 = errors p.
Proof.
  intros [[new [E _]] _] L Hq. rewrite E, Hq, length_app in L.
  destruct new; [rewrite E; apply app_nil_r|cbn [length] in L; lia].
Qed.

(** The argument loop, when it returns a command, has read a closed
    body. *)
Lemma sound_commandArgs fuel :
  forall command argParts depth ts e errs txts c parts p',
    commandArgs fuel command argParts depth (stateAt e ts errs txts) =
    Some (Some (c, parts), p') ->
    exists body rp rest,
      ts = body ++ rp :: rest /\ Type_ rp = RPAREN /\
      closedBody depth body = true /\
      (c, parts) = extendArgs command argParts (argPieces (length txts) body)
      /\ p' = stateAt e (rp :: rest) errs (txts ++ stringLiterals body).
Proof.
  induction fuel as [|fuel IH];
    intros command argParts depth ts e errs txts c parts p' H;
    cbn [commandArgs] in H;
    destruct (curTokenIs _ RPAREN && (depth =? 0)%Z) eqn:Ec.
  1, 3: apply andb_true_iff in Ec; destruct Ec as [Ec Ed];
    apply hd_type in Ec; [|discriminate];
    destruct Ec as (rp & rest & -> & Hrp);
    exists [], rp, rest; inversion H; subst;
    unfold extendArgs; cbn; rewrite !app_nil_r; auto.
  - discriminate.
  - destruct (curTokenIs _ EOF) eqn:Eeof; [discriminate|].
    destruct ts as [|t ts]; [discriminate Eeof|].
    rewrite curTokenIs_at in Ec, Eeof. rewrite curToken_at in H.
    destruct (Type_ t) eqn:Et; try discriminate Eeof;
      rewrite ?nextToken_set_cons, ?nextToken_cons in H;
      apply IH in H;
      destruct H as (body & rp & rest & -> & Hrp & Hbody & Hargs & ->);
      exists (t :: body), rp, rest;
      (split; [reflexivity|]); (split; [exact Hrp|]);
      cbn [closedBody argPieces]; rewrite Et;
      rewrite ?extendArgs_sep, ?extendArgs_part;
      try (rewrite stringLiterals_cons_other by congruence; auto).
    + (* a string literal *)
      rewrite stringLiterals_cons_string by exact Et.
      unfold append in Hargs |- *. rewrite length_app, Nat.add_1_r in Hargs.
      rewrite <- app_assoc. auto.
    + (* a closing parenthesis inside the list *)
      rewrite eqb_refl in Ec. cbn [andb] in Ec. rewrite Ec. auto.
Qed.


Lemma sound_command fuel ts e errs txts c p' :
  Type_ (hd (eofTok e) ts) = IDENT ->
  parseCommandStatement fuel (stateAt e ts errs txts) = Some (Some c, p') ->
  exists ct rest,
    closedCommand ct = true /\ ts = commandTokens ct ++ rest /\
    c = ast.mkCommandStatement (commandName ct)
          (ast.mkIdentifier (commandName ct) (Literal (commandName ct)))
          (argsOf (length txts) (commandBody ct)) /\
    p' = stateAt e (stmtLast (SCommand ct) :: rest) errs
           (txts ++ stringLiterals (commandBody ct)).
Proof.
  intros Hn H. unfold parseCommandStatement in H.
  destruct ts as [|name ts]; [discriminate Hn|]. cbn [hd] in Hn.
  destruct (peekTokenIs _ LPAREN) eqn:Ep.
  - apply hd_type in Ep; [|discriminate].
    destruct Ep as (lp & ts2 & E & Hlp). cbn [tl] in E. subst ts.
    rewrite !nextToken_cons, curToken_at in H.
    destruct (commandArgs _ _ _ _ _) as [[[[c0 parts]|] p2]|] eqn:E;
      try discriminate.
    apply sound_commandArgs in E.
    destruct E as (body & rp & rest & -> & Hrp & Hbody & Hargs & ->).
    exists (Call name lp body rp), rest.
    cbn [closedCommand commandTokens commandName commandBody stmtLast app].
    rewrite Hn, Hlp, Hrp, Hbody, !eqb_refl, <- app_assoc. cbn [andb app].
    split; [reflexivity|]. split; [reflexivity|].
    split; [|destruct (0 <? length parts)%nat; inversion H; reflexivity].
    unfold extendArgs, argsOf, argsOfPieces in *.
    destruct (splitPieces (argPieces (length txts) body))
      as [[|g groups] [|s open]]; inversion Hargs; subst; cbn in H |- *;
      inversion H; subst; unfold appendArg, append; cbn;
      rewrite ?app_nil_r; reflexivity.
  - rewrite curToken_at in H. inversion H; subst. exists (Bare name), ts.
    cbn [closedCommand commandTokens commandName commandBody stmtLast app].
    rewrite Hn, eqb_refl.
    unfold stringLiterals. cbn [filter map]. rewrite app_nil_r. auto.
Qed.

(** The loop that reads up to a closing parenthesis. *)
Lemma sound_collectParts fuel :
  forall parts ts e errs txts parts' p',
    collectParts fuel parts (stateAt e ts errs txts) = Some (parts', p') ->
    exists pre rp rest,
      ts = pre ++ rp :: rest /\ Type_ rp = RPAREN /\ noRParen pre = true /\
      parts' = parts ++ map Literal pre /\
      p' = stateAt e (rp :: rest) errs txts.
Proof.
  induction fuel as [|fuel IH]; intros parts ts e errs txts parts' p' H;
    cbn [collectParts] in H;
    destruct (curTokenIs _ RPAREN) eqn:Ec; cbn [negb] in H;
    try discriminate.
  1, 2: apply hd_type in Ec; [|discriminate];
    destruct Ec as (rp & rest & -> & Hrp);
    exists [], rp, rest; inversion H; subst; rewrite app_nil_r; auto.
  destruct ts as [|t ts].
  - rewrite nextToken_nil in H. apply IH in H.
    destruct H as (pre & rp & rest & E & _). destruct pre; discriminate E.
  - rewrite nextToken_cons, curToken_at in H. apply IH in H.
    destruct H as (pre & rp & rest & -> & Hrp & Hpre & -> & ->).
    exists (t :: pre), rp, rest. rewrite curTokenIs_at in Ec.
    cbn [noRParen forallb map app]. fold (noRParen pre).
    rewrite Ec, Hpre. unfold append. rewrite <- app_assoc. auto.
Qed.

Lemma sound_var fuel expression ts e errs txts expression' p' :
  parseIfVarOperator fuel expression (stateAt e ts errs txts) =
  Some ((true, expression'), p') ->
  exists op value rp2 lb rest,
    ts = op :: value ++ rp2 :: lb :: rest /\
    isRelational (Type_ op) = true /\ (0 <? length value)%nat = true /\
    noRParen value = true /\ Type_ rp2 = RPAREN /\ Type_ lb = LBRACE /\
    expression' =
      ast.setComparisonValue (Join (map Literal value))
        (ast.setOperator (Type_ op) expression) /\
    p' = stateAt e rest errs txts.
Proof.
  unfold parseIfVarOperator. intros H.
  destruct (isRelational (Type_ (curToken _))) eqn:Eop; cbn [negb] in H;
    [|discriminate].
  destruct ts as [|op ts]; [discriminate Eop|].
  rewrite curToken_at in Eop, H. rewrite nextToken_cons in H.
  destruct (curTokenIs _ RPAREN) eqn:Erp; [discriminate|].
  destruct (collectParts _ _ _) as [[parts p2]|] eqn:E; [|discriminate].
  apply sound_collectParts in E.
  destruct E as (value & rp2 & rest2 & -> & Hrp2 & Hno & -> & ->).
  rewrite expectPeek_at in H. cbn [tl hd] in H.
  destruct (token.eqb (Type_ (hd (eofTok e) rest2)) LBRACE) eqn:Elb;
    cbn [negb] in H; [|discriminate].
  apply hd_type in Elb; [|discriminate].
  destruct Elb as (lb & rest & -> & Hlb).
  rewrite nextToken_cons in H. inversion H; subst.
  exists op, value, rp2, lb, rest. cbn [app].
  destruct value as [|v vs].
  - cbn [app] in Erp. rewrite curTokenIs_at, Hrp2 in Erp. discriminate.
  - auto 10.
Qed.

Lemma sound_flag expression ts e errs txts expression' p' :
  parseIfFlagOperator expression (stateAt e ts errs txts) =
  ((true, expression'), p') ->
  exists eq v rp2 lb rest,
    ts = eq :: v :: rp2 :: lb :: rest /\ Type_ eq = EQ /\
    (token.eqb (Type_ v) TRUE || token.eqb (Type_ v) FALSE) = true /\
    Type_ rp2 = RPAREN /\ Type_ lb = LBRACE /\
    expression' =
      ast.setComparisonValue (typeString (Type_ v))
        (ast.setOperator EQ expression) /\
    p' = stateAt e rest errs txts.
Proof.
  unfold parseIfFlagOperator. intros H.
  destruct (curTokenIs _ EQ) eqn:Eeq; cbn [negb] in H; [|discriminate].
  apply hd_type in Eeq; [|discriminate].
  destruct Eeq as (eq & ts1 & -> & Heq).
  rewrite nextToken_cons, curToken_at, Heq in H.
  destruct (curTokenIs _ RPAREN) eqn:Erp; [discriminate|].
  destruct (negb (curTokenIs _ TRUE) && negb (curTokenIs _ FALSE)) eqn:Ev;
    [discriminate|].
  destruct ts1 as [|v ts2]; [discriminate Ev|].
  rewrite !curTokenIs_at in Ev. rewrite curToken_at in H.
  rewrite expectPeek_at in H. cbn [tl hd] in H.
  destruct (token.eqb (Type_ (hd (eofTok e) ts2)) RPAREN) eqn:Erp2;
    cbn [negb] in H; [|discriminate].
  apply hd_type in Erp2; [|discriminate].
  destruct Erp2 as (rp2 & ts3 & -> & Hrp2).
  rewrite expectPeek_at in H. cbn [tl hd] in H.
  destruct (token.eqb (Type_ (hd (eofTok e) ts3)) LBRACE) eqn:Elb;
    cbn [negb] in H; [|discriminate].
  apply hd_type in Elb; [|discriminate].
  destruct Elb as (lb & rest & -> & Hlb).
  rewrite nextToken_cons in H. inversion H; subst.
  exists eq, v, rp2, lb, rest.
  destruct (token.eqb (Type_ v) TRUE), (token.eqb (Type_ v) FALSE);
    try discriminate Ev; auto 10.
Qed.

Lemma sound_raw ts e errs txts raw p' :
  token.eqb (Type_ (hd (eofTok e) ts)) RAW
  || token.eqb (Type_ (hd (eofTok e) ts)) RAWGLOBAL = true ->
  parseRawStatement (stateAt e ts errs txts) = (Some raw, p') ->
  exists kw name value rest,
    wfItem (IRaw kw name value) = true /\
    ts = itemTokens (IRaw kw name value) ++ rest /\
    ast.Raw raw = itemAst (length txts) (IRaw kw name value) /\
    p' = stateAt e (value :: rest) errs txts.
Proof.
  intros Hkw H. unfold parseRawStatement in H.
  destruct ts as [|kw ts]; [discriminate Hkw|]. cbn [hd] in Hkw.
  rewrite expectPeek_at in H. cbn [tl hd] in H.
  destruct (token.eqb (Type_ (hd (eofTok e) ts)) IDENT) eqn:En;
    cbn [negb] in H; [|discriminate].
  apply hd_type in En; [|discriminate].
  destruct En as (name & ts2 & -> & Hn).
  rewrite expectPeek_at in H. cbn [tl hd] in H.
  destruct (token.eqb (Type_ (hd (eofTok e) ts2)) RAWSTRING) eqn:Ev;
    cbn [negb] in H; [|discriminate].
  apply hd_type in Ev; [|discriminate].
  destruct Ev as (value & rest & -> & Hv).
  rewrite !curToken_at in H. inversion H; subst.
  exists kw, name, value, rest. cbn [wfItem itemTokens itemAst app].
  rewrite Hkw, Hn, Hv, !eqb_refl. auto.
Qed.


(** *** The mutually recursive functions *)

Definition blockSound (n : nat) : Prop :=
  forall ts e errs txts r p',
    parseBlockStatement n (stateAt e ts errs txts) = Some (r, p') ->
    errors p' = errs ->
    exists body rb rest,
      wfStmts body = true /\ ts = stmtsTokens body ++ rb :: rest /\
      Type_ rb = RBRACE /\
      r = Some (ast.mkBlockStatement (hd rb (stmtsTokens body))
                  (stmtsAst (length txts) body)) /\
      p' = stateAt e (rb :: rest) errs (txts ++ stmtsLiterals body).

Definition loopSound (n : nat) : Prop :=
  forall block ts e errs txts r p',
    blockLoop n block (stateAt e ts errs txts) = Some (r, p') ->
    errors p' = errs ->
    exists body rb rest,
      wfStmts body = true /\ ts = stmtsTokens body ++ rb :: rest /\
      Type_ rb = RBRACE /\
      r = Some (ast.mkBlockStatement (ast.Block_Token block)
                  (ast.Statements block ++ stmtsAst (length txts) body)) /\
      p' = stateAt e (rb :: rest) errs (txts ++ stmtsLiterals body).

Definition statementSound (n : nat) : Prop :=
  forall ts e errs txts r p',
    parseStatement n (stateAt e ts errs txts) = Some (r, p') ->
    errors p' = errs ->
    exists s rest,
      wfStmt s = true /\ ts = stmtTokens s ++ rest /\
      r = Some (stmtAst (length txts) s) /\
      p' = stateAt e (stmtLast s :: rest) errs (txts ++ stmtLiterals s).

Definition ifSound (n : nat) : Prop :=
  forall ts e errs txts r p',
    Type_ (hd (eofTok e) ts) = IF ->
    parseIfStatement n (stateAt e ts errs txts) = Some (r, p') ->
    errors p' = errs ->
    exists s rest,
      wfStmt s = true /\ ts = stmtTokens s ++ rest /\
      option_map ast.If r = Some (stmtAst (length txts) s) /\
      p' = stateAt e (stmtLast s :: rest) errs (txts ++ stmtLiterals s).

Definition elifSound (n : nat) : Prop :=
  forall elifs cur ts e errs txts r p',
    elifLoop n elifs (stateAt e (cur :: ts) errs txts) = Some (r, p') ->
    errors p' = errs ->
    exists es rest,
      wfElifs es = true /\ ts = elifsTokens es ++ rest /\
      r = Some (elifs ++ elifsAst (length txts) es) /\
      p' = stateAt e (elifsLast cur es :: rest) errs
             (txts ++ elifsLiterals es).

Definition conditionSound (n : nat) : Prop :=
  forall lineNumber ts e errs txts r p',
    Type_ (hd (eofTok e) ts) = LPAREN ->
    parseIfConditionExpression n lineNumber (stateAt e ts errs txts) =
    Some (r, p') ->
    errors p' = errs ->
    exists c rest,
      wfCond c = true /\ ts = condTokens c ++ rest /\
      r = Some (condAst (length txts) c) /\
      p' = stateAt e (condLast c :: rest) errs (txts ++ condLiterals c).

(** The error list does not shrink. *)
Lemma grows_block fuel p r p' :
  parseBlockStatement fuel p = Some (r, p') ->
  (length (errors p) <= length (errors p'))%nat.
Proof.
  intros H. apply extends_length.
  apply (proj1 (frames_mutual fuel) _ _ _ H).
Qed.

Lemma grows_loop fuel block p r p' :
  blockLoop fuel block p = Some (r, p') ->
  (length (errors p) <= length (errors p'))%nat.
Proof.
  intros H. apply extends_length.
  apply (proj1 (proj2 (frames_mutual fuel)) _ _ _ _ H).
Qed.

Lemma grows_elif fuel elifs p r p' :
  elifLoop fuel elifs p = Some (r, p') ->
  (length (errors p) <= length (errors p'))%nat.
Proof.
  intros H. apply extends_length.
  apply (proj1 (proj2 (proj2 (proj2 (proj2 (frames_mutual fuel)))))
           _ _ _ _ H).
Qed.

Lemma extends_cond fuel lineNumber p r p' :
  parseIfConditionExpression fuel lineNumber p = Some (r, p') ->
  extends p p'.
Proof.
  intros H.
  apply (proj2 (proj2 (proj2 (proj2 (proj2 (frames_mutual fuel)))))
           _ _ _ _ H).
Qed.

Lemma extends_elif fuel elifs p r p' :
  elifLoop fuel elifs p = Some (r, p') -> extends p p'.
Proof.
  intros H.
  apply (proj1 (proj2 (proj2 (proj2 (proj2 (frames_mutual fuel)))))
           _ _ _ _ H).
Qed.

(** A run that has added an error is not a quiet one. *)
Ltac loud_out H Hq :=
  got H; cbn [errors stateAt addError setErrors] in Hq; unfold append in Hq;
  first [apply not_longer in Hq|apply not_longer2 in Hq]; contradiction.

(** The two sides are the same list of tokens. *)
Ltac same_tokens :=
  repeat (cbn [app]; rewrite <- app_assoc); cbn [app]; reflexivity.

Section Sound.

Variable fuel : nat.
Hypothesis IHblock : blockSound fuel.
Hypothesis IHloop : loopSound fuel.
Hypothesis IHstmt : statementSound fuel.
Hypothesis IHif : ifSound fuel.
Hypothesis IHelif : elifSound fuel.
Hypothesis IHcond : conditionSound fuel.

Lemma block_sound : blockSound (S fuel).
Proof.
  intros ts e errs txts r p' H Hq. cbn [parseBlockStatement] in H.
  destruct (IHloop _ _ _ _ _ _ _ H Hq)
    as (body & rb & rest & Hb & -> & Hrb & -> & ->).
  exists body, rb, rest. unfold curToken at 1. cbn [stateAt].
  rewrite hd_stmts. cbn [ast.Block_Token ast.Statements app]. auto.
Qed.

Lemma loop_sound : loopSound (S fuel).
Proof.
  intros block ts e errs txts r p' H Hq. cbn [blockLoop] in H.
  destruct (curTokenIs _ RBRACE) eqn:Erb; cbn [negb] in H.
  - apply hd_type in Erb; [|discriminate].
    destruct Erb as (rb & rest & -> & Hrb). got H.
    exists SNil, rb, rest.
    cbn [wfStmts stmtsTokens stmtsAst stmtsLiterals app errors stateAt].
    rewrite !app_nil_r. destruct block; auto.
  - destruct (curTokenIs _ EOF).
    { got H. apply not_longer in Hq. contradiction. }
    destruct (parseStatement fuel _) as [[statement p1]|] eqn:E;
      [|discriminate].
    pose proof (frames_parseStatement _ _ _ _ E) as X1.
    destruct statement as [s|].
    + pose proof (grows_loop _ _ _ _ _ H) as L2.
      rewrite nextToken_errors in L2.
      pose proof (quiet_mid _ _ _ X1 L2 Hq) as Hq1.
      destruct (IHstmt _ _ _ _ _ _ E Hq1) as (s0 & rest1 & Hs & -> & Es & ->).
      inversion Es; subst s. rewrite nextToken_cons in H.
      destruct (IHloop _ _ _ _ _ _ _ H Hq)
        as (body & rb & rest & Hb & -> & Hrb & -> & ->).
      exists (SCons s0 body), rb, rest.
      cbn [wfStmts stmtsTokens stmtsAst stmtsLiterals].
      rewrite Hs, Hb. unfold appendStatement, append.
      cbn [ast.Block_Token ast.Statements andb].
      rewrite <- !app_assoc, length_app. cbn [app]. auto.
    + got H.
      destruct (IHstmt _ _ _ _ _ _ E Hq) as (s0 & rest1 & _ & _ & Es & _).
      discriminate.
Qed.

Lemma statement_sound : statementSound (S fuel).
Proof.
  intros ts e errs txts r p' H Hq. cbn [parseStatement] in H.
  unfold curToken at 1 in H. cbn [stateAt] in H.
  destruct (Type_ (hd (eofTok e) ts)) eqn:Et;
    try (got H; apply not_longer in Hq; contradiction).
  - destruct (parseCommandStatement fuel _) as [[[c|] p1]|] eqn:E;
      try discriminate; got H.
    + apply sound_command in E; [|exact Et].
      destruct E as (ct & rest & Hc & -> & -> & ->).
      exists (SCommand ct), rest. auto.
    + apply parseCommandStatement_loud in E. rewrite Hq in E.
      cbn [errors stateAt] in E. lia.
  - destruct (parseIfStatement fuel _) as [[statement p1]|] eqn:E;
      [|discriminate].
    assert (p' = p1) by (destruct statement; inversion H; reflexivity).
    subst p1.
    destruct (IHif _ _ _ _ _ _ Et E Hq) as (s & rest & Hs & -> & Es & ->).
    exists s, rest. destruct statement; cbn [option_map] in Es;
      [|discriminate].
    inversion H. rewrite Es. auto.
Qed.


Lemma cond_sound : conditionSound (S fuel).
Proof.
  intros lineNumber ts e errs txts r p' Hlp H Hq.
  cbn [parseIfConditionExpression] in H.
  destruct (negb (peekTokenIs _ VAR) && negb (peekTokenIs _ FLAG)) eqn:Ek;
    [loud_out H Hq|].
  destruct ts as [|lp [|kind ts]]; try discriminate. cbn [hd] in Hlp.
  rewrite !peekTokenIs_at in Ek.
  rewrite nextToken_cons, expectPeek_at in H. cbn [tl hd] in H.
  destruct (token.eqb (Type_ (hd (eofTok e) ts)) LPAREN) eqn:Elp2;
    cbn [negb] in H; [|loud_out H Hq].
  apply hd_type in Elp2; [|discriminate].
  destruct Elp2 as (lp2 & ts3 & -> & Hlp2).
  destruct (token.eqb (Type_ (peekToken _)) RPAREN) eqn:Enon;
    [loud_out H Hq|].
  rewrite nextToken_cons in H.
  destruct (collectParts fuel [] _) as [[parts p4]|] eqn:E4; [|discriminate].
  apply sound_collectParts in E4.
  destruct E4 as (operand & rp & rest4 & -> & Hrp & Hno & -> & ->).
  rewrite nextToken_cons in H.
  cbn [ast.Type_ ast.setOperand curToken stateAt hd app] in H.
  destruct operand as [|o os].
  { cbn [app peekToken stateAt tl hd] in Enon. rewrite Hrp in Enon.
    discriminate. }
  destruct (token.eqb (Type_ kind) VAR) eqn:Ev.
  - destruct (parseIfVarOperator fuel _ _) as [[[ok e'] p6]|] eqn:Eo;
      [|discriminate].
    destruct ok.
    + destruct (parseBlockStatement fuel p6) as [[body p7]|] eqn:Eb;
        [|discriminate].
      got H. apply sound_var in Eo.
      destruct Eo as (op & value & rp2 & lb & rest6 & -> & Hop & Hsome & Hnov
                      & Hrp2 & Hlb & -> & ->).
      destruct (IHblock _ _ _ _ _ _ Eb Hq)
        as (body0 & rb & rest & Hb & -> & Hrb & -> & ->).
      exists (mkCond lp kind lp2 (o :: os) rp op value rp2 lb body0 rb), rest.
      apply eqb_eq in Ev.
      cbn [wfCond condTokens condAst condLast condLiterals length Nat.ltb
           Nat.leb ast.setBody ast.setComparisonValue ast.setOperator].
      unfold validComparison, comparisonValue.
      rewrite Hlp, Ev, Hlp2, Hrp, Hrp2, Hlb, Hrb, Hno, Hop, Hsome, Hnov, Hb.
      eqb_compute.
      split; [reflexivity|]. split; [same_tokens|]. auto.
    + got H. apply parseIfVarOperator_loud in Eo. rewrite Hq in Eo.
      cbn [errors stateAt] in Eo. lia.
  - destruct (token.eqb (Type_ kind) FLAG) eqn:Ef;
      [|rewrite ?Ev, ?Ef in Ek; discriminate Ek].
    destruct (parseIfFlagOperator _ _) as [[ok e'] p6] eqn:Eo.
    destruct ok.
    + destruct (parseBlockStatement fuel p6) as [[body p7]|] eqn:Eb;
        [|discriminate].
      got H. apply sound_flag in Eo.
      destruct Eo as (eq & v & rp2 & lb & rest6 & -> & Heq & Hv & Hrp2 & Hlb
                      & -> & ->).
      destruct (IHblock _ _ _ _ _ _ Eb Hq)
        as (body0 & rb & rest & Hb & -> & Hrb & -> & ->).
      exists (mkCond lp kind lp2 (o :: os) rp eq [v] rp2 lb body0 rb), rest.
      apply eqb_eq in Ef.
      cbn [wfCond condTokens condAst condLast condLiterals length Nat.ltb
           Nat.leb ast.setBody ast.setComparisonValue ast.setOperator hd].
      unfold validComparison, comparisonValue.
      rewrite Hlp, Ef, Hlp2, Hrp, Hrp2, Hlb, Hrb, Hno, Heq, Hv, Hb.
      eqb_compute.
      split; [reflexivity|]. split; [same_tokens|]. auto.
    + got H. apply parseIfFlagOperator_loud in Eo. rewrite Hq in Eo.
      cbn [errors stateAt] in Eo. lia.
Qed.

Lemma elif_sound : elifSound (S fuel).
Proof.
  intros elifs cur ts e errs txts r p' H Hq. cbn [elifLoop] in H.
  unfold peekTokenIs at 1 in H. cbn [peekToken stateAt tl] in H.
  destruct (token.eqb (Type_ (hd (eofTok e) ts)) ELSEIF) eqn:Ek.
  - apply hd_type in Ek; [|discriminate].
    destruct Ek as (kw & ts1 & -> & Hkw).
    rewrite nextToken_cons, expectPeek_at in H. cbn [tl hd] in H.
    destruct (token.eqb (Type_ (hd (eofTok e) ts1)) LPAREN) eqn:Elp;
      cbn [negb] in H; [|loud_out H Hq].
    apply hd_type in Elp; [|discriminate].
    destruct Elp as (lp & ts2 & -> & Hlp).
    destruct (parseIfConditionExpression fuel _ _) as [[consequence p3]|] eqn:E;
      [|discriminate].
    pose proof (extends_cond _ _ _ _ _ E) as X.
    destruct consequence as [c|].
    + pose proof (grows_elif _ _ _ _ _ H) as L2.
      pose proof (quiet_mid _ _ _ X L2 Hq) as Hq1.
      destruct (IHcond _ (lp :: ts2) _ _ _ _ _ Hlp E Hq1)
        as (c0 & rest1 & Hc & Ets & Ec & ->).
      inversion Ec; subst c.
      destruct (IHelif _ _ _ _ _ _ _ _ H Hq)
        as (es & rest & Hes & -> & -> & ->).
      exists (ECons kw c0 es), rest.
      cbn [wfElifs elifsTokens elifsAst elifsLast elifsLiterals].
      rewrite Hkw, Hc, Hes, Ets, eqb_refl. unfold append.
      rewrite length_app, <- !app_assoc. cbn [app andb].
      split; [reflexivity|]. split; [same_tokens|]. auto.
    + got H. destruct (IHcond _ (lp :: ts2) _ _ _ _ _ Hlp E Hq)
        as (c0 & rest1 & _ & _ & Ec & _).
      discriminate.
  - got H. exists ENil, ts.
    cbn [wfElifs elifsTokens elifsAst elifsLast elifsLiterals app].
    rewrite !app_nil_r. auto.
Qed.

Lemma if_sound : ifSound (S fuel).
Proof.
  intros ts e errs txts r p' Hif H Hq. cbn [parseIfStatement] in H.
  destruct ts as [|kw ts]; [discriminate Hif|]. cbn [hd] in Hif.
  rewrite expectPeek_at in H. cbn [tl hd] in H.
  destruct (token.eqb (Type_ (hd (eofTok e) ts)) LPAREN) eqn:Elp;
    cbn [negb] in H; [|loud_out H Hq].
  apply hd_type in Elp; [|discriminate].
  destruct Elp as (lp & ts2 & -> & Hlp). rewrite curToken_at in H.
  destruct (parseIfConditionExpression fuel _ _) as [[consequence p2]|] eqn:E1;
    [|discriminate].
  pose proof (extends_cond _ _ _ _ _ E1) as X1.
  destruct consequence as [c|].
  2: { got H. destruct (IHcond _ (lp :: ts2) _ _ _ _ _ Hlp E1 Hq)
         as (c0 & rest1 & _ & _ & Ec & _).
       discriminate. }
  destruct (elifLoop fuel [] p2) as [[elifs p3]|] eqn:E2; [|discriminate].
  pose proof (grows_elif _ _ _ _ _ E2) as L2.
  assert (Hsteps :
    (length (errors p3) <= length (errors p'))%nat ->
    errors p3 = errs /\
    exists c0 es rest2,
      wfCond c0 = true /\ wfElifs es = true /\
      lp :: ts2 = condTokens c0 ++ elifsTokens es ++ rest2 /\
      c = condAst (length txts) c0 /\
      elifs =
        Some (elifsAst (length (txts ++ condLiterals c0)) es) /\
      p3 = stateAt e (elifsLast (condLast c0) es :: rest2) errs
             ((txts ++ condLiterals c0) ++ elifsLiterals es)).
  { intros L3.
    assert (Hq2 : errors p2 = errs) by (apply (quiet_mid _ _ p' X1); [lia|exact Hq]).
    destruct (IHcond _ (lp :: ts2) _ _ _ _ _ Hlp E1 Hq2)
      as (c0 & rest1 & Hc & Ets & Ec & ->).
    inversion Ec; subst c.
    assert (Hq3 : errors p3 = errs).
    { apply (quiet_mid _ _ _ (extends_elif _ _ _ _ _ E2) L3). exact Hq. }
    split; [exact Hq3|].
    destruct (IHelif _ _ _ _ _ _ _ _ E2 Hq3)
      as (es & rest2 & Hes & -> & -> & ->).
    exists c0, es, rest2. cbn [app]. auto 10. }
  destruct elifs as [es|].
  2: { got H. destruct (Hsteps (le_n _))
         as (_ & c0 & es & rest2 & _ & _ & _ & _ & Ees & _).
       discriminate. }
  destruct (peekTokenIs p3 ELSE) eqn:Eelse.
  - destruct (expectPeek LBRACE (nextToken p3)) as [ok p5] eqn:E5.
    pose proof (expectPeek_length _ _ _ _ E5) as L5.
    rewrite nextToken_errors in L5.
    destruct ok; cbn [negb] in H.
    2: { got H. apply (f_equal (@length string)) in Hq.
         rewrite addError_length in Hq.
         pose proof (extends_length _ _ X1) as L1.
         cbn [errors stateAt] in L1. lia. }
    destruct (parseBlockStatement fuel (nextToken p5)) as [[body p6]|] eqn:E6;
      [|discriminate].
    got H. pose proof (grows_block _ _ _ _ E6) as L6.
    rewrite nextToken_errors in L6.
    destruct Hsteps
      as (_ & c0 & es0 & rest2 & Hc & Hes & Ets & -> & Ees & ->); [lia|].
    inversion Ees; subst es.
    unfold peekTokenIs in Eelse. cbn [peekToken stateAt tl] in Eelse.
    apply hd_type in Eelse; [|discriminate].
    destruct Eelse as (kwe & rest3 & -> & Hkwe).
    rewrite nextToken_cons, expectPeek_at in E5. cbn [tl hd] in E5.
    destruct (token.eqb (Type_ (hd (eofTok e) rest3)) LBRACE) eqn:Elb;
      [|discriminate E5].
    apply hd_type in Elb; [|discriminate].
    destruct Elb as (lb & rest4 & -> & Hlb).
    inversion E5; subst p5. rewrite nextToken_cons in E6.
    destruct (IHblock _ _ _ _ _ _ E6 Hq)
      as (body0 & rb & rest & Hb & -> & Hrb & -> & ->).
    exists (SIf kw c0 es0 (SomeElse kwe lb body0 rb)), rest.
    cbn [wfStmt wfElse stmtTokens elseTokens stmtAst elseAst stmtLast
         stmtLiterals elseLiterals option_map].
    rewrite Hif, Hc, Hes, Hkwe, Hlb, Hb, Hrb, !eqb_refl. cbn [andb].
    rewrite !length_app, <- !app_assoc. cbn [app].
    split; [reflexivity|]. split; [|auto].
    rewrite Ets. same_tokens.
  - got H.
    destruct (Hsteps (le_n _))
      as (_ & c0 & es0 & rest2 & Hc & Hes & Ets & -> & Ees & ->).
    inversion Ees; subst es.
    exists (SIf kw c0 es0 NoElse), rest2.
    cbn [wfStmt wfElse stmtTokens elseTokens stmtAst elseAst stmtLast
         stmtLiterals elseLiterals option_map].
    rewrite Hif, Hc, Hes, !eqb_refl. cbn [andb].
    rewrite !length_app, !app_nil_r, <- !app_assoc. cbn [app].
    rewrite Ets. split; [reflexivity|]. split; [same_tokens|]. auto.
Qed.

End Sound.

(** Whatever the fuel, a run that returns without a new error has read
    the tokens of a well-formed tree and returns the node of that tree. *)
Lemma sound_mutual fuel :
  blockSound fuel /\ loopSound fuel /\ statementSound fuel /\
  ifSound fuel /\ elifSound fuel /\ conditionSound fuel.
Proof.
  induction fuel
    as [|fuel (IHblock & IHloop & IHstmt & IHif & IHelif & IHcond)].
  - refine (conj _ (conj _ (conj _ (conj _ (conj _ _))))).
    + intros ts e errs txts r p' H. discriminate H.
    + intros block ts e errs txts r p' H Hq. cbn [blockLoop] in H.
      destruct (curTokenIs _ RBRACE) eqn:Erb; cbn [negb] in H;
        [|discriminate].
      apply hd_type in Erb; [|discriminate].
      destruct Erb as (rb & rest & -> & Hrb). got H.
      exists SNil, rb, rest.
      cbn [wfStmts stmtsTokens stmtsAst stmtsLiterals app errors stateAt].
      rewrite !app_nil_r. destruct block; auto.
    + intros ts e errs txts r p' H. discriminate H.
    + intros ts e errs txts r p' _ H. discriminate H.
    + intros elifs cur ts e errs txts r p' H Hq. cbn [elifLoop] in H.
      destruct (peekTokenIs _ ELSEIF); [discriminate|]. got H.
      exists ENil, ts.
      cbn [wfElifs elifsTokens elifsAst elifsLast elifsLiterals app].
      rewrite !app_nil_r. auto.
    + intros lineNumber ts e errs txts r p' _ H. discriminate H.
  - refine (conj _ (conj _ (conj _ (conj _ (conj _ _))))).
    + apply block_sound; assumption.
    + apply loop_sound; assumption.
    + apply statement_sound; assumption.
    + apply if_sound; assumption.
    + apply elif_sound; assumption.
    + apply cond_sound; assumption.
Qed.

(** *** Top level *)

Lemma sound_script fuel ts e errs txts r p' :
  Type_ (hd (eofTok e) ts) = SCRIPT ->
  parseScriptStatement fuel (stateAt e ts errs txts) = Some (r, p') ->
  errors p' = errs ->
  exists kw name lb body rb rest,
    wfItem (IScript kw name lb body rb) = true /\
    ts = itemTokens (IScript kw name lb body rb) ++ rest /\
    option_map ast.Script r =
      Some (itemAst (length txts) (IScript kw name lb body rb)) /\
    p' = stateAt e (rb :: rest) errs (txts ++ stmtsLiterals body).
Proof.
  intros Hkw H Hq. unfold parseScriptStatement in H.
  destruct ts as [|kw ts]; [discriminate Hkw|]. cbn [hd] in Hkw.
  rewrite expectPeek_at in H. cbn [tl hd] in H.
  destruct (token.eqb (Type_ (hd (eofTok e) ts)) IDENT) eqn:En;
    cbn [negb] in H; [|loud_out H Hq].
  apply hd_type in En; [|discriminate].
  destruct En as (name & ts2 & -> & Hn).
  rewrite expectPeek_at in H. cbn [tl hd] in H.
  destruct (token.eqb (Type_ (hd (eofTok e) ts2)) LBRACE) eqn:Elb;
    cbn [negb] in H; [|loud_out H Hq].
  apply hd_type in Elb; [|discriminate].
  destruct Elb as (lb & ts3 & -> & Hlb).
  rewrite nextToken_cons, !curToken_at in H.
  destruct (parseBlockStatement fuel _) as [[body p4]|] eqn:E;
    [|discriminate].
  got H.
  destruct (proj1 (sound_mutual fuel) _ _ _ _ _ _ E Hq)
    as (body0 & rb & rest & Hb & -> & Hrb & -> & ->).
  exists kw, name, lb, body0, rb, rest.
  cbn [wfItem itemTokens itemAst option_map app].
  rewrite Hkw, Hn, Hlb, Hb, Hrb, !eqb_refl. cbn [andb].
  split; [reflexivity|]. split; [|auto].
  rewrite <- app_assoc. reflexivity.
Qed.

(** A top-level statement read without a new error is a raw statement or
    a script of the source. *)
Lemma sound_item fuel ts e errs txts r p' :
  parseTopLevelStatement fuel (stateAt e ts errs txts) = Some (r, p') ->
  errors p' = errs ->
  exists i rest,
    wfItem i = true /\ ts = itemTokens i ++ rest /\
    r = Some (itemAst (length txts) i) /\
    p' = stateAt e (itemLast i :: rest) errs (txts ++ itemLiterals i).
Proof.
  intros H Hq. unfold parseTopLevelStatement in H.
  unfold curToken at 1 in H. cbn [stateAt] in H.
  assert (Hraw :
    token.eqb (Type_ (hd (eofTok e) ts)) RAW
    || token.eqb (Type_ (hd (eofTok e) ts)) RAWGLOBAL = true ->
    match parseRawStatement (stateAt e ts errs txts) with
    | (None, p1) => Some (None, p1)
    | (Some statement, p1) => Some (Some (ast.Raw statement), p1)
    end = Some (r, p') ->
    exists i rest,
      wfItem i = true /\ ts = itemTokens i ++ rest /\
      r = Some (itemAst (length txts) i) /\
      p' = stateAt e (itemLast i :: rest) errs (txts ++ itemLiterals i)).
  { clear H. intros Hkw H.
    destruct (parseRawStatement _) as [[raw|] p1] eqn:E; got H.
    - destruct (sound_raw _ _ _ _ _ _ Hkw E)
        as (kw & name & value & rest & Hwf & -> & -> & ->).
      exists (IRaw kw name value), rest.
      cbn [itemLast itemLiterals]. rewrite app_nil_r. auto.
    - apply parseRawStatement_loud in E. rewrite Hq in E.
      cbn [errors stateAt] in E. lia. }
  destruct (Type_ (hd (eofTok e) ts)) eqn:Et;
    try (apply Hraw; [reflexivity|exact H]);
    try (got H; apply not_longer in Hq; contradiction).
  destruct (parseScriptStatement fuel _) as [[statement p1]|] eqn:E;
    [|discriminate].
  assert (p' = p1) by (destruct statement; inversion H; reflexivity).
  subst p1.
  destruct (sound_script _ _ _ _ _ _ _ Et E Hq)
    as (kw & name & lb & body & rb & rest & Hwf & -> & Es & ->).
  exists (IScript kw name lb body rb), rest.
  cbn [itemLast itemLiterals].
  destruct statement; cbn [option_map] in Es; [|discriminate].
  inversion H. rewrite Es. auto.
Qed.

(** The loop of [ParseProgram] that returns a program has read a list of
    well-formed items, up to a token of the end of input. *)
Lemma sound_programLoop fuel :
  forall program ts e txts r p',
    programLoop fuel program (stateAt e ts [] txts) = Some (Some r, p') ->
    exists items rest,
      forallb wfItem items = true /\ ts = itemsTokens items ++ rest /\
      Type_ (hd (eofTok e) rest) = EOF /\
      r = ast.mkProgram
            (ast.TopLevelStatements program ++ itemsAst (length txts) items)
            (ast.Texts program) /\
      p' = stateAt e rest [] (txts ++ itemsLiterals items).
Proof.
  induction fuel as [|fuel IH]; intros program ts e txts r p' H;
    cbn [programLoop] in H;
    unfold curTokenIs at 1 in H; unfold curToken at 1 in H;
    cbn [stateAt] in H;
    destruct (token.eqb (Type_ (hd (eofTok e) ts)) EOF) eqn:Eeof;
    cbn [negb] in H; try discriminate;
    try (inversion H; subst r p'; exists [], ts;
         cbn [forallb itemsTokens itemsLiterals flat_map itemsAst app];
         rewrite !app_nil_r; apply eqb_eq in Eeof; destruct program;
         cbn [ast.TopLevelStatements ast.Texts]; auto 10; fail).
  destruct (parseTopLevelStatement fuel _) as [[statement p1]|] eqn:E;
    [|discriminate].
  destruct (errors p1) as [|m ms] eqn:E1; cbn [length Nat.ltb Nat.leb] in H;
    [|discriminate].
  destruct (sound_item _ _ _ _ _ _ _ E E1) as (i & rest1 & Hi & -> & -> & ->).
  rewrite nextToken_cons in H.
  destruct (IH _ _ _ _ _ _ H) as (items & rest & Hwf & -> & Hrest & -> & ->).
  exists (i :: items), rest. unfold itemsTokens, itemsLiterals.
  cbn [forallb flat_map itemsAst]. rewrite Hi, Hwf.
  unfold appendTopLevel, append. cbn [ast.TopLevelStatements ast.Texts andb].
  rewrite length_app, <- !app_assoc. cbn [app]. auto 10.
Qed.

(** A program that [ParseProgram] returns is the program of a well-formed
    source: the input is the tokens of a list of raw statements and
    scripts, up to a token of the end of input. *)
Lemma ParseProgram_sound fuel lx program p' :
  ParseProgram fuel (New lx) = Some (Some program, p') ->
  exists items rest,
    forallb wfItem items = true /\
    lexer.input lx = itemsTokens items ++ rest /\
    Type_ (hd (eofTok (lexer.eofLine lx)) rest) = EOF /\
    program =
      ast.mkProgram (itemsAst 0 items) (labelled 0 (itemsLiterals items)) /\
    p' = stateAt (lexer.eofLine lx) rest [] (itemsLiterals items).
Proof.
  rewrite New_stateAt. unfold ParseProgram.
  match goal with
  | |- context [setImplicitTexts [] (stateAt ?e ?x [] [])] =>
    change (setImplicitTexts [] (stateAt e x [] [])) with (stateAt e x [] [])
  end.
  intros H.
  destruct (programLoop fuel _ _) as [[[r|] p1]|] eqn:E; try discriminate.
  destruct (sound_programLoop _ _ _ _ _ _ _ E)
    as (items & rest & Hwf & Ets & Hrest & -> & ->).
  inversion H. exists items, rest.
  cbn [implicitTexts stateAt ast.TopLevelStatements ast.Texts app].
  rewrite (appendImplicitTexts_labelled _ 0%nat).
  cbn [ast.TopLevelStatements ast.Texts app length]. auto 10.
Qed.

End sound.

(** ** Termination when the scans end *)
Module terminate.

Import token parser stream spec facts frame command program trace.

(** Every parser is positioned on a token list. *)
Lemma stateAt_any p :
  p = stateAt (lexer.eofLine (l p))
        (curToken p :: peekToken p :: lexer.input (l p))
        (errors p) (implicitTexts p).
Proof. destruct p as [[input e] cur peek errs txts]. reflexivity. Qed.

(** [res] is a result whose parser stands on a suffix of [toks]. *)
Definition lands {A : Type} (e : Z) (toks : list Token) (res : Result A)
    : Prop :=
  exists r k errs txts, res = Some (r, stateAt e (skipn k toks) errs txts).

Lemma lands_here {A : Type} e toks (r : A) errs txts :
  lands e toks (Some (r, stateAt e toks errs txts)).
Proof. exists r, 0%nat, errs, txts. reflexivity. Qed.

Lemma lands_skipn {A : Type} e k toks (res : Result A) :
  lands e (skipn k toks) res -> lands e toks res.
Proof.
  intros (r & j & errs & txts & ->). rewrite skipn_skipn.
  exists r, (j + k)%nat, errs, txts. reflexivity.
Qed.

Lemma lands_tl {A : Type} e toks (res : Result A) :
  lands e (tl toks) res -> lands e toks res.
Proof.
  intros H. apply (lands_skipn e 1). destruct toks; exact H.
Qed.

(** *** Scans that end

    The two loops that read up to a closing parenthesis start after an
    opening parenthesis and after a relational operator. *)

Definition startsScan (t : Token) : bool :=
  token.eqb (Type_ t) LPAREN || isRelational (Type_ t).

Definition hasRParen (toks : list Token) : bool :=
  existsb (fun t => token.eqb (Type_ t) RPAREN) toks.

(** A closing parenthesis comes somewhere after every token that may
    start a scan. *)
Fixpoint scansEnd (toks : list Token) : bool :=
  match toks with
  | [] => true
  | t :: ts => (negb (startsScan t) || hasRParen ts) && scansEnd ts
  end.

(** The tokens from the first [if] on. *)
Fixpoint fromFirstIf (toks : list Token) : list Token :=
  match toks with
  | [] => []
  | t :: ts => if token.eqb (Type_ t) IF then toks else fromFirstIf ts
  end.

Definition scansGuarded (toks : list Token) : bool :=
  scansEnd (fromFirstIf toks).

Lemma scansEnd_skipn k :
  forall toks, scansEnd toks = true -> scansEnd (skipn k toks) = true.
Proof.
  induction k as [|k IH]; intros [|t ts] H; try exact H.
  cbn [skipn]. apply IH. cbn [scansEnd] in H.
  apply andb_true_iff in H. apply H.
Qed.

Lemma scansEnd_tl toks : scansEnd toks = true -> scansEnd (tl toks) = true.
Proof. apply (scansEnd_skipn 1). Qed.

Lemma scansEnd_guarded toks :
  scansEnd toks = true -> scansGuarded toks = true.
Proof.
  unfold scansGuarded. induction toks as [|t ts IH]; intros H; [exact H|].
  cbn [fromFirstIf]. destruct (token.eqb (Type_ t) IF); [exact H|].
  apply IH. apply (scansEnd_tl (t :: ts)). exact H.
Qed.

Lemma scansGuarded_skipn k :
  forall toks, scansGuarded toks = true -> scansGuarded (skipn k toks) = true.
Proof.
  induction k as [|k IH]; intros [|t ts] H; try exact H.
  cbn [skipn]. unfold scansGuarded in H. cbn [fromFirstIf] in H.
  destruct (token.eqb (Type_ t) IF).
  - apply scansEnd_guarded, scansEnd_skipn.
    apply (scansEnd_tl (t :: ts)). exact H.
  - apply IH. exact H.
Qed.

Lemma scansGuarded_tl toks :
  scansGuarded toks = true -> scansGuarded (tl toks) = true.
Proof. intros H. apply (scansGuarded_skipn 1) in H. destruct toks; exact H. Qed.

Lemma scansGuarded_if e toks :
  scansGuarded toks = true -> Type_ (hd (eofTok e) toks) = IF ->
  scansEnd toks = true.
Proof.
  destruct toks as [|t ts]; [reflexivity|]. unfold scansGuarded.
  cbn [hd fromFirstIf]. intros H E. rewrite E, eqb_refl in H. exact H.
Qed.

(** After a token that starts a scan a closing parenthesis is ahead. *)
Lemma scansEnd_ahead t ts :
  scansEnd (t :: ts) = true -> startsScan t = true -> hasRParen ts = true.
Proof.
  cbn [scansEnd]. intros H Ht. rewrite Ht in H. cbn [negb orb] in H.
  apply andb_true_iff in H. apply H.
Qed.

(** The argument loop returns on every token list. *)
Lemma commandArgs_lands toks :
  forall fuel e command argParts depth errs txts,
    (length toks < fuel)%nat ->
    lands e toks
      (commandArgs fuel command argParts depth (stateAt e toks errs txts)).
Proof.
  induction toks as [|t ts IH];
    intros fuel e command argParts depth errs txts Hfuel;
    (destruct fuel as [|fuel]; [cbn [length] in Hfuel; lia|]).
  - cbn. apply lands_here.
  - cbn [length] in Hfuel. cbn [commandArgs].
    destruct (curTokenIs _ RPAREN && (depth =? 0)%Z); [apply lands_here|].
    destruct (curTokenIs _ EOF); [rewrite addError_at; apply lands_here|].
    apply (lands_tl e (t :: ts)). cbn [tl].
    destruct (Type_ (curToken _));
      rewrite ?nextToken_set_cons, ?nextToken_cons; apply IH; lia.
Qed.

Lemma parseCommandStatement_lands toks fuel e errs txts :
  (length toks <= fuel)%nat ->
  lands e toks (parseCommandStatement fuel (stateAt e toks errs txts)).
Proof.
  intros Hfuel. unfold parseCommandStatement.
  destruct (peekTokenIs _ LPAREN) eqn:Ep; [|apply lands_here].
  rewrite !nextToken_at.
  destruct (commandArgs_lands (tl (tl toks)) fuel e
              (ast.mkCommandStatement
                 (curToken (stateAt e toks errs txts))
                 (ast.mkIdentifier (curToken (stateAt e toks errs txts))
                    (Literal (curToken (stateAt e toks errs txts)))) [])
              [] 0%Z errs txts) as (r & k & errs' & txts' & ->).
  { destruct toks as [|a [|b ts]]; try discriminate Ep.
    cbn [tl length] in *; lia. }
  apply lands_tl, lands_tl.
  destruct r as [[c parts]|]; [destruct (0 <? length parts)%nat|];
    eexists _, k, _, _; reflexivity.
Qed.


(** A scan with a closing parenthesis ahead ends. *)
Lemma collectParts_lands toks :
  forall fuel e parts errs txts,
    hasRParen toks = true -> (length toks <= fuel)%nat ->
    lands e toks (collectParts fuel parts (stateAt e toks errs txts)).
Proof.
  induction toks as [|t ts IH]; intros fuel e parts errs txts Hrp Hfuel;
    [discriminate|].
  cbn [hasRParen existsb] in Hrp.
  destruct fuel as [|fuel]; cbn [collectParts]; rewrite curTokenIs_at;
    destruct (token.eqb (Type_ t) RPAREN) eqn:Et; cbn [negb];
    try apply lands_here; [cbn [length] in Hfuel; lia|].
  rewrite nextToken_cons. apply (lands_tl e (t :: ts)). cbn [tl].
  apply IH; [exact Hrp|cbn [length] in Hfuel; lia].
Qed.

Lemma parseIfVarOperator_lands toks fuel e expression errs txts :
  scansEnd toks = true -> (length toks <= fuel)%nat ->
  lands e toks (parseIfVarOperator fuel expression (stateAt e toks errs txts)).
Proof.
  intros Hs Hfuel. unfold parseIfVarOperator.
  destruct (isRelational (Type_ (curToken _))) eqn:Eop; cbn [negb];
    [|rewrite addError_at; apply lands_here].
  destruct toks as [|op rest]; [discriminate Eop|].
  rewrite curToken_at in Eop. rewrite nextToken_cons.
  apply (lands_tl e (op :: rest)). cbn [tl].
  destruct (curTokenIs _ RPAREN); [rewrite addError_at; apply lands_here|].
  destruct (collectParts_lands rest fuel e [] errs txts)
    as (parts & k & errs' & txts' & ->).
  { apply (scansEnd_ahead op); [exact Hs|].
    unfold startsScan. rewrite Eop. apply orb_true_r. }
  { cbn [length] in Hfuel. lia. }
  rewrite expectPeek_at. apply (lands_skipn e k).
  destruct (token.eqb _ LBRACE); cbn [negb]; [|apply lands_here].
  rewrite nextToken_at. apply lands_tl, lands_tl, lands_here.
Qed.

Lemma parseIfFlagOperator_lands toks e expression errs txts :
  lands e toks (Some (parseIfFlagOperator expression (stateAt e toks errs txts))).
Proof.
  unfold parseIfFlagOperator.
  destruct (negb (curTokenIs _ EQ)); [rewrite addError_at; apply lands_here|].
  rewrite nextToken_at. apply lands_tl.
  destruct (curTokenIs _ RPAREN); [rewrite addError_at; apply lands_here|].
  destruct (negb (curTokenIs _ TRUE) && negb (curTokenIs _ FALSE));
    [rewrite addError_at; apply lands_here|].
  rewrite expectPeek_at.
  destruct (token.eqb _ RPAREN); cbn [negb]; [|apply lands_here].
  rewrite expectPeek_at. apply lands_tl.
  destruct (token.eqb _ LBRACE); cbn [negb]; [|apply lands_here].
  rewrite nextToken_at. apply lands_tl, lands_tl, lands_here.
Qed.

(** *** The mutually recursive functions *)

Definition blockLands (fuel : nat) : Prop :=
  forall toks e errs txts,
    scansGuarded toks = true -> (2 * length toks + 6 <= fuel)%nat ->
    lands e toks (parseBlockStatement fuel (stateAt e toks errs txts)).

Definition loopLands (fuel : nat) : Prop :=
  forall toks e block errs txts,
    scansGuarded toks = true -> (2 * length toks + 5 <= fuel)%nat ->
    lands e toks (blockLoop fuel block (stateAt e toks errs txts)).

Definition statementLands (fuel : nat) : Prop :=
  forall toks e errs txts,
    scansGuarded toks = true -> (2 * length toks + 4 <= fuel)%nat ->
    lands e toks (parseStatement fuel (stateAt e toks errs txts)).

Definition ifLands (fuel : nat) : Prop :=
  forall toks e errs txts,
    scansEnd toks = true -> (2 * length toks + 3 <= fuel)%nat ->
    lands e toks (parseIfStatement fuel (stateAt e toks errs txts)).

Definition elifLands (fuel : nat) : Prop :=
  forall toks e elifs errs txts,
    scansEnd toks = true -> (2 * length toks + 3 <= fuel)%nat ->
    lands e toks (elifLoop fuel elifs (stateAt e toks errs txts)).

Definition conditionLands (fuel : nat) : Prop :=
  forall toks e lineNumber errs txts,
    scansEnd toks = true -> (2 * length toks + 2 <= fuel)%nat ->
    lands e toks
      (parseIfConditionExpression fuel lineNumber (stateAt e toks errs txts)).

Section Lands.

Variable fuel : nat.
Hypothesis IHblock : blockLands fuel.
Hypothesis IHloop : loopLands fuel.
Hypothesis IHstmt : statementLands fuel.
Hypothesis IHif : ifLands fuel.
Hypothesis IHelif : elifLands fuel.
Hypothesis IHcond : conditionLands fuel.

Lemma block_lands : blockLands (S fuel).
Proof.
  intros toks e errs txts Hs Hfuel. cbn [parseBlockStatement].
  apply IHloop; [exact Hs|lia].
Qed.

Lemma loop_lands : loopLands (S fuel).
Proof.
  intros toks e block errs txts Hs Hfuel. cbn [blockLoop].
  destruct (negb (curTokenIs _ RBRACE)); [|apply lands_here].
  destruct (curTokenIs _ EOF) eqn:Eeof;
    [rewrite addError_at; apply lands_here|].
  destruct toks as [|t ts]; [discriminate Eeof|]. cbn [length] in Hfuel.
  destruct (IHstmt (t :: ts) e errs txts)
    as (r & k & errs' & txts' & ->); [exact Hs|cbn [length]; lia|].
  destruct r as [s|]; [|eexists _, k, _, _; reflexivity].
  rewrite nextToken_at, skipn_tl. apply (lands_skipn e (S k)).
  apply IHloop; [apply scansGuarded_skipn; exact Hs|].
  cbn [skipn]. rewrite length_skipn. lia.
Qed.

Lemma statement_lands : statementLands (S fuel).
Proof.
  intros toks e errs txts Hs Hfuel. cbn [parseStatement].
  change (curToken (stateAt e toks errs txts)) with (hd (eofTok e) toks).
  destruct (Type_ (hd (eofTok e) toks)) eqn:Ehd;
    try (rewrite addError_at; apply lands_here).
  - destruct (parseCommandStatement_lands toks fuel e errs txts)
      as (r & k & errs' & txts' & ->); [lia|].
    destruct r; eexists _, k, _, _; reflexivity.
  - destruct (IHif toks e errs txts)
      as (r & k & errs' & txts' & ->);
      [apply (scansGuarded_if e); assumption|lia|].
    destruct r; eexists _, k, _, _; reflexivity.
Qed.

Lemma cond_lands : conditionLands (S fuel).
Proof.
  intros toks e lineNumber errs txts Hs Hfuel.
  cbn [parseIfConditionExpression].
  destruct (negb (peekTokenIs _ VAR) && negb (peekTokenIs _ FLAG)) eqn:Ek;
    [rewrite addError_at; apply lands_here|].
  destruct toks as [|lp [|kind ts]]; try discriminate Ek.
  rewrite nextToken_cons, expectPeek_at. cbn [tl hd].
  apply (lands_tl e (lp :: kind :: ts)). cbn [tl].
  destruct (token.eqb (Type_ (hd (eofTok e) ts)) LPAREN) eqn:Elp; cbn [negb];
    [|rewrite addError_at; apply lands_here].
  destruct ts as [|lp2 ts]; [discriminate Elp|]. cbn [hd] in Elp.
  apply (lands_tl e (kind :: lp2 :: ts)). cbn [tl].
  destruct (token.eqb (Type_ (peekToken _)) RPAREN);
    [rewrite addError_at; apply lands_here|].
  rewrite nextToken_cons. apply (lands_tl e (lp2 :: ts)). cbn [tl].
  cbn [length] in Hfuel.
  assert (Hs2 : scansEnd (lp2 :: ts) = true)
    by (apply (scansEnd_skipn 2 (lp :: kind :: lp2 :: ts)); exact Hs).
  destruct (collectParts_lands ts fuel e [] errs txts)
    as (parts & k & errs' & txts' & ->).
  { apply (scansEnd_ahead lp2); [exact Hs2|].
    unfold startsScan. rewrite Elp. reflexivity. }
  { lia. }
  rewrite nextToken_at, skipn_tl. apply (lands_skipn e (S k)).
  assert (Hs3 : scansEnd (skipn (S k) ts) = true)
    by (apply scansEnd_skipn; apply (scansEnd_tl (lp2 :: ts)); exact Hs2).
  assert (Hlen : (length (skipn (S k) ts) <= length ts)%nat)
    by (rewrite length_skipn; lia).
  set (toks5 := skipn (S k) ts) in *.
  match goal with
  | |- lands _ _ match ?o with _ => _ end =>
    assert (Ho : lands e toks5 o);
      [|destruct Ho as ([ok expression'] & j & errs6 & txts6 & ->)]
  end.
  { destruct (token.eqb _ VAR).
    - apply parseIfVarOperator_lands; [exact Hs3|lia].
    - destruct (token.eqb _ FLAG);
        [apply parseIfFlagOperator_lands|apply lands_here]. }
  destruct ok; [|eexists _, j, _, _; reflexivity].
  destruct (IHblock (skipn j toks5) e errs6 txts6)
    as (body & i & errs7 & txts7 & ->).
  { apply scansEnd_guarded, scansEnd_skipn. exact Hs3. }
  { rewrite length_skipn. lia. }
  apply (lands_skipn e j). eexists _, i, _, _. reflexivity.
Qed.

Lemma elif_lands : elifLands (S fuel).
Proof.
  intros toks e elifs errs txts Hs Hfuel. cbn [elifLoop].
  destruct (peekTokenIs _ ELSEIF) eqn:Ek; [|apply lands_here].
  destruct toks as [|cur [|kw ts]]; try discriminate Ek.
  rewrite nextToken_cons, expectPeek_at. cbn [tl hd].
  apply (lands_tl e (cur :: kw :: ts)). cbn [tl].
  destruct (token.eqb (Type_ (hd (eofTok e) ts)) LPAREN) eqn:Elp; cbn [negb];
    [|rewrite addError_at; apply lands_here].
  destruct ts as [|lp ts]; [discriminate Elp|].
  apply (lands_tl e (kw :: lp :: ts)). cbn [tl]. cbn [length] in Hfuel.
  assert (Hs2 : scansEnd (lp :: ts) = true)
    by (apply (scansEnd_skipn 2 (cur :: kw :: lp :: ts)); exact Hs).
  destruct (IHcond (lp :: ts) e
              (LineNumber (peekToken (stateAt e (lp :: ts) errs txts)))
              errs txts)
    as (r & k & errs' & txts' & ->); [exact Hs2|cbn [length]; lia|].
  destruct r as [c|]; [|eexists _, k, _, _; reflexivity].
  apply (lands_skipn e k). apply IHelif.
  - apply scansEnd_skipn. exact Hs2.
  - rewrite length_skipn. cbn [length]. lia.
Qed.

Lemma if_lands : ifLands (S fuel).
Proof.
  intros toks e errs txts Hs Hfuel. cbn [parseIfStatement].
  rewrite expectPeek_at.
  destruct (token.eqb (Type_ (hd (eofTok e) (tl toks))) LPAREN) eqn:Elp;
    cbn [negb]; [|rewrite addError_at; apply lands_here].
  destruct toks as [|kw [|lp ts]]; try discriminate Elp.
  cbn [tl length] in *. apply (lands_tl e (kw :: lp :: ts)). cbn [tl].
  assert (Hs2 : scansEnd (lp :: ts) = true)
    by (apply (scansEnd_tl (kw :: lp :: ts)); exact Hs).
  destruct (IHcond (lp :: ts) e
              (LineNumber (curToken (stateAt e (kw :: lp :: ts) errs txts)))
              errs txts)
    as (r & k & errs' & txts' & ->); [exact Hs2|cbn [length]; lia|].
  destruct r as [c|]; [|eexists _, k, _, _; reflexivity].
  destruct (IHelif (skipn k (lp :: ts)) e [] errs' txts')
    as (r & j & errs2 & txts2 & ->).
  { apply scansEnd_skipn. exact Hs2. }
  { rewrite length_skipn. cbn [length]. lia. }
  rewrite skipn_skipn.
  destruct r as [es|]; [|eexists _, (j + k)%nat, _, _; reflexivity].
  destruct (peekTokenIs _ ELSE);
    [|eexists _, (j + k)%nat, _, _; reflexivity].
  rewrite nextToken_at, skipn_tl, expectPeek_at, skipn_tl.
  destruct (token.eqb _ LBRACE); cbn [negb];
    [|rewrite addError_at; eexists _, (S (j + k))%nat, _, _; reflexivity].
  rewrite nextToken_at, skipn_tl.
  destruct (IHblock (skipn (S (S (S (j + k)))) (lp :: ts)) e errs2 txts2)
    as (body & i & errs3 & txts3 & ->).
  { apply scansEnd_guarded, scansEnd_skipn. exact Hs2. }
  { rewrite length_skipn. cbn [length]. lia. }
  rewrite skipn_skipn. eexists _, _, _, _. reflexivity.
Qed.

End Lands.

Lemma lands_mutual fuel :
  blockLands fuel /\ loopLands fuel /\ statementLands fuel /\
  ifLands fuel /\ elifLands fuel /\ conditionLands fuel.
Proof.
  induction fuel
    as [|fuel (IHblock & IHloop & IHstmt & IHif & IHelif & IHcond)].
  - refine (conj _ (conj _ (conj _ (conj _ (conj _ _)))));
      intros toks; intros; lia.
  - refine (conj _ (conj _ (conj _ (conj _ (conj _ _))))).
    + apply block_lands; assumption.
    + apply loop_lands; assumption.
    + apply statement_lands; assumption.
    + apply if_lands; assumption.
    + apply elif_lands; assumption.
    + apply cond_lands; assumption.
Qed.

Lemma parseBlockStatement_lands fuel : blockLands fuel.
Proof. apply lands_mutual. Qed.

(** *** Top level *)

Lemma parseScriptStatement_lands toks fuel e errs txts :
  scansGuarded toks = true -> (2 * length toks + 6 <= fuel)%nat ->
  lands e toks (parseScriptStatement fuel (stateAt e toks errs txts)).
Proof.
  intros Hs Hfuel. unfold parseScriptStatement. rewrite expectPeek_at.
  destruct (token.eqb _ IDENT); cbn [negb]; [|apply lands_here].
  rewrite expectPeek_at.
  destruct (token.eqb _ LBRACE); cbn [negb];
    [|apply lands_tl, lands_here].
  rewrite nextToken_at.
  destruct (parseBlockStatement_lands fuel (tl (tl (tl toks))) e errs txts)
    as (r & k & errs' & txts' & ->).
  { apply scansGuarded_tl, scansGuarded_tl, scansGuarded_tl. exact Hs. }
  { destruct toks as [|a [|b [|c ts]]]; cbn [tl length] in *; lia. }
  apply lands_tl, lands_tl, lands_tl. eexists _, k, _, _. reflexivity.
Qed.

Lemma parseTopLevelStatement_lands toks fuel e errs txts :
  scansGuarded toks = true -> (2 * length toks + 6 <= fuel)%nat ->
  lands e toks (parseTopLevelStatement fuel (stateAt e toks errs txts)).
Proof.
  intros Hs Hfuel. unfold parseTopLevelStatement.
  assert (Hraw :
    lands e toks
      match parseRawStatement (stateAt e toks errs txts) with
      | (None, p1) => Some (None, p1)
      | (Some statement, p1) => Some (Some (ast.Raw statement), p1)
      end).
  { unfold parseRawStatement. rewrite expectPeek_at.
    destruct (token.eqb _ IDENT); cbn [negb]; [|apply lands_here].
    rewrite expectPeek_at.
    destruct (token.eqb _ RAWSTRING); cbn [negb];
      apply lands_tl; [apply lands_tl|]; apply lands_here. }
  destruct (Type_ (curToken _)); try exact Hraw;
    try (rewrite addError_at; apply lands_here).
  destruct (parseScriptStatement_lands toks fuel e errs txts Hs Hfuel)
    as (r & k & errs' & txts' & ->).
  destruct r; eexists _, k, _, _; reflexivity.
Qed.

Lemma programLoop_returns n :
  forall toks fuel e program errs txts,
    (length toks <= n)%nat -> scansGuarded toks = true ->
    (2 * n + 7 <= fuel)%nat ->
    exists r p',
      programLoop fuel program (stateAt e toks errs txts) = Some (r, p').
Proof.
  induction n as [|n IH]; intros toks fuel e program errs txts Hlen Hs Hfuel;
    (destruct fuel as [|fuel]; [lia|]); cbn [programLoop].
  - destruct toks; [|cbn [length] in Hlen; lia]. cbn. eauto.
  - destruct (negb (curTokenIs _ EOF)) eqn:Eeof; [|eauto].
    destruct toks as [|t ts]; [discriminate Eeof|].
    destruct (parseTopLevelStatement_lands (t :: ts) fuel e errs txts)
      as (r & k & errs' & txts' & ->); [assumption|cbn [length] in *; lia|].
    destruct (0 <? length _)%nat; [eauto|].
    rewrite nextToken_at, skipn_tl. apply IH.
    + cbn [skipn]. rewrite length_skipn. cbn [length] in Hlen. lia.
    + apply scansGuarded_skipn. exact Hs.
    + lia.
Qed.

End terminate.

(** * The properties of the specification *)

Import token parser stream spec facts examples.
Import frame command program condition.
Import source origin samples accept trace sound.
#[local] Open Scope string_scope.

(** C1, as the code has it.  In the argument list of a command, between
    the opening parenthesis and the closing parenthesis that matches it
    (the first one met at depth 0), every comma token ends the current
    argument, at depth 0 and inside nested parentheses alike: the depth
    counter only decides which closing parenthesis ends the list. *)
Theorem command_arguments_split_at_every_comma :
  forall name lp body rp rest e errs txts fuel,
    Type_ lp = LPAREN ->
    Type_ rp = RPAREN ->
    closedBody 0 body = true ->
    (length body <= fuel)%nat ->
    parseCommandStatement fuel
      (stateAt e (name :: lp :: body ++ rp :: rest) errs txts) =
    Some (Some (ast.mkCommandStatement name
                  (ast.mkIdentifier name (Literal name))
                  (argsOf (length txts) body)),
          stateAt e (rp :: rest) errs (txts ++ stringLiterals body)%list)
    /\
    (forall pre c post,
       body = (pre ++ c :: post)%list -> Type_ c = COMMA ->
       nth_error (argPieces (length txts) body) (length pre) = Some None).
Proof.
  intros name lp body rp rest e errs txts fuel Hlp Hrp Hbody Hfuel. split.
  - apply parseCommandStatement_closed; assumption.
  - intros pre c post -> Hc. apply argPieces_comma. exact Hc.
Qed.

(** C1 on [foo(bar(1, 2), 3)]: the piece at index 3, the comma at depth 1,
    is a separator. *)
Lemma command_arguments_split_at_every_comma_witness :
  parseCommandStatement 8 (stateAt 3 nestedCall [] []) =
  Some (Some (ast.mkCommandStatement (ident "foo" 2)
                (ast.mkIdentifier (ident "foo" 2) "foo")
                (argsOf 0 nestedBody)),
        stateAt 3 [rparen 2] [] [])
  /\ nth_error (argPieces 0 nestedBody) 3 = Some None.
Proof.
  destruct (command_arguments_split_at_every_comma (ident "foo" 2) (lparen 2)
              nestedBody (rparen 2) [] 3 [] [] 8) as [H1 H2].
  - reflexivity.
  - reflexivity.
  - reflexivity.
  - simpl. lia.
  - split.
    + exact H1.
    + apply (H2 [ident "bar" 2; lparen 2; mkToken INT "1" 2] (comma 2)
                [mkToken INT "2" 2; rparen 2; comma 2; mkToken INT "3" 2]);
        reflexivity.
Defined.

(** C1 as stated fails: in [foo(bar(1, 2), 3)] the comma between [1] and
    [2] stands at depth 1 and still ends an argument, so that the command
    gets three arguments where a split at depth 0 only gives two. *)
Lemma comma_in_nested_call_ends_argument :
  (exists p',
     parseCommandStatement 8 (stateAt 3 nestedCall [] []) =
     Some (Some (ast.mkCommandStatement (ident "foo" 2)
                   (ast.mkIdentifier (ident "foo" 2) "foo")
                   ["bar ( 1"; "2 )"; "3"]), p'))
  /\ argsAtDepthZero 0 nestedBody = ["bar ( 1 , 2 )"; "3"]
  /\ ["bar ( 1"; "2 )"; "3"] <> argsAtDepthZero 0 nestedBody.
Proof.
  split; [eexists; vm_compute; reflexivity|].
  split; [reflexivity|]. vm_compute. discriminate.
Qed.

(** C2.  A string literal met in the argument list of a command is
    replaced, in the argument, by the label [Text_<n>] where [n] is the
    number of implicit texts recorded before it, and its value is recorded
    at index [n] of the implicit-text list; every later parsing step keeps
    the entries recorded so far; [ParseProgram], which starts from the
    empty list, returns the recorded values as the texts of the program,
    entry [n] under the name [Text_<n>]; distinct indices give distinct
    names.  For a script made of commands this gives the whole program.
    So it does for every well-formed source, whatever its raw statements
    and scripts and whatever the [if], [elif] and [else] parts of their
    blocks: the arguments of each command are labelled from the number of
    literals of the commands before it in the whole program, the texts
    are the literals of all the command arguments in the order of the
    source, and nothing else is a text (a string in a condition is
    not).  Conversely every program that [ParseProgram] returns on a
    fresh parser, whatever the token stream and the fuel, is the program
    of such a source: the stream is the tokens of a list of well-formed
    raw statements and scripts up to a token of the end of input, the
    statements are their trees with the labels numbered in that way, and
    the texts are the literals of the command arguments in the order of
    the source, entry [n] under the name [Text_<n>]. *)
Theorem implicit_texts_labelled_in_discovery_order :
  (forall name lp pre s post rp rest e errs txts fuel,
     Type_ lp = LPAREN -> Type_ rp = RPAREN -> Type_ s = STRING ->
     closedBody 0 (pre ++ s :: post) = true ->
     (length (pre ++ s :: post) <= fuel)%nat ->
     parseCommandStatement fuel
       (stateAt e (name :: lp :: (pre ++ s :: post) ++ rp :: rest) errs txts) =
     Some (Some (ast.mkCommandStatement name
                   (ast.mkIdentifier name (Literal name))
                   (argsOfPieces (argPieces (length txts) (pre ++ s :: post)))),
           stateAt e (rp :: rest) errs
             (txts ++ stringLiterals (pre ++ s :: post))%list)
     /\ nth_error (argPieces (length txts) (pre ++ s :: post)) (length pre) =
        Some (Some (getImplicitTextLabel
                      (Z.of_nat (length txts + length (stringLiterals pre)))))
     /\ nth_error (txts ++ stringLiterals (pre ++ s :: post))
          (length txts + length (stringLiterals pre)) = Some (Literal s))
  /\
  (forall fuel p p' n v,
     (exists r, parseStatement fuel p = Some (r, p')) \/
     (exists r, parseBlockStatement fuel p = Some (r, p')) \/
     (exists r, parseTopLevelStatement fuel p = Some (r, p')) \/
     (exists program r, programLoop fuel program p = Some (r, p')) ->
     nth_error (implicitTexts p) n = Some v ->
     nth_error (implicitTexts p') n = Some v)
  /\
  (forall fuel p program p',
     ParseProgram fuel p = Some (Some program, p') ->
     ast.Texts program = labelled 0 (implicitTexts p') /\
     forall n v,
       nth_error (implicitTexts p') n = Some v ->
       nth_error (ast.Texts program) n =
       Some (ast.mkText (getImplicitTextLabel (Z.of_nat n)) v EmptyString
               false))
  /\
  (forall i j, getImplicitTextLabel i = getImplicitTextLabel j -> i = j)
  /\
  (forall script name lb cs rb e fuel,
     Type_ script = SCRIPT -> Type_ name = IDENT -> Type_ lb = LBRACE ->
     Type_ rb = RBRACE ->
     forallb closedCommand cs = true ->
     (length (flat_map commandTokens cs) + 3 <= fuel)%nat ->
     ParseProgram fuel
       (New (lexer.mkLexer (straightLineScript script name lb cs rb) e)) =
     Some (Some (ast.mkProgram
                   [ast.Script
                      (ast.mkScriptStatement script
                         (ast.mkIdentifier name (Literal name))
                         (Some (ast.mkBlockStatement
                                  (hd rb (flat_map commandTokens cs))
                                  (commandStatements 0 cs))))]
                   (labelled 0 (commandLiterals cs))),
           stateAt e [] [] (commandLiterals cs)))
  /\
  (forall items e fuel,
     forallb wfItem items = true ->
     (length (itemsTokens items) + 2 <= fuel)%nat ->
     ParseProgram fuel (New (lexer.mkLexer (itemsTokens items) e)) =
     Some (Some (ast.mkProgram (itemsAst 0 items)
                   (labelled 0 (itemsLiterals items))),
           stateAt e [] [] (itemsLiterals items)))
  /\
  (forall fuel lx program p',
     ParseProgram fuel (New lx) = Some (Some program, p') ->
     exists items rest,
       forallb wfItem items = true /\
       lexer.input lx = (itemsTokens items ++ rest)%list /\
       Type_ (hd (eofTok (lexer.eofLine lx)) rest) = EOF /\
       program =
         ast.mkProgram (itemsAst 0 items)
           (labelled 0 (itemsLiterals items)) /\
       p' = stateAt (lexer.eofLine lx) rest [] (itemsLiterals items)).
Proof.
  split; [|split; [|split; [|split; [|split; [|split]]]]].
  - intros name lp pre s post rp rest e errs txts fuel Hlp Hrp Hs Hbody Hfuel.
    split; [|split].
    + apply parseCommandStatement_closed; assumption.
    + apply argPieces_label. exact Hs.
    + apply stringLiterals_position. exact Hs.
  - intros fuel p p' n v H. apply keeps_entry.
    destruct H as [[r H]|[[r H]|[[r H]|[program [r H]]]]].
    + eapply frames_parseStatement; exact H.
    + eapply frames_parseBlockStatement; exact H.
    + eapply frames_parseTopLevelStatement; exact H.
    + eapply frames_programLoop; exact H.
  - intros fuel p program p' H. apply ParseProgram_Texts in H. split.
    + exact H.
    + intros n v Hn. rewrite H, labelled_nth, Hn. reflexivity.
  - exact getImplicitTextLabel_inj.
  - intros. apply ParseProgram_straight_line; assumption.
  - intros. apply ParseProgram_source; assumption.
  - intros fuel lx program p' H. exact (ParseProgram_sound _ _ _ _ H).
Qed.

(** C2 on [msgbox("Hello", "World")], alone and in the script
    [script Main { lock msgbox("Hello", "World") }], and on a source of
    two scripts and a raw statement: the first script holds an [if] with
    [msgbox("Yes")], an [elif] with [msgbox("Two")] and an [else], the
    second script holds [msgbox("Bye")]. *)
Lemma implicit_texts_labelled_in_discovery_order_witness :
  (exists p',
     parseCommandStatement 3
       (stateAt 5 (ident "msgbox" 3 :: lparen 3 :: twoLiteralsBody
                     ++ [rparen 3; rbrace 4]) [] []) =
     Some (Some (ast.mkCommandStatement (ident "msgbox" 3)
                   (ast.mkIdentifier (ident "msgbox" 3) "msgbox")
                   ["Text_0"; "Text_1"]), p')
     /\ implicitTexts p' = ["Hello"; "World"])
  /\
  ParseProgram 12 (New twoLiterals) =
  Some (Some (ast.mkProgram
                [ast.Script
                   (ast.mkScriptStatement (mkToken SCRIPT "script" 1)
                      (ast.mkIdentifier (ident "Main" 1) "Main")
                      (Some (ast.mkBlockStatement (ident "lock" 2)
                        [ast.Command
                           (ast.mkCommandStatement (ident "lock" 2)
                              (ast.mkIdentifier (ident "lock" 2) "lock") []);
                         ast.Command
                           (ast.mkCommandStatement (ident "msgbox" 3)
                              (ast.mkIdentifier (ident "msgbox" 3) "msgbox")
                              ["Text_0"; "Text_1"])])))]
                [ast.mkText "Text_0" "Hello" EmptyString false;
                 ast.mkText "Text_1" "World" EmptyString false]),
        stateAt 5 [] [] ["Hello"; "World"])
  /\
  ParseProgram 60 (New sampleLexer) =
  Some (Some sampleProgram, stateAt 16 [] [] ["Yes"; "Two"; "Bye"])
  /\
  exists items rest,
    forallb wfItem items = true /\
    lexer.input sampleLexer = (itemsTokens items ++ rest)%list /\
    Type_ (hd (eofTok (lexer.eofLine sampleLexer)) rest) = EOF /\
    sampleProgram =
      ast.mkProgram (itemsAst 0 items) (labelled 0 (itemsLiterals items)) /\
    stateAt 16 [] [] ["Yes"; "Two"; "Bye"] =
      stateAt (lexer.eofLine sampleLexer) rest [] (itemsLiterals items).
Proof.
  destruct implicit_texts_labelled_in_discovery_order
    as (H1 & _ & _ & _ & H5 & H6 & H7).
  assert (Esample : ParseProgram 60 (New sampleLexer) =
              Some (Some sampleProgram,
                    stateAt 16 [] [] ["Yes"; "Two"; "Bye"])).
  { apply (H6 sampleItems 16%Z 60%nat); [reflexivity|].
    vm_compute. lia. }
  split; [|split; [|split]].
  - destruct (H1 (ident "msgbox" 3) (lparen 3)
                [mkToken STRING "Hello" 3; comma 3] (mkToken STRING "World" 3)
                [] (rparen 3) [rbrace 4] 5%Z [] [] 3%nat) as (E & _ & _).
    + reflexivity.
    + reflexivity.
    + reflexivity.
    + reflexivity.
    + simpl. lia.
    + eexists. split; [exact E|reflexivity].
  - apply (H5 (mkToken SCRIPT "script" 1) (ident "Main" 1) (lbrace 1)
              [Bare (ident "lock" 2);
               Call (ident "msgbox" 3) (lparen 3) twoLiteralsBody (rparen 3)]
              (rbrace 4) 5%Z 12%nat);
      try reflexivity. simpl. lia.
  - exact Esample.
  - exact (H7 60%nat sampleLexer sampleProgram _ Esample).
Defined.

(** C3.  On a parser that [New] has just made, whatever the token stream:
    when [ParseProgram] returns with a non-empty error list it returns nil,
    and it returns a program exactly when the error list is empty. *)
Theorem ParseProgram_nil_exactly_on_errors :
  forall fuel lx r p',
    ParseProgram fuel (New lx) = Some (r, p') ->
    (errors p' <> [] -> r = None) /\
    ((exists program, r = Some program) <-> errors p' = []).
Proof.
  intros fuel lx r p' H.
  apply ParseProgram_errors in H; [|rewrite New_stateAt; reflexivity].
  destruct H as [H1 H2]. split; [exact H2|]. split.
  - intros [program ->]. destruct (errors p'); [reflexivity|].
    assert (E : Some program = None) by (apply H2; discriminate).
    discriminate.
  - intros E. destruct r as [program|]; [exists program; reflexivity|].
    exfalso. apply H1; [reflexivity|exact E].
Qed.

(** C3 on a script without a name, and on a script that parses. *)
Lemma ParseProgram_nil_exactly_on_errors_witness :
  (exists p',
     ParseProgram 1 (New missingName) = Some (None, p') /\
     errors p' = [peekErrorMsg IDENT LBRACE] /\
     ~ (exists program, @None ast.Program = Some program))
  /\
  (exists program p',
     ParseProgram 12 (New twoLiterals) = Some (Some program, p') /\
     errors p' = []).
Proof.
  split.
  - eexists. split; [vm_compute; reflexivity|]. split; [reflexivity|].
    intros H.
    apply (proj2 (ParseProgram_nil_exactly_on_errors 1 missingName None _
                    eq_refl)) in H.
    discriminate H.
  - eexists _, _. split; [vm_compute; reflexivity|].
    apply (proj2 (ParseProgram_nil_exactly_on_errors 12 twoLiterals _ _
                    eq_refl)).
    eexists. reflexivity.
Defined.

(** C9.  [ParseProgram] empties the implicit-text list before it parses:
    what it returns does not depend on the texts the parser held before
    the call, and the texts of the program it returns are the implicit
    texts of this call, numbered from [Text_0]. *)
Theorem ParseProgram_clears_implicit_texts :
  forall fuel p,
    (forall old,
       ParseProgram fuel (setImplicitTexts old p) =
       ParseProgram fuel (setImplicitTexts [] p)) /\
    (forall program p',
       ParseProgram fuel p = Some (Some program, p') ->
       extends (setImplicitTexts [] p) p' /\
       ast.Texts program = labelled 0 (implicitTexts p') /\
       forall n t,
         nth_error (ast.Texts program) n = Some t ->
         ast.Text_Name t = getImplicitTextLabel (Z.of_nat n)).
Proof.
  intros fuel p. split; [reflexivity|].
  intros program p' H. split; [|split].
  - unfold ParseProgram in H.
    destruct (programLoop fuel _ _) as [[[r|] p1]|] eqn:E; try discriminate.
    inversion H; subst. eapply frames_programLoop; exact E.
  - apply ParseProgram_Texts in H. exact H.
  - apply ParseProgram_Texts in H. intros n t Hn.
    rewrite H, labelled_nth in Hn.
    destruct (nth_error (implicitTexts p') n); [|discriminate].
    inversion Hn. reflexivity.
Qed.

(** C9 on a parser that holds a text from an earlier call. *)
Lemma ParseProgram_clears_implicit_texts_witness :
  exists program p',
    ParseProgram 12 (setImplicitTexts ["Old"] (New twoLiterals)) =
    Some (Some program, p')
    /\ ast.Texts program = labelled 0 (implicitTexts p')
    /\ implicitTexts p' = ["Hello"; "World"].
Proof.
  eexists _, _. split; [vm_compute; reflexivity|]. split; [|reflexivity].
  apply (proj2 (ParseProgram_clears_implicit_texts 12
                  (setImplicitTexts ["Old"] (New twoLiterals)))).
  vm_compute. reflexivity.
Defined.

(** C10.  When the token after the name of a command is not an opening
    parenthesis, [parseCommandStatement] returns the command with no
    argument and leaves the parser as it found it, the name still the
    current token. *)
Theorem command_without_parenthesis_has_no_arguments :
  forall fuel p,
    Type_ (peekToken p) <> LPAREN ->
    parseCommandStatement fuel p =
    Some (Some (ast.mkCommandStatement (curToken p)
                  (ast.mkIdentifier (curToken p) (Literal (curToken p))) []),
          p).
Proof. intros fuel p H. apply parseCommandStatement_bare. exact H. Qed.

(** C10 on [lock], followed by the name of the next command. *)
Lemma command_without_parenthesis_has_no_arguments_witness :
  parseCommandStatement 0 (stateAt 5 [ident "lock" 2; ident "msgbox" 3] [] []) =
  Some (Some (ast.mkCommandStatement (ident "lock" 2)
                (ast.mkIdentifier (ident "lock" 2) "lock") []),
        stateAt 5 [ident "lock" 2; ident "msgbox" 3] [] []).
Proof.
  apply (command_without_parenthesis_has_no_arguments 0
           (stateAt 5 [ident "lock" 2; ident "msgbox" 3] [] [])).
  simpl. discriminate.
Defined.

(** C4, as the code has it.  After the opening parenthesis of an [if] or
    [elif] the parser accepts one operator-expression, [flag ( operand )
    == TRUE|FALSE )] or [var ( operand ) relop value )], followed by an
    opening brace and the body, and returns one condition holding that
    operator; there is no node for a combination.  After the comparison
    value of a flag any token other than a closing parenthesis, [&&] and
    [||] included, is an error and the result is nil; for var the tokens up
    to the next closing parenthesis are the comparison value and any token
    other than an opening brace after that parenthesis is an error. *)
Theorem condition_is_a_single_operator_expression :
  (forall fuel lineNumber lp0 fl lp o os rp eq v rp2 lb rest e errs txts,
     Type_ fl = FLAG -> Type_ lp = LPAREN -> noRParen (o :: os) = true ->
     Type_ rp = RPAREN -> Type_ eq = EQ ->
     Type_ v = TRUE \/ Type_ v = FALSE ->
     Type_ rp2 = RPAREN -> Type_ lb = LBRACE ->
     (length (o :: os) <= fuel)%nat ->
     parseIfConditionExpression (S fuel) lineNumber
       (stateAt e
          (lp0 :: fl :: lp :: (o :: os) ++ rp :: eq :: v :: rp2 :: lb :: rest)
          errs txts) =
     match parseBlockStatement fuel (stateAt e rest errs txts) with
     | None => None
     | Some (body, p') =>
       Some (Some (ast.mkConditionExpression FLAG
                     (Join (map Literal (o :: os))) EQ
                     (typeString (Type_ v)) body), p')
     end)
  /\
  (forall fuel lineNumber lp0 vr lp o os rp op v vs rp2 lb rest e errs txts,
     Type_ vr = VAR -> Type_ lp = LPAREN -> noRParen (o :: os) = true ->
     Type_ rp = RPAREN -> isRelational (Type_ op) = true ->
     noRParen (v :: vs) = true -> Type_ rp2 = RPAREN -> Type_ lb = LBRACE ->
     (length (o :: os) <= fuel)%nat -> (length (v :: vs) <= fuel)%nat ->
     parseIfConditionExpression (S fuel) lineNumber
       (stateAt e
          (lp0 :: vr :: lp :: (o :: os) ++ rp :: op :: (v :: vs)
             ++ rp2 :: lb :: rest)
          errs txts) =
     match parseBlockStatement fuel (stateAt e rest errs txts) with
     | None => None
     | Some (body, p') =>
       Some (Some (ast.mkConditionExpression VAR
                     (Join (map Literal (o :: os))) (Type_ op)
                     (Join (map Literal (v :: vs))) body), p')
     end)
  /\
  (forall fuel lineNumber lp0 fl lp o os rp eq v x rest e errs txts,
     Type_ fl = FLAG -> Type_ lp = LPAREN -> noRParen (o :: os) = true ->
     Type_ rp = RPAREN -> Type_ eq = EQ ->
     Type_ v = TRUE \/ Type_ v = FALSE ->
     Type_ x <> RPAREN ->
     (length (o :: os) <= fuel)%nat ->
     parseIfConditionExpression (S fuel) lineNumber
       (stateAt e (lp0 :: fl :: lp :: (o :: os) ++ rp :: eq :: v :: x :: rest)
          errs txts) =
     Some (None,
           stateAt e (v :: x :: rest)
             (errs ++ [peekErrorMsg RPAREN (Type_ x)])%list txts))
  /\
  (forall fuel lineNumber lp0 vr lp o os rp op v vs rp2 x rest e errs txts,
     Type_ vr = VAR -> Type_ lp = LPAREN -> noRParen (o :: os) = true ->
     Type_ rp = RPAREN -> isRelational (Type_ op) = true ->
     noRParen (v :: vs) = true -> Type_ rp2 = RPAREN -> Type_ x <> LBRACE ->
     (length (o :: os) <= fuel)%nat -> (length (v :: vs) <= fuel)%nat ->
     parseIfConditionExpression (S fuel) lineNumber
       (stateAt e
          (lp0 :: vr :: lp :: (o :: os) ++ rp :: op :: (v :: vs)
             ++ rp2 :: x :: rest)
          errs txts) =
     Some (None,
           stateAt e (rp2 :: x :: rest)
             (errs ++ [peekErrorMsg LBRACE (Type_ x)])%list txts)).
Proof.
  split; [|split; [|split]]; intros.
  - apply cond_flag_accept; assumption.
  - apply cond_var_accept; assumption.
  - apply cond_flag_reject; assumption.
  - apply cond_var_reject; assumption.
Qed.

(** C4 on [(flag(A) == TRUE) { }] and on [(flag(A) == TRUE && flag]. *)
Lemma condition_is_a_single_operator_expression_witness :
  parseIfConditionExpression 3 2
    (stateAt 4 (lparen 2 :: flagA ++ [rparen 2; lbrace 2; rbrace 2; rbrace 3])
       [] []) =
  Some (Some (ast.mkConditionExpression FLAG "A" EQ "TRUE"
                (Some (ast.mkBlockStatement (rbrace 2) []))),
        stateAt 4 [rbrace 2; rbrace 3] [] [])
  /\
  parseIfConditionExpression 3 2
    (stateAt 4 (lparen 2 :: flagA ++ [mkToken AND "&&" 2; mkToken FLAG "flag" 2])
       [] []) =
  Some (None,
        stateAt 4 [mkToken TRUE "TRUE" 2; mkToken AND "&&" 2;
                   mkToken FLAG "flag" 2]
          [peekErrorMsg RPAREN AND] []).
Proof.
  destruct condition_is_a_single_operator_expression as (H1 & _ & H3 & _).
  split.
  - apply (H1 2%nat 2%Z (lparen 2) (mkToken FLAG "flag" 2) (lparen 2)
              (ident "A" 2) [] (rparen 2) (mkToken EQ "==" 2)
              (mkToken TRUE "TRUE" 2) (rparen 2) (lbrace 2)
              [rbrace 2; rbrace 3] 4%Z [] []);
      try reflexivity; try (left; reflexivity); simpl; lia.
  - apply (H3 2%nat 2%Z (lparen 2) (mkToken FLAG "flag" 2) (lparen 2)
              (ident "A" 2) [] (rparen 2) (mkToken EQ "==" 2)
              (mkToken TRUE "TRUE" 2) (mkToken AND "&&" 2)
              [mkToken FLAG "flag" 2] 4%Z [] []);
      try reflexivity; try (left; reflexivity); try discriminate; simpl; lia.
Defined.

(** C4 as stated fails: the condition [flag(A) == TRUE && flag(B) == TRUE]
    is refused at [&&]; the parser returns nil and one error. *)
Lemma boolean_combination_is_refused :
  exists p',
    ParseProgram 20 (New andCondition) = Some (None, p') /\
    errors p' = ["expected next token to be type ), got && instead"].
Proof. eexists. split; vm_compute; reflexivity. Qed.

(** C5 fails on the code.  On an input that ends inside the operand or
    inside the comparison value of a condition, [ParseProgram] never
    returns: whatever the fuel, the loop that looks for the closing
    parenthesis is still running. *)
Theorem unclosed_condition_never_returns :
  forall fuel,
    ParseProgram fuel (New unclosedOperand) = None /\
    ParseProgram fuel (New unclosedValue) = None.
Proof.
  intros fuel. split.
  - do 5 (destruct fuel as [|fuel]; [reflexivity|]).
    unfold ParseProgram. cbn -[parseIfConditionExpression].
    match goal with
    | |- context [parseIfConditionExpression fuel ?n ?st] =>
      change st
        with (stateAt 3 [lparen 2; mkToken VAR "var" 2; lparen 2; ident "A" 2]
                [] [])
    end.
    rewrite cond_open_operand; try reflexivity. left; reflexivity.
  - do 5 (destruct fuel as [|fuel]; [reflexivity|]).
    unfold ParseProgram. cbn -[parseIfConditionExpression].
    match goal with
    | |- context [parseIfConditionExpression fuel ?n ?st] =>
      change st
        with (stateAt 3
                [lparen 2; mkToken VAR "var" 2; lparen 2; ident "A" 2;
                 rparen 2; mkToken EQ "==" 2; mkToken INT "1" 2] [] [])
    end.
    rewrite cond_open_value; reflexivity.
Qed.

(** C6, as the code has it.  After [var ( operand )] a token that is not
    one of the six relational operators gives an error and a nil result;
    after [flag ( operand )] a token that is not [==] gives the error that
    names [==] and a nil result; after [flag ( operand ) ==] a token that
    is neither [TRUE] nor [FALSE] gives an error and a nil result, the
    error naming [TRUE] and [FALSE] unless the token is a closing
    parenthesis, for which it says that the comparison value is missing.
    A condition the parser returns holds a relational operator when its
    kind is var, and [==] with [TRUE] or [FALSE] when its kind is flag. *)
Theorem condition_operator_is_validated :
  (forall fuel lineNumber lp0 vr lp o os rp op rest e errs txts,
     Type_ vr = VAR -> Type_ lp = LPAREN -> noRParen (o :: os) = true ->
     Type_ rp = RPAREN -> (length (o :: os) <= fuel)%nat ->
     isRelational (Type_ op) = false ->
     parseIfConditionExpression (S fuel) lineNumber
       (stateAt e (lp0 :: vr :: lp :: (o :: os) ++ rp :: op :: rest) errs txts) =
     Some (None,
           stateAt e (op :: rest) (errs ++ [invalidOperatorMsg op])%list txts))
  /\
  (forall fuel lineNumber lp0 fl lp o os rp op rest e errs txts,
     Type_ fl = FLAG -> Type_ lp = LPAREN -> noRParen (o :: os) = true ->
     Type_ rp = RPAREN -> (length (o :: os) <= fuel)%nat ->
     Type_ op <> EQ ->
     parseIfConditionExpression (S fuel) lineNumber
       (stateAt e (lp0 :: fl :: lp :: (o :: os) ++ rp :: op :: rest) errs txts) =
     Some (None,
           stateAt e (op :: rest) (errs ++ [onlyEqMsg op])%list txts))
  /\
  (forall fuel lineNumber lp0 fl lp o os rp eq x rest e errs txts,
     Type_ fl = FLAG -> Type_ lp = LPAREN -> noRParen (o :: os) = true ->
     Type_ rp = RPAREN -> (length (o :: os) <= fuel)%nat ->
     Type_ eq = EQ ->
     Type_ x <> TRUE -> Type_ x <> FALSE -> Type_ x <> RPAREN ->
     parseIfConditionExpression (S fuel) lineNumber
       (stateAt e (lp0 :: fl :: lp :: (o :: os) ++ rp :: eq :: x :: rest)
          errs txts) =
     Some (None,
           stateAt e (x :: rest) (errs ++ [onlyTrueFalseMsg x])%list txts))
  /\
  (forall fuel lineNumber lp0 fl lp o os rp eq x rest e errs txts,
     Type_ fl = FLAG -> Type_ lp = LPAREN -> noRParen (o :: os) = true ->
     Type_ rp = RPAREN -> (length (o :: os) <= fuel)%nat ->
     Type_ eq = EQ ->
     Type_ x = RPAREN ->
     parseIfConditionExpression (S fuel) lineNumber
       (stateAt e (lp0 :: fl :: lp :: (o :: os) ++ rp :: eq :: x :: rest)
          errs txts) =
     Some (None,
           stateAt e (x :: rest) (errs ++ [missingValueMsg x])%list txts))
  /\
  (forall fuel lineNumber p c p',
     parseIfConditionExpression fuel lineNumber p = Some (Some c, p') ->
     (ast.Type_ c = VAR /\ isRelational (ast.Operator c) = true) \/
     (ast.Type_ c = FLAG /\ ast.Operator c = EQ /\
      (ast.ComparisonValue c = "TRUE" \/ ast.ComparisonValue c = "FALSE"))).
Proof.
  split; [|split; [|split; [|split]]]; intros.
  - apply cond_var_bad_operator; assumption.
  - apply cond_flag_bad_operator; assumption.
  - apply cond_flag_bad_value; assumption.
  - apply cond_flag_missing_value; assumption.
  - eapply cond_valid; eassumption.
Qed.

(** C6 on [(flag(A) != TRUE] and on [(flag(A) == 1)]. *)
Lemma condition_operator_is_validated_witness :
  parseIfConditionExpression 2 2
    (stateAt 4
       [lparen 2; mkToken FLAG "flag" 2; lparen 2; ident "A" 2; rparen 2;
        mkToken NEQ "!=" 2; mkToken TRUE "TRUE" 2] [] []) =
  Some (None,
        stateAt 4 [mkToken NEQ "!=" 2; mkToken TRUE "TRUE" 2]
          ["line 2: invalid condition operator '!='. Only '==' is allowed."]
          [])
  /\
  parseIfConditionExpression 2 2
    (stateAt 4
       [lparen 2; mkToken FLAG "flag" 2; lparen 2; ident "A" 2; rparen 2;
        mkToken EQ "==" 2; mkToken INT "1" 2; rparen 2] [] []) =
  Some (None,
        stateAt 4 [mkToken INT "1" 2; rparen 2]
          ["line 2: invalid flag comparison value '1'. Only 'TRUE' and 'FALSE' are allowed."]
          []).
Proof.
  destruct condition_operator_is_validated as (_ & H2 & H3 & _).
  split.
  - apply (H2 1%nat 2%Z (lparen 2) (mkToken FLAG "flag" 2) (lparen 2)
              (ident "A" 2) [] (rparen 2) (mkToken NEQ "!=" 2)
              [mkToken TRUE "TRUE" 2] 4%Z [] []);
      try reflexivity; try discriminate; simpl; lia.
  - apply (H3 1%nat 2%Z (lparen 2) (mkToken FLAG "flag" 2) (lparen 2)
              (ident "A" 2) [] (rparen 2) (mkToken EQ "==" 2)
              (mkToken INT "1" 2) [rparen 2] 4%Z [] []);
      try reflexivity; try discriminate; simpl; lia.
Defined.

(** C6 as stated fails: in [if (flag(A) == ) { }] the token in the place of
    the comparison value is a closing parenthesis; the parser returns nil
    with one error, and that error names neither [TRUE] nor [FALSE]. *)
Lemma missing_flag_value_message_names_no_value :
  (exists p',
     ParseProgram 20 (New flagWithoutValue) = Some (None, p') /\
     errors p' = ["line 2: missing comparison value for if statement"])
  /\ occursIn "TRUE" "line 2: missing comparison value for if statement"
     = false
  /\ occursIn "FALSE" "line 2: missing comparison value for if statement"
     = false.
Proof.
  split; [eexists; split; vm_compute; reflexivity|].
  split; vm_compute; reflexivity.
Qed.

(** C7 fails on the code for blocks.  In [script Main {] followed by the
    end of the input, the opening brace is on line 1 and the error carries
    the line of the end-of-input token, whatever that line is: the block
    records the token that follows the brace.  For a command the error does
    carry the line of the command name. *)
Theorem unclosed_block_reports_line_of_end_of_input :
  (forall e,
     exists p',
       ParseProgram 3 (New (lexer.mkLexer scriptMain e)) = Some (None, p') /\
       errors p' =
         [("line " ++ fmt_d e
             ++ ": missing closing curly brace for block statement")] /\
       curToken p' = eofTok e)
  /\
  (exists p',
     ParseProgram 3 (New unclosedBlock) = Some (None, p') /\
     errors p' = ["line 3: missing closing curly brace for block statement"]
     /\ LineNumber (lbrace 1) = 1%Z)
  /\
  (exists p',
     ParseProgram 8 (New unclosedArguments) = Some (None, p') /\
     errors p' = ["line 2: missing closing parenthesis for command 'foo'"]
     /\ curToken p' = eofTok 4).
Proof.
  split; [|split].
  - intros e. eexists. split; [reflexivity|]. split; reflexivity.
  - eexists. split; [vm_compute; reflexivity|]. split; reflexivity.
  - eexists. split; [vm_compute; reflexivity|]. split; reflexivity.
Qed.

(** C8, as the code has it.  Every message in the error list of a parser
    that [New] made and [ParseProgram] ran is either a message of
    [peekError], which names the expected and the found token type and
    carries no line number, or of the form [line <n>: ...] where [n] is the
    line number of a token the lexer delivered, the token of the end of
    input included.  That token belongs to the
    top-level statement in which the parser stopped: the messages were all
    added by one call of [parseTopLevelStatement], entered without errors
    on the tokens [more ++ rest] and left on [rest], and the token lies
    between the first token of [more] and the token peeked when the call
    returned. *)
Theorem diagnostics_are_line_numbered_or_peek_errors :
  forall fuel lx r p',
    ParseProgram fuel (New lx) = Some (r, p') ->
    Forall diagnostic (errors p') /\
    exists before more rest txts,
      lexer.input lx = (before ++ more ++ rest)%list /\
      p' = stateAt (lexer.eofLine lx) rest (errors p') txts /\
      Forall (located (more ++ peeked (lexer.eofLine lx) rest))
        (errors p') /\
      (errors p' <> [] ->
       exists f txts0 st,
         parseTopLevelStatement f
           (stateAt (lexer.eofLine lx) (more ++ rest) [] txts0) =
         Some (st, p')).
Proof.
  intros fuel lx r p' H. split.
  { apply ParseProgram_diagnostics in H.
    destruct H as [errs [E H]]. rewrite E, New_stateAt. exact H. }
  rewrite New_stateAt in H. unfold ParseProgram in H.
  match type of H with
  | context [setImplicitTexts [] (stateAt ?e ?x [] [])] =>
    change (setImplicitTexts [] (stateAt e x [] [])) with (stateAt e x [] [])
      in H
  end.
  destruct (programLoop fuel _ _) as [[r0 p1]|] eqn:E; [|discriminate].
  assert (p' = p1) by (destruct r0; inversion H; reflexivity). subst p1.
  clear H. apply programLoop_last_call in E.
  destruct E as (before & after & Hts & [[txts' ->]|[Herr (f & txts0 & st & E)]]).
  - exists before, [], after, txts'. cbn [errors stateAt app].
    split; [exact Hts|]. split; [reflexivity|]. split; [apply Forall_nil|].
    intros Hne. contradiction Hne. reflexivity.
  - pose proof E as E0. apply parseTopLevelStatement_located in E.
    destruct E as (more & rest & new & txts' & -> & -> & Hnew).
    exists before, more, rest, txts'. cbn [errors stateAt app].
    split; [exact Hts|]. split; [reflexivity|]. split; [exact Hnew|].
    intros _. exists f, txts0, st. exact E0.
Qed.

(** C8 on [if foo]: one message of each kind.  The line of the second
    message is the line of the [if] token, which the parser read in the
    script in which it stopped. *)
Lemma diagnostics_are_line_numbered_or_peek_errors_witness :
  exists p',
    ParseProgram 6 (New ifWithoutParenthesis) = Some (None, p') /\
    errors p' =
      ["expected next token to be type (, got IDENT instead";
       "line 2: missing opening parenthesis of if statement 'foo'"] /\
    (Forall diagnostic (errors p') /\
     exists before more rest txts,
       lexer.input ifWithoutParenthesis = (before ++ more ++ rest)%list /\
       p' = stateAt (lexer.eofLine ifWithoutParenthesis) rest (errors p') txts
       /\
       Forall
         (located
            (more ++ peeked (lexer.eofLine ifWithoutParenthesis) rest))
         (errors p') /\
       (errors p' <> [] ->
        exists f txts0 st,
          parseTopLevelStatement f
            (stateAt (lexer.eofLine ifWithoutParenthesis) (more ++ rest) []
               txts0) =
          Some (st, p'))).
Proof.
  eexists. split; [vm_compute; reflexivity|]. split; [reflexivity|].
  apply (diagnostics_are_line_numbered_or_peek_errors 6 ifWithoutParenthesis
           None).
  vm_compute. reflexivity.
Defined.

(** C8 as stated fails: for [script {] the only message is the one of
    [peekError]; it does not start with [line] and holds no digit at
    all. *)
Lemma peek_error_carries_no_line_number :
  (exists p',
     ParseProgram 1 (New missingName) = Some (None, p') /\
     errors p' = ["expected next token to be type IDENT, got { instead"])
  /\ (forall n,
        ~ lineNumbered n "expected next token to be type IDENT, got { instead")
  /\ forallb (fun d => negb (occursIn d
        "expected next token to be type IDENT, got { instead"))
       ["0"; "1"; "2"; "3"; "4"; "5"; "6"; "7"; "8"; "9"] = true.
Proof.
  split; [eexists; split; vm_compute; reflexivity|]. split.
  - intros n H. apply lineNumbered_head in H. discriminate H.
  - vm_compute. reflexivity.
Qed.

(** * Further properties of the code *)

Import complete node quiet terminate.

(** The token literal of the program of a source is the literal of the
    first token of the source. *)
Lemma Program_TokenLiteral_items items texts :
  Program_TokenLiteral (ast.mkProgram (itemsAst 0 items) texts) =
  match itemsTokens items with
  | t :: _ => Literal t
  | [] => EmptyString
  end.
Proof.
  destruct items as [|[kw name value|kw name lb body rb] items]; reflexivity.
Qed.

(** X1.  A program that [ParseProgram] returns on a fresh parser is
    complete: its top-level statements are scripts and raw statements,
    every script and every condition has its body, a block holds commands
    and [if] statements only, and every condition holds an operator that
    its kind admits.  A node whose body is nil, which
    [parseScriptStatement] and [parseIfConditionExpression] do build when
    a block fails, never reaches the caller of [ParseProgram]. *)
Theorem returned_program_is_complete :
  forall fuel lx program p',
    ParseProgram fuel (New lx) = Some (Some program, p') ->
    forallb topLevelOk (ast.TopLevelStatements program) = true.
Proof.
  intros fuel lx program p' H. unfold ParseProgram in H.
  destruct (programLoop fuel _ _) as [[[r|] p1]|] eqn:E; try discriminate.
  inversion H; subst.
  rewrite (appendImplicitTexts_labelled _ 0%nat).
  cbn [ast.TopLevelStatements].
  eapply programLoop_complete; [| |exact E]; [|reflexivity].
  rewrite New_stateAt. reflexivity.
Qed.

(** X1 on [script Main { lock msgbox("Hello", "World") }]. *)
Lemma returned_program_is_complete_witness :
  exists program p',
    ParseProgram 12 (New twoLiterals) = Some (Some program, p') /\
    forallb topLevelOk (ast.TopLevelStatements program) = true.
Proof.
  eexists _, _. split.
  - vm_compute. reflexivity.
  - eapply (returned_program_is_complete 12 twoLiterals).
    vm_compute. reflexivity.
Defined.

(** X2.  No parsing function returns nil in silence: whenever
    [parseTopLevelStatement], [parseScriptStatement], [parseRawStatement],
    [parseBlockStatement], [parseStatement], [parseCommandStatement],
    [parseIfStatement] or [parseIfConditionExpression] returns nil, it has
    appended at least one message to the error list.  The test
    [statement != nil] in the loop of [ParseProgram] is therefore never
    false when it is reached. *)
Theorem nil_result_comes_with_an_error :
  forall fuel p p',
    (parseTopLevelStatement fuel p = Some (None, p') \/
     parseScriptStatement fuel p = Some (None, p') \/
     parseRawStatement p = (None, p') \/
     parseBlockStatement fuel p = Some (None, p') \/
     parseStatement fuel p = Some (None, p') \/
     parseCommandStatement fuel p = Some (None, p') \/
     parseIfStatement fuel p = Some (None, p') \/
     (exists lineNumber,
        parseIfConditionExpression fuel lineNumber p = Some (None, p'))) ->
    exists msg more, errors p' = (errors p ++ msg :: more)%list.
Proof.
  intros fuel p p' H.
  assert (Hloud : (length (errors p) < length (errors p'))%nat /\ extends p p').
  { assert (Hq : forall A (P : A -> Prop),
              (quietly p p' -> exists x, @None A = Some x /\ P x) ->
              (length (errors p) < length (errors p'))%nat).
    { intros A P Hx. unfold quietly in Hx.
      destruct (Nat.lt_ge_cases (length (errors p)) (length (errors p')))
        as [L|L]; [exact L|].
      destruct (Hx L) as (x & Ex & _). discriminate. }
    destruct (quiet_mutual fuel)
      as (Qblock & _ & Qstmt & Qif & _ & Qcond).
    destruct (frames_mutual fuel)
      as (Fblock & _ & Fstmt & Fif & _ & Fcond).
    destruct H as [H|[H|[H|[H|[H|[H|[H|[lineNumber H]]]]]]]].
    - split; [|eapply frames_parseTopLevelStatement; exact H].
      eapply Hq. apply (parseTopLevelStatement_quiet _ _ _ _ H).
    - split; [|eapply frames_parseScriptStatement; exact H].
      apply (Hq ast.ScriptStatement (fun _ => True)). intros Hx.
      destruct (parseScriptStatement_quiet _ _ _ _ H Hx)
        as (tok & name & b & E & _). discriminate.
    - split; [|eapply frames_parseRawStatement; exact H].
      apply parseRawStatement_loud. exact H.
    - split; [|eapply Fblock; exact H]. eapply Hq. apply (Qblock _ _ _ H).
    - split; [|eapply Fstmt; exact H]. eapply Hq. apply (Qstmt _ _ _ H).
    - split; [|eapply frames_parseCommandStatement; exact H].
      apply (parseCommandStatement_loud _ _ _ H).
    - split; [|eapply Fif; exact H]. eapply Hq. apply (Qif _ _ _ H).
    - split; [|eapply Fcond; exact H]. eapply Hq. apply (Qcond _ _ _ _ H). }
  destruct Hloud as [L [[errs [E _]] _]]. rewrite E in L |- *.
  rewrite length_app in L. destruct errs as [|msg more]; [cbn in L; lia|].
  eauto.
Qed.

(** X2 on [script {], where the name of the script is missing. *)
Lemma nil_result_comes_with_an_error_witness :
  exists p' msg more,
    parseTopLevelStatement 1 (New missingName) = Some (None, p') /\
    errors p' = (errors (New missingName) ++ msg :: more)%list.
Proof.
  eexists.
  destruct (nil_result_comes_with_an_error 1 (New missingName) _
              (or_introl eq_refl)) as (msg & more & E).
  exists msg, more. split; [reflexivity|exact E].
Defined.

(** X3.  [ParseProgram] returns on every token stream whose scans end:
    when, from the first [if] of the stream on, every opening parenthesis
    and every relational operator has a closing parenthesis somewhere
    after it, a fuel of twice the number of tokens plus seven is enough,
    whatever else is wrong with the stream.  The loops that read an
    operand and a comparison value up to a closing parenthesis are the
    only ones that can run past the end of the input. *)
Theorem ParseProgram_returns_when_scans_end :
  forall lx fuel,
    scansGuarded (lexer.input lx) = true ->
    (2 * length (lexer.input lx) + 7 <= fuel)%nat ->
    exists r p', ParseProgram fuel (New lx) = Some (r, p').
Proof.
  intros lx fuel Hs Hfuel. rewrite New_stateAt. unfold ParseProgram.
  match goal with
  | |- context [setImplicitTexts [] (stateAt ?e ?x [] [])] =>
    change (setImplicitTexts [] (stateAt e x [] [])) with (stateAt e x [] [])
  end.
  destruct (programLoop_returns (length (lexer.input lx)) (lexer.input lx)
              fuel (lexer.eofLine lx) (ast.mkProgram [] []) [] []
              (le_n _) Hs Hfuel) as (r & p' & ->).
  destruct r; eauto.
Qed.

(** X3 on [script Main {] / [foo(1,], an argument list that is never
    closed: the parser returns, without a program. *)
Lemma ParseProgram_returns_when_scans_end_witness :
  scansGuarded (lexer.input unclosedArguments) = true /\
  (2 * length (lexer.input unclosedArguments) + 7 <= 21)%nat /\
  exists r p', ParseProgram 21 (New unclosedArguments) = Some (r, p').
Proof.
  split; [reflexivity|]. split; [vm_compute; lia|].
  apply (ParseProgram_returns_when_scans_end unclosedArguments 21).
  - reflexivity.
  - vm_compute. lia.
Defined.





(** X6.  [TokenLiteral] of a program that [ParseProgram] returns on a
    fresh parser is the literal of the first token of the input, the
    [script], [raw] or [raw_global] keyword of the first statement, and
    the empty string when the input holds no statement. *)
Theorem program_token_literal_is_first_token :
  forall fuel lx program p',
    ParseProgram fuel (New lx) = Some (Some program, p') ->
    Program_TokenLiteral program =
    if token.eqb
         (Type_ (hd (eofTok (lexer.eofLine lx)) (lexer.input lx))) EOF
    then EmptyString
    else Literal (hd (eofTok (lexer.eofLine lx)) (lexer.input lx)).
Proof.
  intros fuel lx program p' H.
  destruct (ParseProgram_sound _ _ _ _ H)
    as (items & rest & Hwf & -> & Hrest & -> & _).
  rewrite Program_TokenLiteral_items.
  destruct items as [|i items].
  - cbn [itemsTokens flat_map app]. rewrite Hrest. reflexivity.
  - cbn [forallb] in Hwf. apply andb_true_iff in Hwf.
    destruct Hwf as [Hi _]. unfold itemsTokens. cbn [flat_map].
    destruct (item_shape i Hi) as (t & ts & -> & Ht). cbn [app hd].
    destruct (token.eqb (Type_ t) EOF) eqn:E; [|reflexivity].
    apply eqb_eq in E. contradiction.
Qed.

(** X6 on [script Main { lock msgbox("Hello", "World") }]. *)
Lemma program_token_literal_is_first_token_witness :
  exists program p',
    ParseProgram 12 (New twoLiterals) = Some (Some program, p') /\
    Program_TokenLiteral program = "script".
Proof.
  eexists _, _. split.
  - vm_compute. reflexivity.
  - eapply (program_token_literal_is_first_token 12 twoLiterals).
    vm_compute. reflexivity.
Defined.
